(** * The Consul state store (consul/state_store.go)

    A shallow embedding of [StateStore] and of the properties of its write
    and read methods: the KV check-and-set, the create/modify indexes of KV
    entries, the separator listing of keys, the session and check
    preconditions, the conditional watermarks of the delete methods and the
    service/node joins.

    Layout of the file:
    - strings, errors and the record types of package [structs];
    - the table layer ([MDBTable], [MDBTxn]), which lives in another file of
      the repository and is modelled from its specification;
    - the transaction monad [Tx] with the engine-fault oracle and the
      deferred notifications;
    - the schema of [initialize] and the methods of [StateStore]: the write
      methods, the queries, and the snapshots;
    - the vocabulary of the statements: the stores a write commits, the
      family of write calls, the invariants of the reachable stores;
    - the theorems: first those of the KV store, sessions, checks, deletes and
      service queries, then method bodies under fault schedules, what each
      write commits, and the read methods. *)

From stdpp Require Import gmap strings list fin_maps sorting.

Open Scope string_scope.
Open Scope list_scope.
Open Scope nat_scope.

(** ** Numbers and strings

    Raft indexes, watermarks and flags are [uint64] in the source.  No method
    of the store does arithmetic on them: they are compared, copied and
    maximised, so they are embedded as [N] without wrap-around.  Go strings
    are byte strings; [string] is a list of 8-bit [ascii] characters. *)

Abbreviation uint64 := N (only parsing).

(** [s[n:]] for [n <= len(s)]. *)
Definition str_from (n : nat) (s : string) : string :=
  String.substring n (String.length s - n) s.

(** [s[:n]] for [n <= len(s)]. *)
Definition str_upto (n : nat) (s : string) : string :=
  String.substring 0 n s.

(** [strings.Index(s, sep)]: the position of the first occurrence of [sep]
    in [s]; [None] stands for -1. *)
Definition strings_Index (s sep : string) : option nat := String.index 0 sep s.

(** Strict byte-lexicographic order on strings. *)
Definition str_lt (a b : string) : Prop := String.le a b ∧ a ≠ b.

(** ** Errors *)

Inductive error : Type :=
| EngineFault                 (* a failure reported by the table layer or the KV engine *)
| MissingIndex (name : string) (* an index name the table does not declare *)
| Errorf (msg : string).      (* fmt.Errorf *)

(** ** Records of package structs

    Modelled from the spec: package [structs] is not part of the store's
    file.  The records carry the fields the data model of the specification
    lists for each table, and [Address] on [ServiceNode], which the join in
    [parseServiceNodes] assigns. *)

(** Modelled from the spec: [structs.Node]. *)
Record Node := mkNode { Node_Node : string; Node_Address : string }.

(** Modelled from the spec: [structs.NodeService]. *)
Record NodeService := mkNodeService {
  NS_ID : string; NS_Service : string; NS_Tags : list string; NS_Port : Z }.

(** Modelled from the spec: [structs.ServiceNode], a row of the services
    table and an element of the service queries. *)
Record ServiceNode := mkServiceNode {
  SN_Node : string; SN_Address : string; SN_ServiceID : string;
  SN_ServiceName : string; SN_ServiceTags : list string; SN_ServicePort : Z }.

(** Modelled from the spec: [structs.HealthCheck]. *)
Record HealthCheck := mkHealthCheck {
  HC_Node : string; HC_CheckID : string; HC_Status : string;
  HC_ServiceID : string; HC_ServiceName : string }.

(** Modelled from the spec: [structs.DirEntry]. *)
Record DirEntry := mkDirEntry {
  DE_CreateIndex : uint64; DE_ModifyIndex : uint64; DE_Key : string;
  DE_Flags : uint64; DE_Value : list Byte.byte }.

(** Modelled from the spec: [structs.Session]. *)
Record Session := mkSession {
  S_CreateIndex : uint64; S_ID : string; S_Name : string; S_Node : string;
  S_Checks : list string }.

(** [HealthChecks] is a slice of pointers: [None] is a nil entry. *)
Abbreviation HealthChecks := (list (option HealthCheck)) (only parsing).

(** Modelled from the spec: [structs.CheckServiceNode]. *)
Record CheckServiceNode := mkCheckServiceNode {
  CSN_Node : Node; CSN_Service : NodeService; CSN_Checks : HealthChecks }.

(** [sessionCheck] is declared in state_store.go itself. *)
Record sessionCheck := mkSessionCheck {
  SC_Node : string; SC_CheckID : string; SC_Session : string }.

(** Modelled from the spec: the status constants of package [structs]; the
    methods only compare and copy them. *)
Definition HealthUnknown : string := "unknown".
Definition HealthCritical : string := "critical".

(** Zero values, as [make] fills a fresh slice with them. *)
Definition zeroNode : Node := mkNode "" "".
Definition zeroNodeService : NodeService := mkNodeService "" "" [] 0.
Definition zeroServiceNode : ServiceNode := mkServiceNode "" "" "" "" [] 0.
Definition zeroCheckServiceNode : CheckServiceNode :=
  mkCheckServiceNode zeroNode zeroNodeService [].

(** Modelled from the spec: [strContains] is a helper of another file; the
    tag filter keeps the rows whose ServiceTags contain the tag. *)
Definition strContains (l : list string) (s : string) : bool :=
  bool_decide (s ∈ l).

(** ** Key order

    The KV engine keeps every sub-database in byte-lexicographic key order.
    A table's primary key is a string or a tuple of strings; tuples are
    ordered field by field. *)

Class KeyOrder (K : Type) := {
  key_le : relation K;
  key_le_dec :: RelDecision key_le;
  key_le_po :: PartialOrder key_le;
  key_le_total :: Total key_le }.

#[global] Instance string_KeyOrder : KeyOrder string :=
  {| key_le := String.le |}.

Definition pair_le {A B} `{KeyOrder A, KeyOrder B} : relation (A * B) :=
  λ p q, (key_le p.1 q.1 ∧ p.1 ≠ q.1) ∨ (p.1 = q.1 ∧ key_le p.2 q.2).

#[global] Instance pair_le_dec {A B} `{EqDecision A, KeyOrder A, KeyOrder B} :
  RelDecision (@pair_le A B _ _).
Proof. intros p q. unfold pair_le. apply _. Defined.

#[global] Instance pair_le_po {A B} `{KeyOrder A, KeyOrder B} :
  PartialOrder (@pair_le A B _ _).
Proof.
  split; [split|].
  - intros [a b]. right. split; [done|]. simpl. reflexivity.
  - intros [a1 b1] [a2 b2] [a3 b3]. unfold pair_le. simpl.
    intros [[H12 N12]|[-> H12]] [[H23 N23]|[-> H23]].
    + left. split; [by etrans|]. intros ->. apply N12.
      by apply (anti_symm key_le).
    + left. done.
    + left. done.
    + right. split; [done|]. by etrans.
  - intros [a1 b1] [a2 b2]. unfold pair_le. simpl.
    intros [[H12 N12]|[-> H12]] [[H21 N21]|[E H21]].
    + destruct N12. by apply (anti_symm key_le).
    + by destruct N12.
    + by destruct N21.
    + f_equal. by apply (anti_symm key_le).
Qed.

#[global] Instance pair_le_total {A B} `{EqDecision A, KeyOrder A, KeyOrder B} :
  Total (@pair_le A B _ _).
Proof.
  intros [a1 b1] [a2 b2]. unfold pair_le. simpl.
  destruct (decide (a1 = a2)) as [->|Hne].
  - destruct (total key_le b1 b2); [left|right]; right; done.
  - destruct (total key_le a1 a2); [left|right]; left; split; congruence.
Qed.

#[global] Instance pair_KeyOrder {A B} `{EqDecision A, KeyOrder A, KeyOrder B} :
  KeyOrder (A * B) := {| key_le := pair_le |}.

(** ** The table layer

    Modelled from the spec: [MDBTable], [MDBIndex], [MDBTxn] and their
    methods are defined in another file of the repository.  The model follows
    the component design of the specification: a table is a set of rows under
    a unique primary index plus a last-index watermark; an insert is an
    upsert on the primary key; a lookup through an index returns the rows
    whose index key begins with the given parts (exactly the row for every
    part of a unique index), in ascending key order; a virtual index aliases a
    real one and matches by prefix; a delete removes the rows a lookup
    returns and reports their number. *)

(** Modelled from the spec: the two key functions an index can be declared
    with, exact match on the joined fields and prefix match. *)
Inductive IndexFunc : Type := DefaultIndexFunc | DefaultIndexPrefixFunc.

Section table.
Context {K : Type} `{Countable K} `{!KeyOrder K} {R : Type}.

(** Modelled from the spec: the content of a table as a transaction sees it,
    its rows under the unique primary key and its last-index watermark. *)
Record TableState := mkTableState { rows : gmap K R; lastIndex : uint64 }.

(** Modelled from the spec: an index, with the flags of the schema and, for
    a stored row, the values of the index's fields (what the engine computed
    from the row when it was inserted; for the primary index this is the key
    it is stored under). *)
Record MDBIndex := mkIndex {
  Unique : bool;
  AllowBlank : bool;
  Virtual : bool;
  RealIndex : string;
  Fields : list string;
  IdxFunc : IndexFunc;
  idxKey : K → R → list string }.

(** Modelled from the spec: the match of [DefaultIndexPrefixFunc], which
    ignores the trailing separator; every part but the last is a whole field,
    the last part is a prefix of its field. *)
Fixpoint prefix_match (parts key : list string) : bool :=
  match parts, key with
  | [], _ => true
  | [p], k :: _ => String.prefix p k
  | p :: ps, k :: ks => String.eqb p k && prefix_match ps ks
  | _ :: _, [] => false
  end.

(** Modelled from the spec: whether the index key of a stored row begins with
    the given parts. *)
Definition matches (ix : MDBIndex) (parts : list string) (kr : K * R) : bool :=
  match IdxFunc ix with
  | DefaultIndexPrefixFunc => prefix_match parts (idxKey ix kr.1 kr.2)
  | DefaultIndexFunc => bool_decide (parts `prefix_of` idxKey ix kr.1 kr.2)
  end.

(** Rows compare by their primary key. *)
Definition row_le : relation (K * R) := λ x y, key_le x.1 y.1.

#[global] Instance row_le_dec : RelDecision row_le.
Proof. intros x y. unfold row_le. apply _. Defined.

(** Modelled from the spec: a cursor walk over the whole table, in ascending
    key order. *)
Definition scan (m : gmap K R) : list (K * R) :=
  merge_sort row_le (map_to_list m).

(** Modelled from the spec: the rows a lookup through an index returns. *)
Definition tbl_get (ix : MDBIndex) (parts : list string) (t : TableState) : list R :=
  (filter (λ kr, matches ix parts kr = true) (scan (rows t))).*2.

(** Modelled from the spec: an insert replaces the row of the primary key. *)
Definition tbl_insert (k : K) (r : R) (t : TableState) : TableState :=
  mkTableState (<[k := r]> (rows t)) (lastIndex t).

(** Modelled from the spec: a delete removes the rows the lookup returns and
    reports how many they were. *)
Definition tbl_delete (ix : MDBIndex) (parts : list string) (t : TableState)
  : nat * TableState :=
  (length (tbl_get ix parts t),
   mkTableState (filter (λ kr, matches ix parts kr ≠ true) (rows t)) (lastIndex t)).

(** Modelled from the spec: [SetLastIndexTxn] writes the watermark. *)
Definition tbl_setLastIndex (i : uint64) (t : TableState) : TableState :=
  mkTableState (rows t) i.

(** Modelled from the spec: [SetMaxLastIndexTxn] writes the larger of the
    watermark and the index, so that an out-of-order restore does not rewind
    it. *)
Definition tbl_setMaxLastIndex (i : uint64) (t : TableState) : TableState :=
  mkTableState (rows t) (N.max (lastIndex t) i).

End table.

Arguments TableState K {_ _} R.
Arguments MDBIndex K R : clear implicits.

(** ** The store and its transactions *)

(** The six tables of the environment, as one transaction sees them. *)
Record DB := mkDB {
  db_nodes : TableState string Node;
  db_services : TableState (string * string) ServiceNode;
  db_checks : TableState (string * string) HealthCheck;
  db_kvs : TableState string DirEntry;
  db_sessions : TableState string Session;
  db_sessionChecks : TableState (string * string * string) sessionCheck }.

(** Modelled from the spec: an [*MDBTable], with its name, its declared
    indexes, the primary key of a row (the fields of the "id" index) and where
    its content sits in the environment. *)
Record MDBTable (K : Type) `{Countable K} (R : Type) := mkTable {
  Name : string;
  Indexes : list (string * MDBIndex K R);
  pkey : R → K;
  tget : DB → TableState K R;
  tset : TableState K R → DB → DB }.

Arguments Name {K _ _ R} _.
Arguments Indexes {K _ _ R} _.
Arguments pkey {K _ _ R} _ _.
Arguments tget {K _ _ R} _ _.
Arguments tset {K _ _ R} _ _ _.

(** Modelled from the spec: a member of an [MDBTables] group, with what a
    group operation needs of it. *)
Record TableHandle := mkHandle { hName : string; hLastIndex : DB → uint64 }.

(** A table as a member of a group. *)
Definition handle {K} `{Countable K} {R} (t : MDBTable K R) : TableHandle :=
  mkHandle (Name t) (λ db, lastIndex (tget t db)).

(** Modelled from the spec: the index a table declares under a name. *)
Definition getIndex {K R} (name : string) (l : list (string * MDBIndex K R))
  : option (MDBIndex K R) :=
  snd <$> find (λ p, String.eqb name p.1) l.

(** Modelled from the spec: an open transaction ([*MDBTxn]), with the working
    copy of the tables, the engine faults still to come, the notifications deferred so far (most recent first, the
    order in which Go runs deferred calls) and whether Commit went through.

    The fault oracle [txFaults] decides each call into the table layer in
    turn: [true] makes the call fail with an error, [false] (or an exhausted
    list) lets it proceed.  It stands for every failure the absent table layer
    and the KV engine can report. *)
Record TxState := mkTx {
  txDB : DB;
  txFaults : list bool;
  txDeferred : list string;
  txCommitted : bool }.

(** A method body: it either leaves early through a [return] with a value of
    type [E], or runs on with a value of type [A]. *)
Definition Tx (E A : Type) : Type := TxState → (E + A) * TxState.

(** Go on with a value. *)
Definition ret {E A} (a : A) : Tx E A := λ st, (inr a, st).

(** One statement after the other; an early [return] skips the rest. *)
Definition bind {E A B} (m : Tx E A) (f : A → Tx E B) : Tx E B := λ st,
  match m st with
  | (inl e, st') => (inl e, st')
  | (inr a, st') => f a st'
  end.

(** [return e] in the middle of a method. *)
Definition Return {E A} (e : E) : Tx E A := λ st, (inl e, st).

(** Map the error of a call to the value the method returns for it, as in
    [if err != nil { return false, err }]. *)
Definition orReturn {E E' A} (h : E → E') (m : Tx E A) : Tx E' A := λ st,
  match m st with
  | (inl e, st') => (inl (h e), st')
  | (inr a, st') => (inr a, st')
  end.

Declare Scope tx_scope.
Delimit Scope tx_scope with tx.
Notation "x <- c1 ;; c2" := (bind c1 (λ x, c2))
  (at level 100, c1 at next level, right associativity) : tx_scope.
Notation "c1 ;;; c2" := (bind c1 (λ _, c2))
  (at level 100, right associativity) : tx_scope.

(** Modelled from the spec: one call into the table layer.  The oracle decides
    whether it fails; a call that fails leaves the tables as they were. *)
Definition engineOp {A} (f : DB → (error + A) * DB) : Tx error A := λ st,
  match txFaults st with
  | true :: fs => (inl EngineFault, mkTx (txDB st) fs (txDeferred st) (txCommitted st))
  | fs => let '(r, db') := f (txDB st) in
          (r, mkTx db' (tail fs) (txDeferred st) (txCommitted st))
  end.

Section txn_ops.
Context {K : Type} `{Countable K} `{!KeyOrder K} {R : Type}.
Implicit Type t : MDBTable K R.

(** Modelled from the spec: the methods of [MDBTable] on an open
    transaction. *)
Definition GetTxn t (index : string) (parts : list string) : Tx error (list R) :=
  engineOp (λ db,
    match getIndex index (Indexes t) with
    | None => (inl (MissingIndex index), db)
    | Some ix => (inr (tbl_get ix parts (tget t db)), db)
    end).

Definition InsertTxn t (r : R) : Tx error unit :=
  engineOp (λ db, (inr tt, tset t (tbl_insert (pkey t r) r (tget t db)) db)).

Definition DeleteTxn t (index : string) (parts : list string) : Tx error nat :=
  engineOp (λ db,
    match getIndex index (Indexes t) with
    | None => (inl (MissingIndex index), db)
    | Some ix => let '(n, ts) := tbl_delete ix parts (tget t db) in
                 (inr n, tset t ts db)
    end).

Definition SetLastIndexTxn t (index : uint64) : Tx error unit :=
  engineOp (λ db, (inr tt, tset t (tbl_setLastIndex index (tget t db)) db)).

Definition SetMaxLastIndexTxn t (index : uint64) : Tx error unit :=
  engineOp (λ db, (inr tt, tset t (tbl_setMaxLastIndex index (tget t db)) db)).

Definition LastIndexTxn t : Tx error uint64 :=
  engineOp (λ db, (inr (lastIndex (tget t db)), db)).

(** Modelled from the spec: [StreamTxn] sends the rows [GetTxn] would return
    down the channel one by one; the embedding hands them over as a list. *)
Definition StreamTxn t (index : string) (parts : list string) : Tx error (list R) :=
  GetTxn t index parts.

(** [defer s.watch[t].Notify()] *)
Definition deferNotify {E} t : Tx E unit := λ st,
  (inr tt, mkTx (txDB st) (txFaults st) (Name t :: txDeferred st) (txCommitted st)).

End txn_ops.

(** Modelled from the spec: [tables.LastIndexTxn(tx)] is the largest watermark
    of the group. *)
Definition LastIndexTxnAll (tables : list TableHandle) : Tx error uint64 :=
  engineOp (λ db, (inr (foldr (λ h acc, N.max (hLastIndex h db) acc) 0%N tables), db)).

(** Modelled from the spec: [tx.Commit()] publishes the working copy
    atomically, or fails and publishes nothing.  It is the operand of a
    [return]: its error is the value. *)
Definition Commit {E} : Tx E (option error) := λ st,
  match txFaults st with
  | true :: fs => (inr (Some EngineFault), mkTx (txDB st) fs (txDeferred st) false)
  | fs => (inr None, mkTx (txDB st) (tail fs) (txDeferred st) true)
  end.

(** Modelled from the spec: [StartTxn] opens a transaction on the committed
    state, or fails. *)
Definition StartTxn (faults : list bool) (s : DB) : error + TxState :=
  match faults with
  | true :: _ => inl EngineFault
  | fs => inr (mkTx s (tail fs) [] false)
  end.

(** What a call of a write method leaves behind: the values it returned, the
    committed state, and the tables whose watchers were notified (in the
    order the deferred calls ran); or a panic. *)
Inductive Outcome (A : Type) : Type :=
| Returned (result : A) (store : DB) (notified : list string)
| Panicked.
Arguments Returned {A} _ _ _.
Arguments Panicked {A}.

(** Run a method body in a transaction on [s].  [defer tx.Abort()] discards
    the working copy unless Commit went through; the deferred notifications
    fire either way. *)
Definition runTxn {E A} (s : DB) (tx : TxState) (early : E → A) (body : Tx E A)
  : Outcome A :=
  let '(r, tx') := body tx in
  Returned (match r with inl e => early e | inr a => a end)
           (if txCommitted tx' then txDB tx' else s)
           (txDeferred tx').

(** A read-only transaction: the value, or [None] for a panic. *)
Definition runQuery {A} (tx : TxState) (body : Tx () A) : option A :=
  match (body tx).1 with
  | inl _ => None
  | inr a => Some a
  end.

(** [res, err := call(...)] where the method goes on with both values: a
    failed call yields its zero result and the error. *)
Definition capture {E A} (zero : A) (m : Tx error A) : Tx E (A * option error) := λ st,
  match m st with
  | (inl e, st') => (inr (zero, Some e), st')
  | (inr a, st') => (inr (a, None), st')
  end.

(** ** The schema of [initialize]

    The tables and their indexes, as [initialize] declares them.  An index
    declared without [IdxFunc] gets [DefaultIndexFunc]; [idxKey] reads the
    fields named by [Fields] (the primary index reads them off the key the
    row is stored under). *)

Definition dbNodes : string := "nodes".
Definition dbServices : string := "services".
Definition dbChecks : string := "checks".
Definition dbKVS : string := "kvs".
Definition dbSessions : string := "sessions".
Definition dbSessionChecks : string := "sessionChecks".

Definition nodeTable : MDBTable string Node := {|
  Name := dbNodes;
  Indexes := [
    ("id", {| Unique := true; AllowBlank := false; Virtual := false; RealIndex := "";
              Fields := ["Node"]; IdxFunc := DefaultIndexFunc;
              idxKey := λ k _, [k] |})];
  pkey := Node_Node;
  tget := db_nodes;
  tset := λ t db, mkDB t (db_services db) (db_checks db) (db_kvs db)
                       (db_sessions db) (db_sessionChecks db) |}.

Definition serviceTable : MDBTable (string * string) ServiceNode := {|
  Name := dbServices;
  Indexes := [
    ("id", {| Unique := true; AllowBlank := false; Virtual := false; RealIndex := "";
              Fields := ["Node"; "ServiceID"]; IdxFunc := DefaultIndexFunc;
              idxKey := λ k _, [k.1; k.2] |});
    ("service", {| Unique := false; AllowBlank := true; Virtual := false; RealIndex := "";
              Fields := ["ServiceName"]; IdxFunc := DefaultIndexFunc;
              idxKey := λ _ r, [SN_ServiceName r] |})];
  pkey := λ r, (SN_Node r, SN_ServiceID r);
  tget := db_services;
  tset := λ t db, mkDB (db_nodes db) t (db_checks db) (db_kvs db)
                       (db_sessions db) (db_sessionChecks db) |}.

Definition checkTable : MDBTable (string * string) HealthCheck := {|
  Name := dbChecks;
  Indexes := [
    ("id", {| Unique := true; AllowBlank := false; Virtual := false; RealIndex := "";
              Fields := ["Node"; "CheckID"]; IdxFunc := DefaultIndexFunc;
              idxKey := λ k _, [k.1; k.2] |});
    ("status", {| Unique := false; AllowBlank := false; Virtual := false; RealIndex := "";
              Fields := ["Status"]; IdxFunc := DefaultIndexFunc;
              idxKey := λ _ r, [HC_Status r] |});
    ("service", {| Unique := false; AllowBlank := true; Virtual := false; RealIndex := "";
              Fields := ["ServiceName"]; IdxFunc := DefaultIndexFunc;
              idxKey := λ _ r, [HC_ServiceName r] |});
    ("node", {| Unique := false; AllowBlank := true; Virtual := false; RealIndex := "";
              Fields := ["Node"; "ServiceID"]; IdxFunc := DefaultIndexFunc;
              idxKey := λ _ r, [HC_Node r; HC_ServiceID r] |})];
  pkey := λ r, (HC_Node r, HC_CheckID r);
  tget := db_checks;
  tset := λ t db, mkDB (db_nodes db) (db_services db) t (db_kvs db)
                       (db_sessions db) (db_sessionChecks db) |}.

Definition kvsTable : MDBTable string DirEntry := {|
  Name := dbKVS;
  Indexes := [
    ("id", {| Unique := true; AllowBlank := false; Virtual := false; RealIndex := "";
              Fields := ["Key"]; IdxFunc := DefaultIndexFunc;
              idxKey := λ k _, [k] |});
    ("id_prefix", {| Unique := false; AllowBlank := false; Virtual := true; RealIndex := "id";
              Fields := ["Key"]; IdxFunc := DefaultIndexPrefixFunc;
              idxKey := λ k _, [k] |})];
  pkey := DE_Key;
  tget := db_kvs;
  tset := λ t db, mkDB (db_nodes db) (db_services db) (db_checks db) t
                       (db_sessions db) (db_sessionChecks db) |}.

Definition sessionTable : MDBTable string Session := {|
  Name := dbSessions;
  Indexes := [
    ("id", {| Unique := true; AllowBlank := false; Virtual := false; RealIndex := "";
              Fields := ["ID"]; IdxFunc := DefaultIndexFunc;
              idxKey := λ k _, [k] |});
    ("node", {| Unique := false; AllowBlank := true; Virtual := false; RealIndex := "";
              Fields := ["Node"]; IdxFunc := DefaultIndexFunc;
              idxKey := λ _ r, [S_Node r] |})];
  pkey := S_ID;
  tget := db_sessions;
  tset := λ t db, mkDB (db_nodes db) (db_services db) (db_checks db) (db_kvs db)
                       t (db_sessionChecks db) |}.

Definition sessionCheckTable : MDBTable (string * string * string) sessionCheck := {|
  Name := dbSessionChecks;
  Indexes := [
    ("id", {| Unique := true; AllowBlank := false; Virtual := false; RealIndex := "";
              Fields := ["Node"; "CheckID"; "Session"]; IdxFunc := DefaultIndexFunc;
              idxKey := λ k _, [k.1.1; k.1.2; k.2] |})];
  pkey := λ r, (SC_Node r, SC_CheckID r, SC_Session r);
  tget := db_sessionChecks;
  tset := λ t db, mkDB (db_nodes db) (db_services db) (db_checks db) (db_kvs db)
                       (db_sessions db) t |}.

(** [s.queryTables] *)
Definition queryTables (q : string) : list TableHandle :=
  let nodes := handle nodeTable in
  let services := handle serviceTable in
  let checks := handle checkTable in
  let kvs := handle kvsTable in
  default [] (snd <$> find (λ p, String.eqb q p.1) [
    ("Nodes", [nodes]);
    ("Services", [services]);
    ("ServiceNodes", [nodes; services]);
    ("NodeServices", [nodes; services]);
    ("ChecksInState", [checks]);
    ("NodeChecks", [checks]);
    ("ServiceChecks", [checks]);
    ("CheckServiceNodes", [nodes; services; checks]);
    ("NodeInfo", [nodes; services; checks]);
    ("NodeDump", [nodes; services; checks]);
    ("KVSGet", [kvs]);
    ("KVSList", [kvs]);
    ("KVSListKeys", [kvs])]).

(** The store [NewStateStore] returns: every table empty, every watermark 0. *)
Definition emptyTable {K} `{Countable K} {R} : TableState K R := mkTableState ∅ 0%N.
Definition emptyDB : DB :=
  mkDB emptyTable emptyTable emptyTable emptyTable emptyTable emptyTable.

(** ** The write methods of [StateStore]

    Every method takes the fault oracle of the call first and the committed
    state last.  The Go methods receive a pointer to the record and assign to
    its fields before the insert; the embedding rebinds the record, and the
    rebound value is the row [InsertTxn] stores. *)

Local Open Scope tx_scope.

Definition errMissingNode : error := Errorf "Missing node registration".
Definition errMissingService : error := Errorf "Missing service registration".
Definition errMissingCheck (checkId : string) : error :=
  Errorf ("Missing check '" +:+ checkId +:+ "' registration").
Definition errCheckState (checkId status : string) : error :=
  Errorf ("Check '" +:+ checkId +:+ "' is in " +:+ status +:+ " state").

(** [if n > 0 { SetLastIndexTxn(tx, index); defer Notify() }] *)
Definition touchIfDeleted {K} `{Countable K} {R} (t : MDBTable K R) (index : uint64)
    (n : nat) : Tx error unit :=
  if (0 <? n)%nat then SetLastIndexTxn t index ;;; deferNotify t else ret tt.

Definition EnsureNode (faults : list bool) (index : uint64) (node : Node) (s : DB)
  : Outcome (option error) :=
  match StartTxn faults s with
  | inl err => Returned (Some err) s []
  | inr tx => runTxn s tx Some (
      InsertTxn nodeTable node ;;;
      SetLastIndexTxn nodeTable index ;;;
      deferNotify nodeTable ;;;
      Commit)
  end.

Definition EnsureService (faults : list bool) (index : uint64) (node : string)
    (ns : NodeService) (s : DB) : Outcome (option error) :=
  match StartTxn faults s with
  | inl _ => Panicked
  | inr tx => runTxn s tx Some (
      res <- GetTxn nodeTable "id" [node] ;;
      if (length res =? 0)%nat then Return errMissingNode else
      let entry := mkServiceNode node "" (NS_ID ns) (NS_Service ns) (NS_Tags ns) (NS_Port ns) in
      InsertTxn serviceTable entry ;;;
      SetLastIndexTxn serviceTable index ;;;
      deferNotify serviceTable ;;;
      Commit)
  end.

Definition HC_withStatus (status : string) (c : HealthCheck) : HealthCheck :=
  mkHealthCheck (HC_Node c) (HC_CheckID c) status (HC_ServiceID c) (HC_ServiceName c).
Definition HC_withServiceName (name : string) (c : HealthCheck) : HealthCheck :=
  mkHealthCheck (HC_Node c) (HC_CheckID c) (HC_Status c) (HC_ServiceID c) name.

Definition EnsureCheck (faults : list bool) (index : uint64) (check : HealthCheck)
    (s : DB) : Outcome (option error) :=
  let check := if String.eqb (HC_Status check) "" then HC_withStatus HealthUnknown check
               else check in
  match StartTxn faults s with
  | inl _ => Panicked
  | inr tx => runTxn s tx Some (
      res <- GetTxn nodeTable "id" [HC_Node check] ;;
      if (length res =? 0)%nat then Return errMissingNode else
      check <- (if negb (String.eqb (HC_ServiceID check) "") then
                  res <- GetTxn serviceTable "id" [HC_Node check; HC_ServiceID check] ;;
                  match res with
                  | [] => Return errMissingService
                  | srv :: _ => ret (HC_withServiceName (SN_ServiceName srv) check)
                  end
                else ret check) ;;
      InsertTxn checkTable check ;;;
      SetLastIndexTxn checkTable index ;;;
      deferNotify checkTable ;;;
      Commit)
  end.

Definition DeleteNodeService (faults : list bool) (index : uint64) (node id : string)
    (s : DB) : Outcome (option error) :=
  match StartTxn faults s with
  | inl _ => Panicked
  | inr tx => runTxn s tx Some (
      n <- DeleteTxn serviceTable "id" [node; id] ;;
      touchIfDeleted serviceTable index n ;;;
      n <- DeleteTxn checkTable "node" [node; id] ;;
      touchIfDeleted checkTable index n ;;;
      Commit)
  end.

Definition DeleteNode (faults : list bool) (index : uint64) (node : string) (s : DB)
  : Outcome (option error) :=
  match StartTxn faults s with
  | inl _ => Panicked
  | inr tx => runTxn s tx Some (
      n <- DeleteTxn serviceTable "id" [node] ;;
      touchIfDeleted serviceTable index n ;;;
      n <- DeleteTxn checkTable "id" [node] ;;
      touchIfDeleted checkTable index n ;;;
      n <- DeleteTxn nodeTable "id" [node] ;;
      touchIfDeleted nodeTable index n ;;;
      Commit)
  end.

Definition DeleteNodeCheck (faults : list bool) (index : uint64) (node id : string)
    (s : DB) : Outcome (option error) :=
  match StartTxn faults s with
  | inl err => Returned (Some err) s []
  | inr tx => runTxn s tx Some (
      n <- DeleteTxn checkTable "id" [node; id] ;;
      touchIfDeleted checkTable index n ;;;
      Commit)
  end.

Definition DE_withIndexes (create modify : uint64) (d : DirEntry) : DirEntry :=
  mkDirEntry create modify (DE_Key d) (DE_Flags d) (DE_Value d).

Definition KVSSet (faults : list bool) (index : uint64) (d : DirEntry) (s : DB)
  : Outcome (option error) :=
  match StartTxn faults s with
  | inl err => Returned (Some err) s []
  | inr tx => runTxn s tx Some (
      res <- GetTxn kvsTable "id" [DE_Key d] ;;
      let d := match res with
               | [] => DE_withIndexes index index d
               | existing :: _ => DE_withIndexes (DE_CreateIndex existing) index d
               end in
      InsertTxn kvsTable d ;;;
      SetLastIndexTxn kvsTable index ;;;
      deferNotify kvsTable ;;;
      Commit)
  end.

Definition KVSRestore (faults : list bool) (d : DirEntry) (s : DB)
  : Outcome (option error) :=
  match StartTxn faults s with
  | inl err => Returned (Some err) s []
  | inr tx => runTxn s tx Some (
      InsertTxn kvsTable d ;;;
      Commit)
  end.

Definition kvsDeleteWithIndex (faults : list bool) (index : uint64)
    (tableIndex : string) (parts : list string) (s : DB) : Outcome (option error) :=
  match StartTxn faults s with
  | inl err => Returned (Some err) s []
  | inr tx => runTxn s tx Some (
      num <- DeleteTxn kvsTable tableIndex parts ;;
      touchIfDeleted kvsTable index num ;;;
      Commit)
  end.

Definition KVSDelete (faults : list bool) (index : uint64) (key : string) (s : DB)
  : Outcome (option error) :=
  kvsDeleteWithIndex faults index "id" [key] s.

Definition KVSDeleteTree (faults : list bool) (index : uint64) (prefix : string)
    (s : DB) : Outcome (option error) :=
  if String.eqb prefix "" then kvsDeleteWithIndex faults index "id" [] s
  else kvsDeleteWithIndex faults index "id_prefix" [prefix] s.

(** [KVSCheckAndSet] returns [(bool, error)]. *)
Definition KVSCheckAndSet (faults : list bool) (index : uint64) (d : DirEntry) (s : DB)
  : Outcome (bool * option error) :=
  let failed (err : error) := (false, Some err) in
  match StartTxn faults s with
  | inl err => Returned (false, Some err) s []
  | inr tx => runTxn s tx id (
      res <- orReturn failed (GetTxn kvsTable "id" [DE_Key d]) ;;
      let existing := head res in
      if (DE_ModifyIndex d =? 0)%N && bool_decide (is_Some existing) then
        Return (false, None)
      else if (0 <? DE_ModifyIndex d)%N &&
              match existing with
              | None => true
              | Some e => negb (DE_ModifyIndex e =? DE_ModifyIndex d)%N
              end then
        Return (false, None)
      else
      let d := match existing with
               | None => DE_withIndexes index index d
               | Some e => DE_withIndexes (DE_CreateIndex e) index d
               end in
      orReturn failed (InsertTxn kvsTable d) ;;;
      orReturn failed (SetLastIndexTxn kvsTable index) ;;;
      deferNotify kvsTable ;;;
      err <- Commit ;;
      ret (true, err))
  end.

(** A [for _, x := range l] loop whose body may return from the method. *)
Fixpoint forEach {E A} (l : list A) (body : A → Tx E unit) : Tx E unit :=
  match l with
  | [] => ret tt
  | x :: l' => body x ;;; forEach l' body
  end.

Definition S_withCreateIndex (index : uint64) (x : Session) : Session :=
  mkSession index (S_ID x) (S_Name x) (S_Node x) (S_Checks x).
Definition S_withID (id : string) (x : Session) : Session :=
  mkSession (S_CreateIndex x) id (S_Name x) (S_Node x) (S_Checks x).

(** The loop of [SessionCreate] that looks the generated ID up until it is
    unused.  The source has no bound on it: [fuel] is the number of iterations
    the embedding follows, and the early value [None] says that the loop was
    still running when the fuel ran out. *)
Fixpoint uniqueIDLoop (fuel : nat) (id : string) : Tx (option error) unit :=
  match fuel with
  | O => Return None
  | S fuel' =>
      res <- orReturn Some (GetTxn sessionTable "id" [id]) ;;
      if (length res =? 0)%nat then ret tt else uniqueIDLoop fuel' id
  end.

(** The body of the first loop of [SessionCreate]: the check must exist for
    the node and must not be critical. *)
Definition verifyCheck (node checkId : string) : Tx (option error) unit :=
  res <- orReturn Some (GetTxn checkTable "id" [node; checkId]) ;;
  match res with
  | [] => Return (Some (errMissingCheck checkId))
  | chk :: _ =>
      if String.eqb (HC_Status chk) HealthCritical
      then Return (Some (errCheckState checkId (HC_Status chk)))
      else ret tt
  end.

(** The check mapping [sCheck] with its [CheckID] set. *)
Definition sCheck (session : Session) (checkID : string) : sessionCheck :=
  mkSessionCheck (S_Node session) checkID (S_ID session).

(** [SessionCreate].  [uuid] is the value [generateUUID()] returns in this
    call.  The result is [None] when the uniqueness loop has not ended after
    [fuel] iterations. *)
Definition SessionCreate (fuel : nat) (uuid : string) (faults : list bool)
    (index : uint64) (session : Session) (s : DB) : option (Outcome (option error)) :=
  let session := S_withCreateIndex index session in
  match StartTxn faults s with
  | inl _ => Some Panicked
  | inr tx =>
    let '(r, tx') := (
      res <- orReturn Some (GetTxn nodeTable "id" [S_Node session]) ;;
      if (length res =? 0)%nat then Return (Some errMissingNode) else
      forEach (S_Checks session) (verifyCheck (S_Node session)) ;;;
      let session := S_withID uuid session in
      uniqueIDLoop fuel (S_ID session) ;;;
      orReturn Some (InsertTxn sessionTable session) ;;;
      forEach (S_Checks session) (λ checkID,
        orReturn Some (InsertTxn sessionCheckTable (sCheck session checkID))) ;;;
      orReturn Some (SetLastIndexTxn sessionTable index) ;;;
      deferNotify sessionTable ;;;
      orReturn Some (SetLastIndexTxn sessionCheckTable index) ;;;
      deferNotify sessionCheckTable ;;;
      Commit) tx in
    let finish (err : option error) :=
      Some (Returned err (if txCommitted tx' then txDB tx' else s) (txDeferred tx')) in
    match r with
    | inl None => None
    | inl (Some err) => finish (Some err)
    | inr err => finish err
    end
  end.

Definition SessionRestore (faults : list bool) (session : Session) (s : DB)
  : Outcome (option error) :=
  match StartTxn faults s with
  | inl _ => Panicked
  | inr tx => runTxn s tx Some (
      InsertTxn sessionTable session ;;;
      forEach (S_Checks session) (λ checkID,
        InsertTxn sessionCheckTable (sCheck session checkID)) ;;;
      let index := S_CreateIndex session in
      SetMaxLastIndexTxn sessionTable index ;;;
      deferNotify sessionTable ;;;
      SetMaxLastIndexTxn sessionCheckTable index ;;;
      deferNotify sessionCheckTable ;;;
      Commit)
  end.

(** ** The read methods of [StateStore] *)

(** [serviceTagFilter] filters the slice in place: a row without the tag is
    overwritten by the last row of the window and the window shrinks by one.
    (The source also stores nil in the vacated last slot, which lies outside
    the slice it returns.)  The loop runs at most [len(l)] times, which is the
    fuel. *)
Fixpoint serviceTagFilter_loop (fuel : nat) (l : list ServiceNode) (tag : string)
    (i n : nat) : list ServiceNode :=
  match fuel with
  | O => take n l
  | S fuel' =>
      if (i <? n)%nat then
        match l !! i, l !! (n - 1)%nat with
        | Some srv, Some lastRow =>
            if negb (strContains (SN_ServiceTags srv) tag)
            then serviceTagFilter_loop fuel' (<[i := lastRow]> l) tag i (n - 1)
            else serviceTagFilter_loop fuel' l tag (S i) n
        | _, _ => take n l
        end
      else take n l
  end.

Definition serviceTagFilter (l : list ServiceNode) (tag : string) : list ServiceNode :=
  serviceTagFilter_loop (length l) l tag 0 (length l).

Definition SN_withAddress (address : string) (x : ServiceNode) : ServiceNode :=
  mkServiceNode (SN_Node x) address (SN_ServiceID x) (SN_ServiceName x)
                (SN_ServiceTags x) (SN_ServicePort x).

(** The loop of [parseServiceNodes]: [i] is the index of the first row of
    [res] in the slice [nodes]. *)
Fixpoint parseServiceNodes_loop {E} (table : MDBTable string Node)
    (res : list ServiceNode) (i : nat) (nodes : list ServiceNode)
  : Tx E (list ServiceNode) :=
  match res with
  | [] => ret nodes
  | srv :: res' =>
      nodeRes <- capture [] (GetTxn table "id" [SN_Node srv]) ;;
      match nodeRes with
      | ([n], None) =>
          let srv := SN_withAddress (Node_Address n) srv in
          parseServiceNodes_loop table res' (S i) (<[i := srv]> nodes)
      | _ => parseServiceNodes_loop table res' (S i) nodes
      end
  end.

Definition parseServiceNodes {E} (table : MDBTable string Node)
    (res : list ServiceNode) (err : option error) : Tx E (list ServiceNode) :=
  let nodes := replicate (length res) zeroServiceNode in
  match err with
  | Some _ => ret nodes
  | None => parseServiceNodes_loop table res 0 nodes
  end.

(** A failed [StartTxn] or [LastIndexTxn] panics: the query has no value. *)
Definition orPanic {A} (m : Tx error A) : Tx () A := orReturn (λ _, tt) m.

Definition ServiceNodes (faults : list bool) (service : string) (s : DB)
  : option (uint64 * list ServiceNode) :=
  let tables := queryTables "ServiceNodes" in
  match StartTxn faults s with
  | inl _ => None
  | inr tx => runQuery tx (
      idx <- orPanic (LastIndexTxnAll tables) ;;
      res <- capture [] (GetTxn serviceTable "service" [service]) ;;
      nodes <- parseServiceNodes nodeTable res.1 res.2 ;;
      ret (idx, nodes))
  end.

Definition ServiceTagNodes (faults : list bool) (service tag : string) (s : DB)
  : option (uint64 * list ServiceNode) :=
  let tables := queryTables "ServiceNodes" in
  match StartTxn faults s with
  | inl _ => None
  | inr tx => runQuery tx (
      idx <- orPanic (LastIndexTxnAll tables) ;;
      res <- capture [] (GetTxn serviceTable "service" [service]) ;;
      let res' := serviceTagFilter res.1 tag in
      nodes <- parseServiceNodes nodeTable res' res.2 ;;
      ret (idx, nodes))
  end.

Definition parseHealthChecks (idx : uint64) (res : list HealthCheck)
    (err : option error) : uint64 * HealthChecks :=
  match err with
  | Some _ => (idx, replicate (length res) None)
  | None => (idx, Some <$> res)
  end.

Definition CSN_fill (n : Node) (srv : ServiceNode) (checks : HealthChecks)
  : CheckServiceNode :=
  mkCheckServiceNode n
    (mkNodeService (SN_ServiceID srv) (SN_ServiceName srv)
                   (SN_ServiceTags srv) (SN_ServicePort srv))
    checks.

Fixpoint parseCheckServiceNodes_loop {E} (res : list ServiceNode) (i : nat)
    (nodes : list CheckServiceNode) : Tx E (list CheckServiceNode) :=
  match res with
  | [] => ret nodes
  | srv :: res' =>
      nodeRes <- capture [] (GetTxn nodeTable "id" [SN_Node srv]) ;;
      match nodeRes with
      | ([n], None) =>
          r <- capture [] (GetTxn checkTable "node" [SN_Node srv; SN_ServiceID srv]) ;;
          let checks := (parseHealthChecks 0 r.1 r.2).2 in
          r <- capture [] (GetTxn checkTable "node" [SN_Node srv; ""]) ;;
          let nodeChecks := (parseHealthChecks 0 r.1 r.2).2 in
          let checks := (checks ++ nodeChecks)%list in
          parseCheckServiceNodes_loop res' (S i) (<[i := CSN_fill n srv checks]> nodes)
      | _ => parseCheckServiceNodes_loop res' (S i) nodes
      end
  end.

Definition parseCheckServiceNodes {E} (res : list ServiceNode) (err : option error)
  : Tx E (list CheckServiceNode) :=
  let nodes := replicate (length res) zeroCheckServiceNode in
  match err with
  | Some _ => ret nodes
  | None => parseCheckServiceNodes_loop res 0 nodes
  end.

Definition CheckServiceNodes (faults : list bool) (service : string) (s : DB)
  : option (uint64 * list CheckServiceNode) :=
  let tables := queryTables "CheckServiceNodes" in
  match StartTxn faults s with
  | inl _ => None
  | inr tx => runQuery tx (
      idx <- orPanic (LastIndexTxnAll tables) ;;
      res <- capture [] (GetTxn serviceTable "service" [service]) ;;
      nodes <- parseCheckServiceNodes res.1 res.2 ;;
      ret (idx, nodes))
  end.

Definition CheckServiceTagNodes (faults : list bool) (service tag : string) (s : DB)
  : option (uint64 * list CheckServiceNode) :=
  let tables := queryTables "CheckServiceNodes" in
  match StartTxn faults s with
  | inl _ => None
  | inr tx => runQuery tx (
      idx <- orPanic (LastIndexTxnAll tables) ;;
      res <- capture [] (GetTxn serviceTable "service" [service]) ;;
      let res' := serviceTagFilter res.1 tag in
      nodes <- parseCheckServiceNodes res' res.2 ;;
      ret (idx, nodes))
  end.

(** One round of the goroutine of [KVSListKeys] that drains the stream:
    the state is [(keys, last)]. *)
Definition listKeys_step (prefixLen sepLen : nat) (seperator : string)
    (acc : list string * string) (ent : DirEntry) : list string * string :=
  let '(keys, last) := acc in
  let after := str_from prefixLen (DE_Key ent) in
  if (sepLen =? 0)%nat then ((keys ++ [DE_Key ent])%list, last)
  else match strings_Index after seperator with
       | Some idx =>
           let toSep := str_upto (prefixLen + idx + sepLen) (DE_Key ent) in
           if negb (String.eqb last toSep) then ((keys ++ [toSep])%list, toSep)
           else (keys, last)
       | None => ((keys ++ [DE_Key ent])%list, last)
       end.

Definition listKeys_drain (prefix seperator : string) (stream : list DirEntry)
  : list string :=
  (foldl (listKeys_step (String.length prefix) (String.length seperator) seperator)
         ([], "") stream).1.

(** [KVSListKeys] returns [(uint64, []string, error)]. *)
Definition KVSListKeys (faults : list bool) (prefix seperator : string) (s : DB)
  : uint64 * list string * option error :=
  let failed (err : error) := (0%N, @nil string, Some err) in
  match StartTxn faults s with
  | inl err => failed err
  | inr tx =>
    let '(r, _) := (
      idx <- orReturn failed (LastIndexTxn kvsTable) ;;
      stream <- capture [] (StreamTxn kvsTable "id_prefix" [prefix]) ;;
      let keys := listKeys_drain prefix seperator stream.1 in
      ret (idx, keys, stream.2)) tx in
    match r with inl v => v | inr v => v end
  end.

(** [KVSGet] goes through [MDBTable.Get], which opens its own read
    transaction, reads the watermark and looks the key up. *)
Definition KVSGet (faults : list bool) (key : string) (s : DB)
  : uint64 * option DirEntry * option error :=
  match StartTxn faults s with
  | inl err => (0%N, None, Some err)
  | inr tx =>
    let '(r, _) := (
      idx <- LastIndexTxn kvsTable ;;
      res <- GetTxn kvsTable "id" [key] ;;
      ret (idx, head res)) tx in
    match r with
    | inl err => (0%N, None, Some err)
    | inr (idx, d) => (idx, d, None)
    end
  end.

Local Close Scope tx_scope.

(** ** Vocabulary of the statements *)

(** A call the engine does not fail. *)
Definition noFaults : list bool := [].

Definition kvs_entry (s : DB) (key : string) : option DirEntry := rows (db_kvs s) !! key.
Definition cas_condition (s : DB) (d : DirEntry) : Prop :=
  (DE_ModifyIndex d = 0%N ∧ kvs_entry s (DE_Key d) = None) ∨
  ((0 < DE_ModifyIndex d)%N ∧
   ∃ e, kvs_entry s (DE_Key d) = Some e ∧ DE_ModifyIndex e = DE_ModifyIndex d).
Definition cas_ok (o : Outcome (bool * option error)) : bool :=
  match o with Returned (b, _) _ _ => b | Panicked => false end.

(** The store a successful [KVSSet] or [KVSCheckAndSet] commits. *)
Definition kvs_written (index : uint64) (d : DirEntry) (s : DB) : DB :=
  let create := match kvs_entry s (DE_Key d) with
                | Some e => DE_CreateIndex e
                | None => index
                end in
  tset kvsTable
    (tbl_setLastIndex index
       (tbl_insert (DE_Key d) (DE_withIndexes create index d) (db_kvs s))) s.

Inductive KVWrite : Type :=
| WriteSet (faults : list bool) (index : uint64) (d : DirEntry)
| WriteCheckAndSet (faults : list bool) (index : uint64) (d : DirEntry).

Definition write_key (w : KVWrite) : string :=
  match w with WriteSet _ _ d | WriteCheckAndSet _ _ d => DE_Key d end.
Definition write_entry (w : KVWrite) : DirEntry :=
  match w with WriteSet _ _ d | WriteCheckAndSet _ _ d => d end.
Definition write_index (w : KVWrite) : uint64 :=
  match w with WriteSet _ index _ | WriteCheckAndSet _ index _ => index end.

(** The store after the call, and whether the call succeeded. *)
Definition applyWrite (w : KVWrite) (s : DB) : DB * bool :=
  match w with
  | WriteSet faults index d =>
      match KVSSet faults index d s with
      | Returned None s' _ => (s', true)
      | Returned (Some _) s' _ => (s', false)
      | Panicked => (s, false)
      end
  | WriteCheckAndSet faults index d =>
      match KVSCheckAndSet faults index d s with
      | Returned (true, None) s' _ => (s', true)
      | Returned _ s' _ => (s', false)
      | Panicked => (s, false)
      end
  end.

(** Run the calls in order; the log lists the indexes of the successful
    writes to [key]. *)
Fixpoint runWrites (key : string) (ws : list KVWrite) (s : DB) : DB * list uint64 :=
  match ws with
  | [] => (s, [])
  | w :: ws' =>
      let '(s1, ok) := applyWrite w s in
      let '(s2, log) := runWrites key ws' s1 in
      (s2, if ok && String.eqb (write_key w) key then write_index w :: log else log)
  end.

(** [SessionCreate] turns a session down when its node is not registered, or
    a listed check has no row for the node, or a listed check is critical. *)
Definition session_rejected (s : DB) (session : Session) : Prop :=
  rows (db_nodes s) !! S_Node session = None ∨
  ∃ c, c ∈ S_Checks session ∧
    (rows (db_checks s) !! (S_Node session, c) = None ∨
     ∃ chk, rows (db_checks s) !! (S_Node session, c) = Some chk ∧
            HC_Status chk = HealthCritical).

(** A listed check that exists for the node in any state but critical. *)
Definition check_usable (s : DB) (node c : string) : Prop :=
  ∃ chk, rows (db_checks s) !! (node, c) = Some chk ∧ HC_Status chk ≠ HealthCritical.

Definition session_accepted (s : DB) (session : Session) : Prop :=
  is_Some (rows (db_nodes s) !! S_Node session) ∧
  Forall (check_usable s (S_Node session)) (S_Checks session).

(** The rows [SessionCreate] and [SessionRestore] add to sessionChecks. *)
Definition sessionChecks_added (session : Session)
    (t : TableState (string * string * string) sessionCheck)
  : TableState (string * string * string) sessionCheck :=
  foldl (λ t c, tbl_insert (pkey sessionCheckTable (sCheck session c))
                           (sCheck session c) t)
        t (S_Checks session).

(** The store a successful [SessionCreate] commits. *)
Definition session_stored (uuid : string) (index : uint64) (session : Session)
    (s : DB) : DB :=
  let session := S_withID uuid (S_withCreateIndex index session) in
  tset sessionCheckTable
    (tbl_setLastIndex index (sessionChecks_added session (db_sessionChecks s)))
    (tset sessionTable
       (tbl_setLastIndex index (tbl_insert uuid session (db_sessions s))) s).

(** The store a successful [SessionRestore] commits. *)
Definition session_restored (session : Session) (s : DB) : DB :=
  let index := S_CreateIndex session in
  tset sessionCheckTable
    (tbl_setMaxLastIndex index (sessionChecks_added session (db_sessionChecks s)))
    (tset sessionTable
       (tbl_setMaxLastIndex index (tbl_insert (S_ID session) session (db_sessions s))) s).

(** The committed store of an outcome ([s] after a panic). *)
Definition store_of {A} (s : DB) (o : Outcome A) : DB :=
  match o with Returned _ s' _ => s' | Panicked => s end.

(** A node with a passing, a warning and a critical check. *)
Definition example_checks_store : DB :=
  let s1 := store_of emptyDB (EnsureNode noFaults 1 (mkNode "n1" "10.0.0.1") emptyDB) in
  let s2 := store_of s1 (EnsureCheck noFaults 2 (mkHealthCheck "n1" "c1" "passing" "" "") s1) in
  let s3 := store_of s2 (EnsureCheck noFaults 3 (mkHealthCheck "n1" "c2" "warning" "" "") s2) in
  store_of s3 (EnsureCheck noFaults 4 (mkHealthCheck "n1" "c3" "critical" "" "") s3).

Definition example_session : Session := mkSession 0 "" "" "n1" ["c1"; "c2"].

(** The same store after a session was created under the ID "uuid-1". *)
Definition example_session_store : DB :=
  match SessionCreate 1 "uuid-1" noFaults 30 example_session example_checks_store with
  | Some o => store_of example_checks_store o
  | None => example_checks_store
  end.

(** The store a successful [EnsureCheck] commits for the row [c]. *)
Definition check_stored (index : uint64) (c : HealthCheck) (s : DB) : DB :=
  tset checkTable
    (tbl_setLastIndex index (tbl_insert (HC_Node c, HC_CheckID c) c (db_checks s))) s.

(** The status [EnsureCheck] stores for a check. *)
Definition stored_status (check : HealthCheck) : string :=
  if String.eqb (HC_Status check) "" then "unknown" else HC_Status check.

(** A node with the service "web", and a check on it that names neither a
    status nor the right service name. *)
Definition example_service_store : DB :=
  let s1 := store_of emptyDB (EnsureNode noFaults 1 (mkNode "n1" "10.0.0.1") emptyDB) in
  store_of s1 (EnsureService noFaults 2 "n1" (mkNodeService "web" "web-name" ["a"] 80) s1).

Definition example_check : HealthCheck := mkHealthCheck "n1" "web-ping" "" "web" "stale".

(** The tables of the store, for statements that range over them. *)
Inductive TableId : Type :=
| TNodes | TServices | TChecks | TKVS | TSessions | TSessionChecks.

Definition table_name (t : TableId) : string :=
  match t with
  | TNodes => dbNodes | TServices => dbServices | TChecks => dbChecks
  | TKVS => dbKVS | TSessions => dbSessions | TSessionChecks => dbSessionChecks
  end.

Definition watermark (t : TableId) (s : DB) : uint64 :=
  match t with
  | TNodes => lastIndex (db_nodes s) | TServices => lastIndex (db_services s)
  | TChecks => lastIndex (db_checks s) | TKVS => lastIndex (db_kvs s)
  | TSessions => lastIndex (db_sessions s)
  | TSessionChecks => lastIndex (db_sessionChecks s)
  end.

(** [rows_kept t s s']: table [t] has the same rows in [s'] as in [s]. *)
Definition rows_kept (t : TableId) (s s' : DB) : Prop :=
  match t with
  | TNodes => rows (db_nodes s') = rows (db_nodes s)
  | TServices => rows (db_services s') = rows (db_services s)
  | TChecks => rows (db_checks s') = rows (db_checks s)
  | TKVS => rows (db_kvs s') = rows (db_kvs s)
  | TSessions => rows (db_sessions s') = rows (db_sessions s)
  | TSessionChecks => rows (db_sessionChecks s') = rows (db_sessionChecks s)
  end.

(** [rows_lost t s s']: table [t] has lost at least one row from [s] to [s']
    and gained none. *)
Definition rows_lost (t : TableId) (s s' : DB) : Prop :=
  match t with
  | TNodes => rows (db_nodes s') ⊂ rows (db_nodes s)
  | TServices => rows (db_services s') ⊂ rows (db_services s)
  | TChecks => rows (db_checks s') ⊂ rows (db_checks s)
  | TKVS => rows (db_kvs s') ⊂ rows (db_kvs s)
  | TSessions => rows (db_sessions s') ⊂ rows (db_sessions s)
  | TSessionChecks => rows (db_sessionChecks s') ⊂ rows (db_sessionChecks s)
  end.

(** The delete methods. *)
Inductive DeleteOp : Type :=
| OpDeleteNodeService (node id : string)
| OpDeleteNode (node : string)
| OpDeleteNodeCheck (node id : string)
| OpKVSDelete (key : string)
| OpKVSDeleteTree (prefix : string).

Definition runDelete (faults : list bool) (index : uint64) (op : DeleteOp) (s : DB)
  : Outcome (option error) :=
  match op with
  | OpDeleteNodeService node id => DeleteNodeService faults index node id s
  | OpDeleteNode node => DeleteNode faults index node s
  | OpDeleteNodeCheck node id => DeleteNodeCheck faults index node id s
  | OpKVSDelete key => KVSDelete faults index key s
  | OpKVSDeleteTree prefix => KVSDeleteTree faults index prefix s
  end.

(** The service rows registered under a service name, and those among them
    that carry a tag. *)
Definition services_named (service : string) (s : DB) : list ServiceNode :=
  (map_to_list (filter (λ kr, SN_ServiceName kr.2 = service)
                       (rows (db_services s)))).*2.

Definition services_tagged (service tag : string) (s : DB) : list ServiceNode :=
  (map_to_list (filter (λ kr, SN_ServiceName kr.2 = service ∧
                              tag ∈ SN_ServiceTags kr.2)
                       (rows (db_services s)))).*2.

(** The element of a [ServiceNodes] result for a service row: the row with
    the address of its node, or the zero value when the node has no row. *)
Definition joinNode (s : DB) (srv : ServiceNode) : ServiceNode :=
  match rows (db_nodes s) !! SN_Node srv with
  | Some n => SN_withAddress (Node_Address n) srv
  | None => zeroServiceNode
  end.

(** The checks a lookup through the "node" index of the checks table returns. *)
Definition checks_of (s : DB) (node serviceID : string) : HealthChecks :=
  match getIndex "node" (Indexes checkTable) with
  | Some ix => Some <$> tbl_get ix [node; serviceID] (db_checks s)
  | None => []
  end.

(** The element of a [CheckServiceNodes] result for a service row. *)
Definition joinCheckNode (s : DB) (srv : ServiceNode) : CheckServiceNode :=
  match rows (db_nodes s) !! SN_Node srv with
  | Some n => CSN_fill n srv (checks_of s (SN_Node srv) (SN_ServiceID srv) ++
                              checks_of s (SN_Node srv) "")%list
  | None => zeroCheckServiceNode
  end.

(** [occurs sep s]: the string [sep] occurs in [s]. *)
Definition occurs (sep s : string) : Prop := ∃ a rest, s = a +:+ sep +:+ rest.

(** [first_cut sep s a]: [a] is the part of [s] before the first occurrence
    of [sep]. *)
Definition first_cut (sep s a : string) : Prop :=
  (∃ rest, s = a +:+ sep +:+ rest) ∧
  ∀ a' rest', s = a' +:+ sep +:+ rest' → String.length a ≤ String.length a'.

(** What the listing shows for a stored key: with an empty seperator the key;
    with a seperator that does not occur after the prefix, the key; otherwise
    the key up to and including the first seperator after the prefix. *)
Definition collapsed (prefix seperator key shown : string) : Prop :=
  ∃ after, key = prefix +:+ after ∧
    ((seperator = "" ∧ shown = key) ∨
     (seperator ≠ "" ∧ ¬ occurs seperator after ∧ shown = key) ∨
     (seperator ≠ "" ∧ ∃ a, first_cut seperator after a ∧
                            shown = prefix +:+ a +:+ seperator)).

(** Every row of the kvs table is stored under its own key. *)
Definition kvs_wf (s : DB) : Prop :=
  map_Forall (λ key d, DE_Key d = key) (rows (db_kvs s)).

(** What a round of the drain has in hand for a key: the key cut after the
    first seperator behind the prefix ([toSep]) when there is one, the key
    otherwise. *)
Definition is_cut (prefix seperator key : string) : bool :=
  negb (String.length seperator =? 0) &&
  bool_decide (is_Some (strings_Index (str_from (String.length prefix) key) seperator)).

Definition shown_key (prefix seperator key : string) : string :=
  if String.length seperator =? 0 then key
  else match strings_Index (str_from (String.length prefix) key) seperator with
       | Some idx =>
           str_upto (String.length prefix + idx + String.length seperator) key
       | None => key
       end.

(** The state [(keys, last)] of the drain once the keys [seen] have gone
    through it: [keys] lists the shown keys of [seen] in ascending order,
    each once, and [last] is the largest cut among them (the empty string
    when no key was cut). *)
Definition drain_inv (prefix sep : string) (seen : list string)
    (acc : list string * string) : Prop :=
  StronglySorted str_lt acc.1 ∧
  (∀ x, x ∈ acc.1 ↔ ∃ k, k ∈ seen ∧ shown_key prefix sep k = x) ∧
  ((acc.2 = "" ∧ ∀ k, k ∈ seen → is_cut prefix sep k = false) ∨
   (∃ k0, k0 ∈ seen ∧ is_cut prefix sep k0 = true ∧
          acc.2 = shown_key prefix sep k0 ∧
          ∀ k, k ∈ seen → is_cut prefix sep k = true →
               String.le (shown_key prefix sep k) acc.2)).

(** The keys of the listing example of the specification. *)
Definition example_kvs_store : DB :=
  foldl (λ s key, store_of s (KVSSet noFaults 7 (mkDirEntry 0 0 key 0 []) s))
        emptyDB ["foo/b/d"; "foo/a"; "foo/a/c"; "foo/b"; "foo/a/b"].

(** A store in which the key "c" was created by a check-and-set at index 20. *)
Definition example_cas_store : DB :=
  store_of emptyDB (KVSCheckAndSet noFaults 20 (mkDirEntry 0 0 "c" 0 []) emptyDB).

(** A services table with a row for node "n1", and no row for that node. *)
Definition example_orphan_service : ServiceNode :=
  mkServiceNode "n1" "" "web" "web" ["a"] 80.
Definition example_orphan_store : DB :=
  tset serviceTable
    (tbl_insert ("n1", "web") example_orphan_service (db_services emptyDB)) emptyDB.

(** ** More records of package structs *)

(** Modelled from the spec: [structs.NodeServices], a node with its services
    under their IDs ([map[string]*NodeService]). *)
Record structs_NodeServices := mkNodeServices {
  NSS_Node : Node; NSS_Services : gmap string NodeService }.

(** Modelled from the spec: [structs.NodeInfo], an element of a
    [structs.NodeDump]. *)
Record structs_NodeInfo := mkNodeInfo {
  NI_Node : string; NI_Address : string;
  NI_Services : list NodeService; NI_Checks : HealthChecks }.

(** The [structs.NodeService] the read methods build from a services row. *)
Definition SN_toNodeService (service : ServiceNode) : NodeService :=
  mkNodeService (SN_ServiceID service) (SN_ServiceName service)
                (SN_ServiceTags service) (SN_ServicePort service).

Local Open Scope tx_scope.

(** ** More read methods of [StateStore] *)

(** Modelled from the spec: [MDBTable.Get] opens a read transaction of its
    own, reads the watermark of the table and looks the rows up; a failure
    yields the zero values and the error. *)
Definition Get {K} `{Countable K} `{!KeyOrder K} {R} (faults : list bool)
    (t : MDBTable K R) (index : string) (parts : list string) (s : DB)
  : uint64 * list R * option error :=
  let failed (err : error) := (0%N, @nil R, Some err) in
  match StartTxn faults s with
  | inl err => failed err
  | inr tx =>
    let '(r, _) := (
      idx <- orReturn failed (LastIndexTxn t) ;;
      res <- orReturn failed (GetTxn t index parts) ;;
      ret (idx, res, None)) tx in
    match r with inl v => v | inr v => v end
  end.

(** [GetNode] returns [(uint64, bool, string)]. *)
Definition GetNode (faults : list bool) (name : string) (s : DB)
  : uint64 * bool * string :=
  let '(idx, res, err) := Get faults nodeTable "id" [name] s in
  match err with
  | Some _ => (0%N, false, "")
  | None =>
      match res with
      | [] => (idx, false, "")
      | n :: _ => (idx, true, Node_Address n)
      end
  end.

(** [Nodes]: an error of the lookup is logged only. *)
Definition Nodes (faults : list bool) (s : DB) : uint64 * list Node :=
  let '(idx, res, _) := Get faults nodeTable "id" [] s in
  (idx, res).

(** [parseNodeServices]: [None] is the nil [*structs.NodeServices]; a failed
    [LastIndexTxn] panics, a failed lookup is logged and its result is
    empty. *)
Definition parseNodeServices (tables : list TableHandle) (name : string)
  : Tx () (uint64 * option structs_NodeServices) :=
  index <- orPanic (LastIndexTxnAll tables) ;;
  res <- capture [] (GetTxn nodeTable "id" [name]) ;;
  match res.1 with
  | [] => ret (index, None)
  | node :: _ =>
      res <- capture [] (GetTxn serviceTable "id" [name]) ;;
      let services :=
        foldl (λ m service, <[SN_ServiceID service := SN_toNodeService service]> m)
              (∅ : gmap string NodeService) res.1 in
      ret (index, Some (mkNodeServices node services))
  end.

Definition NodeServices (faults : list bool) (name : string) (s : DB)
  : option (uint64 * option structs_NodeServices) :=
  let tables := queryTables "NodeServices" in
  match StartTxn faults s with
  | inl _ => None
  | inr tx => runQuery tx (parseNodeServices tables name)
  end.

(** The inner loop of [Services]: the tags of one row are appended to the
    tags collected for the name, each once, and the map entry is updated at
    every append. *)
Definition Services_tags (name : string) (srvTags : list string)
    (tags : list string) (services : gmap string (list string))
  : list string * gmap string (list string) :=
  foldl (λ acc tag,
           if negb (strContains acc.1 tag)
           then ((acc.1 ++ [tag])%list, <[name := (acc.1 ++ [tag])%list]> acc.2)
           else acc)
        (tags, services) srvTags.

(** One round of the loop of [Services] over the rows.  A lookup of a name
    the map does not hold yields the nil slice, and the name is entered with
    an empty slice. *)
Definition Services_row (services : gmap string (list string)) (srv : ServiceNode)
  : gmap string (list string) :=
  let name := SN_ServiceName srv in
  let tags := default [] (services !! name) in
  let services := match services !! name with
                  | Some _ => services
                  | None => <[name := []]> services
                  end in
  (Services_tags name (SN_ServiceTags srv) tags services).2.

(** [Services] returns the index and a [map[string][]string]. *)
Definition Services (faults : list bool) (s : DB)
  : uint64 * gmap string (list string) :=
  let '(idx, res, err) := Get faults serviceTable "id" [] s in
  match err with
  | Some _ => (idx, ∅)
  | None => (idx, foldl Services_row ∅ res)
  end.

Definition NodeChecks (faults : list bool) (node : string) (s : DB)
  : uint64 * HealthChecks :=
  let '(idx, res, err) := Get faults checkTable "id" [node] s in
  parseHealthChecks idx res err.

Definition ServiceChecks (faults : list bool) (service : string) (s : DB)
  : uint64 * HealthChecks :=
  let '(idx, res, err) := Get faults checkTable "service" [service] s in
  parseHealthChecks idx res err.

Definition ChecksInState (faults : list bool) (state : string) (s : DB)
  : uint64 * HealthChecks :=
  let '(idx, res, err) := Get faults checkTable "status" [state] s in
  parseHealthChecks idx res err.

(** The loop of [parseNodeInfo].  A failed lookup of the services or of the
    checks of a node is logged, and the node is entered without them. *)
Fixpoint parseNodeInfo_loop {E} (res : list Node) (dump : list structs_NodeInfo)
  : Tx E (list structs_NodeInfo) :=
  match res with
  | [] => ret dump
  | node :: res' =>
      r <- capture [] (GetTxn serviceTable "id" [Node_Node node]) ;;
      let services := SN_toNodeService <$> r.1 in
      r <- capture [] (GetTxn checkTable "node" [Node_Node node]) ;;
      let checks := Some <$> r.1 in
      let info := mkNodeInfo (Node_Node node) (Node_Address node) services checks in
      parseNodeInfo_loop res' (dump ++ [info])%list
  end.

Definition parseNodeInfo {E} (res : list Node) (err : option error)
  : Tx E (list structs_NodeInfo) :=
  match err with
  | Some _ => ret []
  | None => parseNodeInfo_loop res []
  end.

Definition NodeInfo (faults : list bool) (node : string) (s : DB)
  : option (uint64 * list structs_NodeInfo) :=
  let tables := queryTables "NodeInfo" in
  match StartTxn faults s with
  | inl _ => None
  | inr tx => runQuery tx (
      idx <- orPanic (LastIndexTxnAll tables) ;;
      res <- capture [] (GetTxn nodeTable "id" [node]) ;;
      dump <- parseNodeInfo res.1 res.2 ;;
      ret (idx, dump))
  end.

Definition NodeDump (faults : list bool) (s : DB)
  : option (uint64 * list structs_NodeInfo) :=
  let tables := queryTables "NodeDump" in
  match StartTxn faults s with
  | inl _ => None
  | inr tx => runQuery tx (
      idx <- orPanic (LastIndexTxnAll tables) ;;
      res <- capture [] (GetTxn nodeTable "id" []) ;;
      dump <- parseNodeInfo res.1 res.2 ;;
      ret (idx, dump))
  end.

(** [KVSList] returns [(uint64, structs.DirEntries, error)]; every element of
    the slice is set. *)
Definition KVSList (faults : list bool) (prefix : string) (s : DB)
  : uint64 * list DirEntry * option error :=
  let '(idx, res, err) := Get faults kvsTable "id_prefix" [prefix] s in
  (idx, res, err).

Local Close Scope tx_scope.

(** ** The write methods as one family *)

(** A call of a write method with its arguments.  [OpSessionCreate] carries
    the fuel of the uniqueness loop and the value of [generateUUID()]. *)
Inductive WriteOp : Type :=
| OpEnsureNode (index : uint64) (node : Node)
| OpEnsureService (index : uint64) (node : string) (ns : NodeService)
| OpEnsureCheck (index : uint64) (check : HealthCheck)
| OpDelete (index : uint64) (op : DeleteOp)
| OpKVSSet (index : uint64) (d : DirEntry)
| OpKVSRestore (d : DirEntry)
| OpKVSCheckAndSet (index : uint64) (d : DirEntry)
| OpSessionCreate (fuel : nat) (uuid : string) (index : uint64) (session : Session)
| OpSessionRestore (session : Session).

(** The error, the committed store and the notifications of a call; [None]
    when [SessionCreate] is still looping.  The boolean of [KVSCheckAndSet]
    is dropped. *)
Definition runWrite (faults : list bool) (op : WriteOp) (s : DB)
  : option (Outcome (option error)) :=
  match op with
  | OpEnsureNode index node => Some (EnsureNode faults index node s)
  | OpEnsureService index node ns => Some (EnsureService faults index node ns s)
  | OpEnsureCheck index check => Some (EnsureCheck faults index check s)
  | OpDelete index op => Some (runDelete faults index op s)
  | OpKVSSet index d => Some (KVSSet faults index d s)
  | OpKVSRestore d => Some (KVSRestore faults d s)
  | OpKVSCheckAndSet index d =>
      Some (match KVSCheckAndSet faults index d s with
            | Returned (_, err) s' n => Returned err s' n
            | Panicked => Panicked
            end)
  | OpSessionCreate fuel uuid index session =>
      SessionCreate fuel uuid faults index session s
  | OpSessionRestore session => Some (SessionRestore faults session s)
  end.

(** A step of a method body under a fault schedule: it does not commit, and
    it either does what it does without faults (consuming some flags) or
    leaves the method early. *)
Definition sim_step {E A} (m : Tx E A) : Prop :=
  ∀ db fs dn, ∃ r0 db0 dn0,
    m (mkTx db [] dn false) = (r0, mkTx db0 [] dn0 false) ∧
    ((∃ fs', m (mkTx db fs dn false) = (r0, mkTx db0 fs' dn0 false)) ∨
     (∃ e st, m (mkTx db fs dn false) = (inl e, st) ∧ txCommitted st = false)).

(** The rest of a method body under a fault schedule: it ends as it does
    without faults, or without having committed. *)
Definition sim_rest {E A} (m : Tx E A) : Prop :=
  ∀ db fs dn,
    let '(r0, st0) := m (mkTx db [] dn false) in
    let '(r, st) := m (mkTx db fs dn false) in
    (r = r0 ∧ txDB st = txDB st0 ∧ txDeferred st = txDeferred st0 ∧
     txCommitted st = txCommitted st0) ∨
    txCommitted st = false.

(** A method body commits last: when the transaction is committed at its
    end, the body ran through, with a value that says so. *)
Definition commit_last {E A} (ok : A → Prop) (m : Tx E A) : Prop :=
  ∀ db fs dn,
    let '(r, st) := m (mkTx db fs dn false) in
    txCommitted st = true → ∃ a, r = inr a ∧ ok a.

(** ** The stores the write methods commit *)

(** The index a table of the schema declares under a name (an index that
    matches every row stands in for a name the table does not declare; the
    methods use declared names only). *)
Definition schema_index {K} `{Countable K} {R} (t : MDBTable K R) (name : string)
  : MDBIndex K R :=
  default {| Unique := false; AllowBlank := false; Virtual := false; RealIndex := "";
             Fields := []; IdxFunc := DefaultIndexFunc; idxKey := λ _ _, [] |}
          (getIndex name (Indexes t)).

(** A table after [DeleteTxn] and the conditional [SetLastIndexTxn] that
    follows it in every delete method. *)
Definition tbl_deleted {K} `{Countable K} `{!KeyOrder K} {R} (index : uint64)
    (ix : MDBIndex K R) (parts : list string) (t : TableState K R) : TableState K R :=
  let '(n, t') := tbl_delete ix parts t in
  if (0 <? n)%nat then tbl_setLastIndex index t' else t'.

(** The store a delete method commits. *)
Definition delete_store (index : uint64) (op : DeleteOp) (s : DB) : DB :=
  match op with
  | OpDeleteNodeService node id =>
      let s := tset serviceTable
                 (tbl_deleted index (schema_index serviceTable "id") [node; id]
                              (db_services s)) s in
      tset checkTable
        (tbl_deleted index (schema_index checkTable "node") [node; id] (db_checks s)) s
  | OpDeleteNode node =>
      let s := tset serviceTable
                 (tbl_deleted index (schema_index serviceTable "id") [node]
                              (db_services s)) s in
      let s := tset checkTable
                 (tbl_deleted index (schema_index checkTable "id") [node]
                              (db_checks s)) s in
      tset nodeTable
        (tbl_deleted index (schema_index nodeTable "id") [node] (db_nodes s)) s
  | OpDeleteNodeCheck node id =>
      tset checkTable
        (tbl_deleted index (schema_index checkTable "id") [node; id] (db_checks s)) s
  | OpKVSDelete key =>
      tset kvsTable
        (tbl_deleted index (schema_index kvsTable "id") [key] (db_kvs s)) s
  | OpKVSDeleteTree prefix =>
      if String.eqb prefix ""
      then tset kvsTable
             (tbl_deleted index (schema_index kvsTable "id") [] (db_kvs s)) s
      else tset kvsTable
             (tbl_deleted index (schema_index kvsTable "id_prefix") [prefix]
                          (db_kvs s)) s
  end.

(** The store a successful [EnsureNode] commits. *)
Definition node_stored (index : uint64) (node : Node) (s : DB) : DB :=
  tset nodeTable
    (tbl_setLastIndex index (tbl_insert (Node_Node node) node (db_nodes s))) s.

(** The row [EnsureService] builds, and the store it commits. *)
Definition service_row (node : string) (ns : NodeService) : ServiceNode :=
  mkServiceNode node "" (NS_ID ns) (NS_Service ns) (NS_Tags ns) (NS_Port ns).

Definition service_stored (index : uint64) (node : string) (ns : NodeService)
    (s : DB) : DB :=
  tset serviceTable
    (tbl_setLastIndex index
       (tbl_insert (node, NS_ID ns) (service_row node ns) (db_services s))) s.

(** The store a write method commits when it commits: [write_effect op s s']
    says that [s'] is that store for the call [op] on [s]. *)
Definition write_effect (op : WriteOp) (s s' : DB) : Prop :=
  match op with
  | OpEnsureNode index node => s' = node_stored index node s
  | OpEnsureService index node ns =>
      is_Some (rows (db_nodes s) !! node) ∧ s' = service_stored index node ns s
  | OpEnsureCheck index check =>
      ∃ c, HC_Node c = HC_Node check ∧ HC_CheckID c = HC_CheckID check ∧
           HC_ServiceID c = HC_ServiceID check ∧
           is_Some (rows (db_nodes s) !! HC_Node c) ∧
           (HC_ServiceID c ≠ "" →
            is_Some (rows (db_services s) !! (HC_Node c, HC_ServiceID c))) ∧
           s' = check_stored index c s
  | OpDelete index op => s' = delete_store index op s
  | OpKVSSet index d | OpKVSCheckAndSet index d => s' = kvs_written index d s
  | OpKVSRestore d => s' = tset kvsTable (tbl_insert (DE_Key d) d (db_kvs s)) s
  | OpSessionCreate _ uuid index session =>
      session_accepted s session ∧ s' = session_stored uuid index session s
  | OpSessionRestore session => s' = session_restored session s
  end.

(** The value a write method sets a watermark to: the index of the call; for
    [SessionRestore] the larger of the watermark and the CreateIndex of the
    session; [KVSRestore] sets none. *)
Definition op_mark (op : WriteOp) (w : uint64) : uint64 :=
  match op with
  | OpEnsureNode index _ | OpEnsureService index _ _ | OpEnsureCheck index _
  | OpDelete index _ | OpKVSSet index _ | OpKVSCheckAndSet index _
  | OpSessionCreate _ _ index _ => index
  | OpKVSRestore _ => w
  | OpSessionRestore session => N.max w (S_CreateIndex session)
  end.

(** Every row is stored under its primary key. *)
Definition store_wf (s : DB) : Prop :=
  map_Forall (λ k n, Node_Node n = k) (rows (db_nodes s)) ∧
  map_Forall (λ k srv, (SN_Node srv, SN_ServiceID srv) = k) (rows (db_services s)) ∧
  map_Forall (λ k c, (HC_Node c, HC_CheckID c) = k) (rows (db_checks s)) ∧
  kvs_wf s ∧
  map_Forall (λ k x, S_ID x = k) (rows (db_sessions s)) ∧
  map_Forall (λ k m, (SC_Node m, SC_CheckID m, SC_Session m) = k)
             (rows (db_sessionChecks s)).

(** The catalog is closed under its references: every service is on a
    registered node, every check is on a registered node, and a check that
    names a service names one registered on its node. *)
Definition catalog_ok (s : DB) : Prop :=
  map_Forall (λ k (_ : ServiceNode), is_Some (rows (db_nodes s) !! k.1))
             (rows (db_services s)) ∧
  map_Forall (λ k c, is_Some (rows (db_nodes s) !! k.1) ∧
                     (HC_ServiceID c ≠ "" →
                      is_Some (rows (db_services s) !! (k.1, HC_ServiceID c))))
             (rows (db_checks s)).

(** The stores the write methods lead to from the store of [NewStateStore],
    whatever the table layer does. *)
Inductive reachable : DB → Prop :=
| reachable_empty : reachable emptyDB
| reachable_write s faults op o :
    reachable s → runWrite faults op s = Some o → reachable (store_of s o).

(** The entry of a node in a [structs.NodeDump]: the node with the services
    stored under it and the checks whose Node it is. *)
Definition node_info (s : DB) (n : Node) : structs_NodeInfo :=
  mkNodeInfo (Node_Node n) (Node_Address n)
    (SN_toNodeService <$>
       tbl_get (schema_index serviceTable "id") [Node_Node n] (db_services s))
    (Some <$> tbl_get (schema_index checkTable "node") [Node_Node n] (db_checks s)).

(** The checks of the checks table that satisfy [P], each once. *)
Definition checks_where (P : string * string * HealthCheck → Prop)
    `{!∀ kr, Decision (P kr)} (s : DB) : list HealthCheck :=
  (map_to_list (filter P (rows (db_checks s)))).*2.

(** What the map of [Services] holds once the rows [seen] have gone through
    the loop: a name is a key when a row has it, and its tags are the tags of
    the rows of that name, each once. *)
Definition services_inv (seen : list ServiceNode) (m : gmap string (list string))
  : Prop :=
  ∀ name,
    match m !! name with
    | None => ∀ srv, srv ∈ seen → SN_ServiceName srv ≠ name
    | Some tags =>
        NoDup tags ∧
        (∃ srv, srv ∈ seen ∧ SN_ServiceName srv = name) ∧
        ∀ tag, tag ∈ tags ↔
               ∃ srv, srv ∈ seen ∧ SN_ServiceName srv = name ∧
                      tag ∈ SN_ServiceTags srv
    end.

(** ** Snapshots *)

(** [s.tables]: the six tables of the store. *)
Definition storeTables : list TableHandle :=
  [handle nodeTable; handle serviceTable; handle checkTable;
   handle kvsTable; handle sessionTable; handle sessionCheckTable].

(** A [StateSnapshot]: the tables as the read-only transaction of the
    snapshot sees them, and the index taken when it was opened. *)
Record StateSnapshot := mkStateSnapshot { snap_db : DB; snap_lastIndex : uint64 }.

Local Open Scope tx_scope.

(** [Snapshot] returns the snapshot (nil on failure) and the error. *)
Definition Snapshot (faults : list bool) (s : DB)
  : option StateSnapshot * option error :=
  match StartTxn faults s with
  | inl err => (None, Some err)
  | inr tx =>
      match LastIndexTxnAll storeTables tx with
      | (inl err, _) => (None, Some err)
      | (inr index, tx') => (Some (mkStateSnapshot (txDB tx') index), None)
      end
  end.

(** The transaction of a snapshot, for a call with its own fault oracle. *)
Definition snapshotTx (faults : list bool) (snap : StateSnapshot) : TxState :=
  mkTx (snap_db snap) faults [] false.

Definition Snapshot_LastIndex (snap : StateSnapshot) : uint64 := snap_lastIndex snap.

(** [StateSnapshot.Nodes]: nil when the lookup fails. *)
Definition Snapshot_Nodes (faults : list bool) (snap : StateSnapshot) : list Node :=
  match (GetTxn nodeTable "id" [] (snapshotTx faults snap)).1 with
  | inl _ => []
  | inr res => res
  end.

(** [StateSnapshot.NodeServices]: [None] is a panic of [parseNodeServices]. *)
Definition Snapshot_NodeServices (faults : list bool) (snap : StateSnapshot)
    (name : string) : option (option structs_NodeServices) :=
  snd <$> runQuery (snapshotTx faults snap) (parseNodeServices storeTables name).

Definition Snapshot_NodeChecks (faults : list bool) (snap : StateSnapshot)
    (node : string) : HealthChecks :=
  let r := (capture (E:=()) [] (GetTxn checkTable "id" [node])
              (snapshotTx faults snap)).1 in
  match r with
  | inl _ => []
  | inr res => (parseHealthChecks (snap_lastIndex snap) res.1 res.2).2
  end.

(** [StateSnapshot.KVSDump]: the entries sent down the stream, and the
    error. *)
Definition KVSDump (faults : list bool) (snap : StateSnapshot)
  : list DirEntry * option error :=
  match (StreamTxn kvsTable "id" [] (snapshotTx faults snap)).1 with
  | inl err => ([], Some err)
  | inr res => (res, None)
  end.

Local Close Scope tx_scope.

(** ** Queries and the tables they read *)

(** Two stores hold the same table [t]: rows and watermark. *)
Definition table_same (t : TableId) (s s' : DB) : Prop :=
  match t with
  | TNodes => db_nodes s = db_nodes s'
  | TServices => db_services s = db_services s'
  | TChecks => db_checks s = db_checks s'
  | TKVS => db_kvs s = db_kvs s'
  | TSessions => db_sessions s = db_sessions s'
  | TSessionChecks => db_sessionChecks s = db_sessionChecks s'
  end.

(** Two stores agree on the tables of the group [QueryTables(q)]. *)
Definition query_agree (q : string) (s s' : DB) : Prop :=
  ∀ t, table_name t ∈ hName <$> queryTables q → table_same t s s'.

(** A piece of a method body reads only what the relation [R] preserves:
    run on two stores that [R] relates, under the same fault schedule, it
    yields the same value, and leaves stores that [R] relates. *)
Definition reads_only (R : DB → DB → Prop) {E A} (m : Tx E A) : Prop :=
  ∀ st st', R (txDB st) (txDB st') → txFaults st = txFaults st' →
    (m st).1 = (m st').1 ∧
    R (txDB (m st).2) (txDB (m st').2) ∧
    txFaults (m st).2 = txFaults (m st').2.

(** The tables a write method inserts into or deletes from. *)
Definition op_tables (op : WriteOp) : list TableId :=
  match op with
  | OpEnsureNode _ _ => [TNodes]
  | OpEnsureService _ _ _ => [TServices]
  | OpEnsureCheck _ _ => [TChecks]
  | OpDelete _ (OpDeleteNodeService _ _) => [TServices; TChecks]
  | OpDelete _ (OpDeleteNode _) => [TNodes; TServices; TChecks]
  | OpDelete _ (OpDeleteNodeCheck _ _) => [TChecks]
  | OpDelete _ (OpKVSDelete _) | OpDelete _ (OpKVSDeleteTree _) => [TKVS]
  | OpKVSSet _ _ | OpKVSRestore _ | OpKVSCheckAndSet _ _ => [TKVS]
  | OpSessionCreate _ _ _ _ | OpSessionRestore _ => [TSessions; TSessionChecks]
  end.

Arguments tbl_get : simpl never.
Arguments tbl_delete : simpl never.
Arguments tbl_insert : simpl never.
Arguments tbl_setLastIndex : simpl never.
Arguments tbl_setMaxLastIndex : simpl never.

(** * Properties *)

(** ** The table layer *)

Section table_facts.
Context {K : Type} `{Countable K} `{!KeyOrder K} {R : Type}.
Implicit Types (m : gmap K R) (t : TableState K R) (ix : MDBIndex K R).

#[local] Instance row_le_trans : Transitive (@row_le K _ R).
Proof. intros x y z. unfold row_le. apply transitivity. Qed.

#[local] Instance row_le_total : Total (@row_le K _ R).
Proof. intros x y. unfold row_le. apply total, _. Qed.

Lemma scan_perm m : scan m ≡ₚ map_to_list m.
Proof. apply merge_sort_Permutation. Qed.

Lemma elem_of_scan m k r : (k, r) ∈ scan m ↔ m !! k = Some r.
Proof. rewrite scan_perm. apply elem_of_map_to_list. Qed.

Lemma NoDup_scan_keys m : NoDup (scan m).*1.
Proof.
  rewrite scan_perm. apply NoDup_fst_map_to_list.
Qed.

Lemma scan_sorted m : StronglySorted row_le (scan m).
Proof. apply StronglySorted_merge_sort; apply _. Qed.

(** A lookup returns as many rows as the table holds matching ones. *)
Lemma tbl_get_length ix parts t :
  length (tbl_get ix parts t) =
  size (filter (λ kr, matches ix parts kr = true) (rows t)).
Proof.
  unfold tbl_get. rewrite length_fmap, map_filter_alt, map_size_list_to_map.
  - apply Permutation_length. by rewrite scan_perm.
  - apply (sublist_NoDup _ (map_to_list (rows t)).*1).
    + apply NoDup_fst_map_to_list.
    + apply fmap_sublist, sublist_filter.
Qed.

Lemma filter_key_NoDup (l : list (K * R)) (k : K) :
  NoDup l.*1 →
  filter (λ kr, kr.1 = k) l = [] ∨ ∃ r, filter (λ kr, kr.1 = k) l = [(k, r)].
Proof.
  induction l as [|[k' r] l IH]; intros Hnd; [by left|].
  apply NoDup_cons in Hnd as [Hnotin Hnd].
  rewrite filter_cons. simpl. destruct (decide (k' = k)) as [->|Hne]; [|auto].
  right. exists r. f_equal.
  destruct (filter (λ kr, kr.1 = k) l) as [|[k2 r2] l'] eqn:E; [done|].
  assert (Hin : (k2, r2) ∈ filter (λ kr, kr.1 = k) l) by (rewrite E; left).
  apply list_elem_of_filter in Hin as [Hk Hin]. simpl in Hk. subst k2.
  destruct Hnotin. apply list_elem_of_fmap. by exists (k, r2).
Qed.

Lemma scan_point m k :
  filter (λ kr, kr.1 = k) (scan m) = option_list (pair k <$> m !! k).
Proof.
  destruct (filter_key_NoDup (scan m) k (NoDup_scan_keys m)) as [E|[r E]].
  - rewrite E. destruct (m !! k) as [r|] eqn:Hk; [|done].
    apply elem_of_scan in Hk.
    assert ((k, r) ∈ filter (λ kr, kr.1 = k) (scan m)) as Hin
      by by apply list_elem_of_filter.
    rewrite E in Hin. by apply elem_of_nil in Hin.
  - rewrite E.
    assert ((k, r) ∈ filter (λ kr, kr.1 = k) (scan m)) as Hin by (rewrite E; left).
    apply list_elem_of_filter in Hin as [_ Hin]. apply elem_of_scan in Hin.
    by rewrite Hin.
Qed.

(** A lookup with every part of a unique index is a point lookup. *)
Lemma tbl_get_point ix parts k t :
  (∀ kr, matches ix parts kr = true ↔ kr.1 = k) →
  tbl_get ix parts t = option_list (rows t !! k).
Proof.
  intros Hm. unfold tbl_get.
  rewrite (list_filter_iff _ (λ kr, kr.1 = k)) by done.
  rewrite scan_point. by destruct (rows t !! k).
Qed.

Lemma tbl_delete_point ix parts k t :
  (∀ kr, matches ix parts kr = true ↔ kr.1 = k) →
  tbl_delete ix parts t =
  (length (option_list (rows t !! k)), mkTableState (delete k (rows t)) (lastIndex t)).
Proof.
  intros Hm. unfold tbl_delete. rewrite (tbl_get_point _ _ k) by done.
  f_equal. f_equal. apply map_eq. intros i.
  destruct (decide (i = k)) as [->|Hne].
  - rewrite lookup_delete_eq. apply map_lookup_filter_None. right.
    intros r _ Hn. apply Hn, Hm. done.
  - rewrite lookup_delete_ne by done.
    destruct (rows t !! i) as [r|] eqn:Hi.
    + apply map_lookup_filter_Some. split; [done|]. rewrite Hm. simpl. done.
    + apply map_lookup_filter_None. by left.
Qed.

(** A delete keeps the watermark, removes rows only, and reports 0 exactly
    when it removed none. *)
Lemma tbl_delete_lastIndex ix parts t :
  lastIndex (tbl_delete ix parts t).2 = lastIndex t.
Proof. done. Qed.

Lemma tbl_delete_subseteq ix parts t :
  rows (tbl_delete ix parts t).2 ⊆ rows t.
Proof. apply map_filter_subseteq. Qed.

Lemma tbl_delete_zero ix parts t :
  (tbl_delete ix parts t).1 = 0 ↔ rows (tbl_delete ix parts t).2 = rows t.
Proof.
  simpl. rewrite tbl_get_length, map_size_empty_iff. split.
  - intros He. apply map_filter_id. intros i x Hix Hmatch.
    assert (filter (λ kr, matches ix parts kr = true) (rows t) !! i = Some x) as Hl
      by by apply map_lookup_filter_Some.
    by rewrite He in Hl.
  - intros He. apply map_empty. intros i. apply map_lookup_filter_None.
    destruct (rows t !! i) as [x|] eqn:Hix; [right|by left].
    intros x' [= <-] Hmatch. rewrite <- He in Hix.
    apply map_lookup_filter_Some in Hix as [_ Hn]. done.
Qed.

End table_facts.

(** ** Index lookups of the schema *)

Lemma matches_key1 {R} (ix : MDBIndex string R) (a : string) (kr : string * R) :
  IdxFunc ix = DefaultIndexFunc → idxKey ix = (λ k _, [k]) →
  matches ix [a] kr = true ↔ kr.1 = a.
Proof.
  intros Hf Hk. unfold matches. rewrite Hf, Hk, bool_decide_eq_true.
  split.
  - intros [l Hl]. simpl in Hl. by injection Hl.
  - intros ->. done.
Qed.

Lemma matches_key2 {R} (ix : MDBIndex (string * string) R) (a b : string)
    (kr : string * string * R) :
  IdxFunc ix = DefaultIndexFunc → idxKey ix = (λ k _, [k.1; k.2]) →
  matches ix [a; b] kr = true ↔ kr.1 = (a, b).
Proof.
  intros Hf Hk. unfold matches. rewrite Hf, Hk, bool_decide_eq_true.
  destruct kr as [[k1 k2] r]. simpl. split.
  - intros [l Hl]. simpl in Hl. by injection Hl as -> ->.
  - intros [= -> ->]. done.
Qed.

Lemma kvs_get_id key (t : TableState string DirEntry) ix :
  getIndex "id" (Indexes kvsTable) = Some ix →
  tbl_get ix [key] t = option_list (rows t !! key).
Proof.
  intros [= <-]. apply tbl_get_point. intros kr. by apply matches_key1.
Qed.

(** ** KV writes *)

Lemma kvs_entry_written index d s key :
  kvs_entry (kvs_written index d s) key =
  if decide (DE_Key d = key)
  then Some (DE_withIndexes (match kvs_entry s key with
                             | Some e => DE_CreateIndex e
                             | None => index
                             end) index d)
  else kvs_entry s key.
Proof.
  unfold kvs_written, kvs_entry. simpl. unfold tbl_insert. simpl.
  rewrite lookup_insert. destruct (decide (DE_Key d = key)) as [->|]; done.
Qed.

Lemma KVSSet_noFaults index d s :
  KVSSet noFaults index d s = Returned None (kvs_written index d s) [dbKVS].
Proof.
  unfold KVSSet, noFaults, StartTxn, runTxn, bind, GetTxn, engineOp, kvs_written.
  simpl. rewrite (kvs_get_id _ _ _ eq_refl). fold (kvs_entry s (DE_Key d)).
  destruct (kvs_entry s (DE_Key d)) as [e|]; reflexivity.
Qed.

Lemma KVSSet_faults faults index d s :
  KVSSet faults index d s = KVSSet noFaults index d s ∨
  (true ∈ faults ∧ ∃ err n, KVSSet faults index d s = Returned (Some err) s n).
Proof.
  unfold KVSSet, noFaults, StartTxn, runTxn, bind, GetTxn, engineOp.
  destruct faults as [|[] faults]; simpl; [by left|right|].
  { split; [left|]. eauto. }
  destruct faults as [|[] faults]; simpl; [left; reflexivity|right|].
  { split; [repeat constructor|]. eauto. }
  rewrite (kvs_get_id _ _ _ eq_refl).
  destruct (rows (db_kvs s) !! DE_Key d) as [e|]; simpl.
  all: destruct faults as [|[] faults]; simpl; [left; reflexivity|right|].
  all: try (split; [repeat constructor|]; eexists _, _; reflexivity).
  all: destruct faults as [|[] faults]; simpl; [left; reflexivity|right|].
  all: try (split; [repeat constructor|]; eexists _, _; reflexivity).
  all: destruct faults as [|[] faults]; simpl; [left; reflexivity|right|].
  all: try (split; [repeat constructor|]; eexists _, _; reflexivity).
  all: left; reflexivity.
Qed.

Lemma KVSCheckAndSet_noFaults index d s :
  KVSCheckAndSet noFaults index d s =
  let existing := kvs_entry s (DE_Key d) in
  if (DE_ModifyIndex d =? 0)%N && bool_decide (is_Some existing) then
    Returned (false, None) s []
  else if (0 <? DE_ModifyIndex d)%N &&
          match existing with
          | None => true
          | Some e => negb (DE_ModifyIndex e =? DE_ModifyIndex d)%N
          end then
    Returned (false, None) s []
  else Returned (true, None) (kvs_written index d s) [dbKVS].
Proof.
  unfold KVSCheckAndSet, noFaults, StartTxn, runTxn, bind, orReturn, GetTxn, engineOp.
  unfold kvs_written.
  simpl. rewrite (kvs_get_id _ _ _ eq_refl). fold (kvs_entry s (DE_Key d)).
  destruct (kvs_entry s (DE_Key d)) as [e|] eqn:He; simpl.
  - destruct (DE_ModifyIndex d =? 0)%N; simpl; [done|].
    destruct (0 <? DE_ModifyIndex d)%N; simpl; [|done].
    destruct (DE_ModifyIndex e =? DE_ModifyIndex d)%N; simpl; done.
  - rewrite andb_false_r, andb_true_r.
    destruct (0 <? DE_ModifyIndex d)%N; simpl; done.
Qed.

(** The two tests of the source, read as the condition of the claim. *)
Lemma cas_condition_tests s d :
  cas_condition s d ↔
  ((DE_ModifyIndex d =? 0)%N && bool_decide (is_Some (kvs_entry s (DE_Key d))) = false ∧
   (0 <? DE_ModifyIndex d)%N &&
     match kvs_entry s (DE_Key d) with
     | None => true
     | Some e => negb (DE_ModifyIndex e =? DE_ModifyIndex d)%N
     end = false).
Proof.
  unfold cas_condition.
  destruct (kvs_entry s (DE_Key d)) as [e|]; simpl.
  - rewrite andb_true_r.
    destruct (N.eqb_spec (DE_ModifyIndex d) 0) as [E0|E0];
    destruct (N.ltb_spec 0 (DE_ModifyIndex d)) as [E1|E1]; simpl;
    destruct (N.eqb_spec (DE_ModifyIndex e) (DE_ModifyIndex d)) as [E2|E2]; simpl;
      split; try (intros [[? ?]|[? (e' & [= <-] & ?)]]); try (intros [? ?]);
      try done; try lia.
    right. eauto.
  - rewrite andb_false_r, andb_true_r.
    destruct (N.ltb_spec 0 (DE_ModifyIndex d)) as [E1|E1]; simpl;
      split; try (intros [[? ?]|[? (e' & ? & ?)]]); try (intros [? ?]);
      try done; try lia.
    left. split; [lia|done].
Qed.

Lemma cas_condition_cases s d : cas_condition s d ∨ ¬ cas_condition s d.
Proof.
  rewrite cas_condition_tests.
  destruct (_ && _); [right; by intros []|].
  destruct (_ && _); [right; by intros []|]. by left.
Qed.

Lemma KVSCheckAndSet_noFaults_ok index d s :
  cas_condition s d →
  KVSCheckAndSet noFaults index d s = Returned (true, None) (kvs_written index d s) [dbKVS].
Proof.
  rewrite cas_condition_tests, KVSCheckAndSet_noFaults. simpl. by intros [-> ->].
Qed.

Lemma KVSCheckAndSet_noFaults_fail index d s :
  ¬ cas_condition s d →
  KVSCheckAndSet noFaults index d s = Returned (false, None) s [].
Proof.
  rewrite cas_condition_tests, KVSCheckAndSet_noFaults. simpl.
  destruct (_ && _); [done|]. destruct (_ && _); [done|]. intros []. done.
Qed.

(** Under any fault schedule a call either behaves as the fault-free call, or
    fails on its way to the precondition, or passes it and fails later. *)
Lemma KVSCheckAndSet_faults faults index d s :
  KVSCheckAndSet faults index d s = KVSCheckAndSet noFaults index d s ∨
  (true ∈ faults ∧
   ((∃ err, KVSCheckAndSet faults index d s = Returned (false, Some err) s []) ∨
    (cas_condition s d ∧
     ∃ b err n, KVSCheckAndSet faults index d s = Returned (b, Some err) s n))).
Proof.
  rewrite cas_condition_tests.
  unfold KVSCheckAndSet, noFaults, StartTxn, runTxn, bind, orReturn, GetTxn, engineOp.
  destruct faults as [|[] faults]; simpl; [by left|right|].
  { split; [left|]. left; eauto. }
  destruct faults as [|[] faults]; simpl; [by left|right|].
  { split; [repeat constructor|]. left; eauto. }
  rewrite (kvs_get_id _ _ _ eq_refl). fold (kvs_entry s (DE_Key d)).
  destruct (kvs_entry s (DE_Key d)) as [e|]; simpl;
    rewrite ?andb_true_r, ?andb_false_r;
    (destruct (DE_ModifyIndex d =? 0)%N; simpl; [try by left|]);
    (destruct (0 <? DE_ModifyIndex d)%N; simpl; [|try by left]);
    try (destruct (DE_ModifyIndex e =? DE_ModifyIndex d)%N; simpl; [|by left]).
  all: try (left; reflexivity).
  all: destruct faults as [|[] faults]; simpl; [left; reflexivity|right|].
  all: try (split; [repeat constructor|]; right; split; [done|];
            eexists _, _, _; reflexivity).
  all: destruct faults as [|[] faults]; simpl; [left; reflexivity|right|].
  all: try (split; [repeat constructor|]; right; split; [done|];
            eexists _, _, _; reflexivity).
  all: destruct faults as [|[] faults]; simpl; [left; reflexivity|right|].
  all: try (split; [repeat constructor|]; right; split; [done|];
            eexists _, _, _; reflexivity).
  all: left; reflexivity.
Qed.

(** C1: a check-and-set succeeds exactly when either the attempt carries
    ModifyIndex 0 and the key is absent, or it carries a positive ModifyIndex
    and the key is stored with exactly that ModifyIndex.  The equivalence is
    that of a call the engine does not fail; under any fault schedule a call
    that returns true still met the condition. *)
Theorem KVSCheckAndSet_succeeds_iff index d s :
  (cas_ok (KVSCheckAndSet noFaults index d s) = true ↔ cas_condition s d) ∧
  (∀ faults, cas_ok (KVSCheckAndSet faults index d s) = true → cas_condition s d).
Proof.
  assert (cas_ok (KVSCheckAndSet noFaults index d s) = true ↔ cas_condition s d) as Hiff.
  { split.
    - destruct (cas_condition_cases s d) as [|Hn]; [done|].
      by rewrite KVSCheckAndSet_noFaults_fail.
    - intros Hc. by rewrite KVSCheckAndSet_noFaults_ok. }
  split; [done|]. intros faults.
  destruct (KVSCheckAndSet_faults faults index d s)
    as [->|[_ [[err ->]|[Hc _]]]]; [by apply Hiff|done|done].
Qed.

(** C5: when the precondition fails the call returns (false, nil) and leaves
    the committed store as it was, without a notification; this holds under
    any fault schedule up to the error value.  A call returns an error only
    if the engine reported a fault. *)
Theorem KVSCheckAndSet_failure_clean index d s :
  (¬ cas_condition s d →
     KVSCheckAndSet noFaults index d s = Returned (false, None) s [] ∧
     ∀ faults, ∃ err, KVSCheckAndSet faults index d s = Returned (false, err) s []) ∧
  (∀ faults b err s' n,
     KVSCheckAndSet faults index d s = Returned (b, Some err) s' n → true ∈ faults).
Proof.
  split.
  - intros Hn. split; [by apply KVSCheckAndSet_noFaults_fail|]. intros faults.
    destruct (KVSCheckAndSet_faults faults index d s)
      as [->|[_ [[err ->]|[Hc _]]]]; [|by eauto|done].
    rewrite KVSCheckAndSet_noFaults_fail by done. eauto.
  - intros faults b err s' n Hr.
    destruct (KVSCheckAndSet_faults faults index d s) as [He|[Hin _]]; [|done].
    rewrite He in Hr. destruct (cas_condition_cases s d).
    + by rewrite KVSCheckAndSet_noFaults_ok in Hr.
    + by rewrite KVSCheckAndSet_noFaults_fail in Hr.
Qed.

Lemma applyWrite_cases w s :
  applyWrite w s = (kvs_written (write_index w) (write_entry w) s, true) ∨
  applyWrite w s = (s, false).
Proof.
  destruct w as [faults index d|faults index d]; simpl.
  - destruct (KVSSet_faults faults index d s) as [->|[_ (err & n & ->)]]; [|by right].
    rewrite KVSSet_noFaults. by left.
  - destruct (KVSCheckAndSet_faults faults index d s)
      as [->|[_ [[err ->]|[_ (b & err & n & ->)]]]].
    + destruct (cas_condition_cases s d).
      * rewrite KVSCheckAndSet_noFaults_ok by done. by left.
      * rewrite KVSCheckAndSet_noFaults_fail by done. by right.
    + by right.
    + right. by destruct b.
Qed.

(** C4: over any sequence of KVSSet and KVSCheckAndSet calls, the entry stored
    for a key keeps the CreateIndex it had, or, when the key was absent, takes
    the index of the first successful write to the key; its ModifyIndex is the
    index of the last successful write to the key. *)
Theorem kv_create_modify_indexes key ws s :
  let '(s', log) := runWrites key ws s in
  DE_CreateIndex <$> kvs_entry s' key =
    match kvs_entry s key with
    | Some e => Some (DE_CreateIndex e)
    | None => head log
    end ∧
  DE_ModifyIndex <$> kvs_entry s' key =
    match last log with
    | Some index => Some index
    | None => DE_ModifyIndex <$> kvs_entry s key
    end.
Proof.
  revert s. induction ws as [|w ws IH]; intros s; simpl.
  { by destruct (kvs_entry s key). }
  destruct (applyWrite_cases w s) as [-> | ->].
  - specialize (IH (kvs_written (write_index w) (write_entry w) s)).
    destruct (runWrites key ws _) as [s2 log]. destruct IH as [IHc IHm].
    rewrite kvs_entry_written in IHc, IHm. simpl.
    replace (write_key w) with (DE_Key (write_entry w)) by by destruct w.
    destruct (String.eqb_spec (DE_Key (write_entry w)) key) as [Hk|Hk].
    + rewrite decide_True in IHc, IHm by done. simpl in *. split.
      * rewrite IHc. by destruct (kvs_entry s key).
      * rewrite IHm, last_cons. by destruct (last log).
    + rewrite decide_False in IHc, IHm by done. done.
  - specialize (IH s). destruct (runWrites key ws s) as [s2 log]. done.
Qed.

(** ** Sessions *)

Lemma nodes_get_id (n : string) (t : TableState string Node) ix :
  getIndex "id" (Indexes nodeTable) = Some ix →
  tbl_get ix [n] t = option_list (rows t !! n).
Proof.
  intros [= <-]. apply tbl_get_point. intros kr. by apply matches_key1.
Qed.

Lemma sessions_get_id (n : string) (t : TableState string Session) ix :
  getIndex "id" (Indexes sessionTable) = Some ix →
  tbl_get ix [n] t = option_list (rows t !! n).
Proof.
  intros [= <-]. apply tbl_get_point. intros kr. by apply matches_key1.
Qed.

Lemma checks_get_id (a b : string) (t : TableState (string * string) HealthCheck) ix :
  getIndex "id" (Indexes checkTable) = Some ix →
  tbl_get ix [a; b] t = option_list (rows t !! (a, b)).
Proof.
  intros [= <-]. apply tbl_get_point. intros kr. by apply matches_key2.
Qed.

Lemma services_get_id (a b : string) (t : TableState (string * string) ServiceNode) ix :
  getIndex "id" (Indexes serviceTable) = Some ix →
  tbl_get ix [a; b] t = option_list (rows t !! (a, b)).
Proof.
  intros [= <-]. apply tbl_get_point. intros kr. by apply matches_key2.
Qed.

Lemma session_accepted_rejected s session :
  session_accepted s session → ¬ session_rejected s session.
Proof.
  intros [[n Hn] Hall] [Hnone|(c & Hin & Hbad)]; [congruence|].
  rewrite Forall_forall in Hall. destruct (Hall c Hin) as (chk & Hc & Hs).
  destruct Hbad as [?|(chk' & ? & ?)]; congruence.
Qed.

(** The verification loop reads only; when it runs through, every listed
    check is usable, and it never leaves with the out-of-fuel value. *)
Lemma verify_loop node checks st :
  let '(r, st') := forEach checks (verifyCheck node) st in
  txDB st' = txDB st ∧ txDeferred st' = txDeferred st ∧
  txCommitted st' = txCommitted st ∧
  match r with
  | inr _ => Forall (check_usable (txDB st) node) checks
  | inl None => False
  | inl (Some _) => True
  end.
Proof.
  revert st. induction checks as [|c checks IH]; intros st; simpl.
  { by repeat split. }
  unfold bind at 1, verifyCheck at 1, bind, orReturn, GetTxn, engineOp.
  destruct st as [db fs dn cm]. simpl.
  destruct fs as [|[] fs]; simpl; [|done|];
    rewrite (checks_get_id _ _ _ _ eq_refl);
    (destruct (rows (db_checks db) !! (node, c)) as [chk|] eqn:Hc; simpl; [|done]);
    (destruct (String.eqb_spec (HC_Status chk) HealthCritical) as [Hs|Hs];
       simpl; [done|]);
    match goal with
    | |- context [forEach checks (verifyCheck node) ?st] =>
        specialize (IH st); destruct (forEach checks (verifyCheck node) st) as [r st']
    end;
    simpl in IH; destruct IH as (? & ? & ? & Hr); repeat split; try done;
    destruct r as [[e|]|[]]; try done; (constructor; [by exists chk|done]).
Qed.

Lemma verify_loop_noFaults node checks db dn cm :
  Forall (check_usable db node) checks →
  forEach checks (verifyCheck node) (mkTx db [] dn cm) = (inr tt, mkTx db [] dn cm).
Proof.
  induction 1 as [|c checks (chk & Hc & Hs) _ IH]; simpl; [done|].
  unfold bind at 1, verifyCheck at 1, bind, orReturn, GetTxn, engineOp. simpl.
  rewrite (checks_get_id _ _ _ _ eq_refl), Hc. simpl.
  destruct (String.eqb_spec (HC_Status chk) HealthCritical); [done|]. simpl.
  apply IH.
Qed.

Lemma uniqueIDLoop_fresh fuel id db dn cm :
  rows (db_sessions db) !! id = None →
  uniqueIDLoop (S fuel) id (mkTx db [] dn cm) = (inr tt, mkTx db [] dn cm).
Proof.
  intros Hid. simpl. unfold bind, orReturn, GetTxn, engineOp. simpl.
  by rewrite (sessions_get_id _ _ _ eq_refl), Hid.
Qed.

(** A generated ID that is taken is looked up again and again. *)
Lemma uniqueIDLoop_taken fuel id db dn cm :
  is_Some (rows (db_sessions db) !! id) →
  uniqueIDLoop fuel id (mkTx db [] dn cm) = (inl None, mkTx db [] dn cm).
Proof.
  intros [x Hid]. induction fuel as [|fuel IH]; simpl; [done|].
  unfold bind, orReturn, GetTxn, engineOp. simpl.
  rewrite (sessions_get_id _ _ _ eq_refl), Hid. simpl. apply IH.
Qed.

Lemma insert_mappings_noFaults (session : Session) checks db dn cm :
  forEach checks (λ checkID,
    orReturn (E':=option error) Some
      (InsertTxn sessionCheckTable (sCheck session checkID)))
    (mkTx db [] dn cm) =
  (inr tt,
   mkTx (tset sessionCheckTable
           (foldl (λ t c, tbl_insert (pkey sessionCheckTable (sCheck session c))
                                     (sCheck session c) t)
                  (db_sessionChecks db) checks) db) [] dn cm).
Proof.
  revert db. induction checks as [|c checks IH]; intros db; simpl.
  { by destruct db. }
  unfold bind at 1, orReturn at 1, InsertTxn at 1, engineOp. simpl.
  rewrite IH. done.
Qed.

Lemma SessionCreate_noFaults_ok fuel uuid index session s :
  session_accepted s session → rows (db_sessions s) !! uuid = None →
  SessionCreate (S fuel) uuid noFaults index session s =
  Some (Returned None (session_stored uuid index session s)
                 [dbSessionChecks; dbSessions]).
Proof.
  intros [[n Hn] Hall] Hid.
  pose proof (insert_mappings_noFaults
                (S_withID uuid (S_withCreateIndex index session))
                (S_Checks session)) as Hins.
  unfold SessionCreate, noFaults, StartTxn, bind, orReturn, GetTxn, engineOp in *.
  simpl.
  rewrite (nodes_get_id _ _ _ eq_refl), Hn. simpl.
  rewrite verify_loop_noFaults by done.
  unfold bind, orReturn, GetTxn, engineOp. simpl.
  rewrite (sessions_get_id _ _ _ eq_refl), Hid. simpl.
  rewrite Hins. reflexivity.
Qed.

(** A session whose generated ID is already stored: the call never returns. *)
Lemma SessionCreate_collision fuel uuid index session s :
  session_accepted s session → is_Some (rows (db_sessions s) !! uuid) →
  SessionCreate fuel uuid noFaults index session s = None.
Proof.
  intros [[n Hn] Hall] Hid.
  unfold SessionCreate, noFaults, StartTxn, bind, orReturn, GetTxn, engineOp.
  simpl.
  rewrite (nodes_get_id _ _ _ eq_refl), Hn. simpl.
  rewrite verify_loop_noFaults by done.
  rewrite uniqueIDLoop_taken by done. reflexivity.
Qed.

(** C7: a session whose node is not registered, or one of whose checks is
    missing for the node or critical, is turned down with an error once the
    transaction is open, and nothing is stored or notified, whatever the
    engine does; a session whose node is registered and whose checks all exist
    in a state other than critical (warning, say) is created. *)
Theorem SessionCreate_preconditions fuel uuid index session s :
  (∀ faults, head faults ≠ Some true → session_rejected s session →
     ∃ err, SessionCreate fuel uuid faults index session s =
            Some (Returned (Some err) s [])) ∧
  (session_accepted s session → rows (db_sessions s) !! uuid = None →
     SessionCreate (S fuel) uuid noFaults index session s =
     Some (Returned None (session_stored uuid index session s)
                    [dbSessionChecks; dbSessions])).
Proof.
  split; [|apply SessionCreate_noFaults_ok].
  intros faults Hstart Hrej.
  assert (∀ fs, ∃ err,
    (let '(r, tx') :=
       (if (length (option_list (rows (db_nodes s) !! S_Node session)) =? 0)%nat
        then Return (Some errMissingNode)
        else λ st,
          let (r, st') := forEach (S_Checks session) (verifyCheck (S_Node session)) st in
          match r with
          | inl e => (inl e, st')
          | inr _ => (inl None, st')
          end) (mkTx s fs [] false) in
     match r : option error + option error with
     | inl (Some err) =>
         Some (Returned (Some err) (if txCommitted tx' then txDB tx' else s)
                 (txDeferred tx'))
     | _ => None
     end) = Some (Returned (Some err) s [])) as Hverify.
  { intros fs.
    destruct (rows (db_nodes s) !! S_Node session) as [n|] eqn:Hn; simpl; [|by eauto].
    pose proof (verify_loop (S_Node session) (S_Checks session)
                  (mkTx s fs [] false)) as Hv.
    destruct (forEach _ _ _) as [r st']. simpl in Hv.
    destruct Hv as (Hdb & Hdn & Hcm & Hr).
    destruct r as [[e|]|[]]; [|done|].
    - rewrite Hcm, Hdn. eauto.
    - exfalso. destruct Hrej as [?|(c & Hin & Hbad)]; [congruence|].
      rewrite Forall_forall in Hr. destruct (Hr c Hin) as (chk & Hc & Hs).
      destruct Hbad as [?|(chk' & ? & ?)]; congruence. }
  unfold SessionCreate, StartTxn, bind, orReturn, GetTxn, engineOp.
  destruct faults as [|[] fs]; simpl; [|done|];
    (destruct fs as [|[] fs]; simpl; [|by eauto|]) ||
    idtac;
    rewrite (nodes_get_id _ _ _ eq_refl);
    match goal with
    | |- context [mkTx s ?fs' [] false] => destruct (Hverify fs') as [err Herr]
    end;
    exists err; revert Herr;
    (destruct (length _ =? 0)%nat; simpl; [done|]);
    destruct (forEach _ _ _) as [[[e|]|[]] st']; simpl; try done.
Qed.

Lemma example_session_accepted : session_accepted example_checks_store example_session.
Proof.
  split; [by eexists|].
  repeat constructor; eexists; (split; [vm_compute; reflexivity|done]).
Qed.

Lemma example_session_store_accepted :
  session_accepted example_session_store example_session.
Proof.
  split; [by eexists|].
  repeat constructor; eexists; (split; [vm_compute; reflexivity|done]).
Qed.

(** C2: the generated ID "uuid-1" is the ID of a stored session; the call
    looks the same ID up in every iteration and has not returned after any
    number of them. *)
Theorem SessionCreate_collision_spins (fuel : nat) :
  SessionCreate fuel "uuid-1" noFaults 31 example_session example_session_store = None.
Proof.
  apply SessionCreate_collision; [apply example_session_store_accepted|].
  by eexists.
Qed.

Lemma SessionCreate_preconditions_witness :
  (∃ err, SessionCreate 1 "uuid-1" noFaults 30 (mkSession 0 "" "" "n1" ["c1"; "c3"])
            example_checks_store =
          Some (Returned (Some err) example_checks_store [])) ∧
  SessionCreate 1 "uuid-1" noFaults 30 example_session example_checks_store =
    Some (Returned None (session_stored "uuid-1" 30 example_session example_checks_store)
            [dbSessionChecks; dbSessions]).
Proof.
  split.
  - apply (proj1 (SessionCreate_preconditions 1 "uuid-1" 30
                    (mkSession 0 "" "" "n1" ["c1"; "c3"]) example_checks_store)).
    + simpl. discriminate.
    + right. exists "c3". split; [vm_compute; repeat constructor|].
      right. eexists. split; vm_compute; reflexivity.
  - apply (proj2 (SessionCreate_preconditions 0 "uuid-1" 30 example_session
                    example_checks_store)).
    + split; [by eexists|].
      repeat constructor; eexists; (split; [vm_compute; reflexivity|done]).
    + vm_compute. reflexivity.
Defined.

(** ** Restore *)

Lemma sessionChecks_added_lastIndex session t :
  lastIndex (sessionChecks_added session t) = lastIndex t.
Proof.
  unfold sessionChecks_added. revert t.
  induction (S_Checks session) as [|c l IH]; intros t; simpl; [done|].
  by rewrite IH.
Qed.

Lemma restore_mappings_noFaults (session : Session) checks db dn cm :
  forEach (E:=error) checks (λ checkID,
    InsertTxn sessionCheckTable (sCheck session checkID))
    (mkTx db [] dn cm) =
  (inr tt,
   mkTx (tset sessionCheckTable
           (foldl (λ t c, tbl_insert (pkey sessionCheckTable (sCheck session c))
                                     (sCheck session c) t)
                  (db_sessionChecks db) checks) db) [] dn cm).
Proof.
  revert db. induction checks as [|c checks IH]; intros db; simpl.
  { by destruct db. }
  unfold bind at 1, InsertTxn at 1, engineOp. simpl.
  rewrite IH. done.
Qed.

(** [SessionRestore] inserts without a check and raises both watermarks to
    the session's CreateIndex, never lowering them. *)
Lemma SessionRestore_noFaults session s :
  SessionRestore noFaults session s =
  Returned None (session_restored session s) [dbSessionChecks; dbSessions].
Proof.
  pose proof (restore_mappings_noFaults session (S_Checks session)) as Hins.
  unfold SessionRestore, noFaults, StartTxn, runTxn, bind, InsertTxn, engineOp in *.
  simpl. rewrite Hins. reflexivity.
Qed.

Lemma SessionRestore_watermarks session s :
  let s' := store_of s (SessionRestore noFaults session s) in
  lastIndex (db_sessions s') = N.max (lastIndex (db_sessions s)) (S_CreateIndex session) ∧
  lastIndex (db_sessionChecks s') =
    N.max (lastIndex (db_sessionChecks s)) (S_CreateIndex session).
Proof.
  rewrite SessionRestore_noFaults. simpl. unfold tbl_setMaxLastIndex. simpl.
  by rewrite sessionChecks_added_lastIndex.
Qed.

(** C3: [KVSRestore] inserts the entry without a check, and that is all it
    does: whatever indexes the entry carries, the watermark of the kvs table
    stays where it was and no watcher is notified. *)
Theorem KVSRestore_keeps_watermark faults d s :
  ∃ err s', KVSRestore faults d s = Returned err s' [] ∧
            lastIndex (db_kvs s') = lastIndex (db_kvs s) ∧
            match err with
            | None => kvs_entry s' (DE_Key d) = Some d
            | Some _ => s' = s
            end.
Proof.
  unfold KVSRestore, StartTxn, runTxn, bind, InsertTxn, engineOp, kvs_entry.
  destruct faults as [|[] faults]; simpl.
  - eexists _, _. split; [done|]. split; [done|].
    unfold tbl_insert. simpl. apply lookup_insert_eq.
  - by eexists _, _.
  - destruct faults as [|[] faults]; simpl.
    + eexists _, _. split; [done|]. split; [done|].
      unfold tbl_insert. simpl. apply lookup_insert_eq.
    + by eexists _, _.
    + destruct faults as [|[] faults]; simpl.
      * eexists _, _. split; [done|]. split; [done|].
        unfold tbl_insert. simpl. apply lookup_insert_eq.
      * by eexists _, _.
      * eexists _, _. split; [done|]. split; [done|].
        unfold tbl_insert. simpl. apply lookup_insert_eq.
Qed.

(** The restore of an entry written at index 5 into a fresh store leaves the
    kvs watermark at 0. *)
Example KVSRestore_newer_index :
  let d := mkDirEntry 5 5 "a" 0 [] in
  let s' := store_of emptyDB (KVSRestore noFaults d emptyDB) in
  kvs_entry s' "a" = Some d ∧ lastIndex (db_kvs s') = 0%N.
Proof. split; reflexivity. Qed.

(** ** Checks *)

Lemma EnsureCheck_noFaults index check s :
  EnsureCheck noFaults index check s =
  let check := HC_withStatus (stored_status check) check in
  match rows (db_nodes s) !! HC_Node check with
  | None => Returned (Some errMissingNode) s []
  | Some _ =>
      if String.eqb (HC_ServiceID check) ""
      then Returned None (check_stored index check s) [dbChecks]
      else match rows (db_services s) !! (HC_Node check, HC_ServiceID check) with
           | None => Returned (Some errMissingService) s []
           | Some srv =>
               Returned None
                 (check_stored index (HC_withServiceName (SN_ServiceName srv) check) s)
                 [dbChecks]
           end
  end.
Proof.
  unfold EnsureCheck, noFaults, StartTxn, runTxn, bind, GetTxn, engineOp, stored_status.
  destruct check as [node id status sid sname]. simpl.
  assert (HC_Node (if String.eqb status "" then
                     HC_withStatus HealthUnknown (mkHealthCheck node id status sid sname)
                   else mkHealthCheck node id status sid sname) = node) as Hnode
    by by destruct (String.eqb status "").
  rewrite Hnode, (nodes_get_id _ _ _ eq_refl).
  destruct (rows (db_nodes s) !! node) as [n|]; simpl; [|done].
  destruct (String.eqb_spec status "") as [->|Hs]; simpl.
  - destruct (String.eqb_spec sid "") as [->|Hsid]; simpl; [done|].
    rewrite (services_get_id _ _ _ _ eq_refl).
    destruct (rows (db_services s) !! (node, sid)) as [srv|]; simpl; done.
  - destruct (String.eqb_spec sid "") as [->|Hsid]; simpl.
    + by destruct status.
    + rewrite (services_get_id _ _ _ _ eq_refl).
      destruct (rows (db_services s) !! (node, sid)) as [srv|]; simpl; [|done].
      by destruct status.
Qed.

(** What [check_stored] leaves in the checks table. *)
Lemma check_stored_lookup index c s :
  rows (db_checks (check_stored index c s)) !! (HC_Node c, HC_CheckID c) = Some c ∧
  lastIndex (db_checks (check_stored index c s)) = index ∧
  ∀ k, k ≠ (HC_Node c, HC_CheckID c) →
       rows (db_checks (check_stored index c s)) !! k = rows (db_checks s) !! k.
Proof.
  unfold check_stored, tbl_setLastIndex, tbl_insert. simpl. split; [|split].
  - apply lookup_insert_eq.
  - done.
  - intros k Hk. by apply lookup_insert_ne.
Qed.

(** C8: [EnsureCheck] stores "unknown" for an empty Status; it fails when the
    node has no row; with a ServiceID it fails unless the service has a row
    for the node, and then stores the ServiceName of that row; on success the
    check is the row of its (Node, CheckID) in the checks table. *)
Theorem EnsureCheck_spec index check s :
  let node := HC_Node check in
  let sid := HC_ServiceID check in
  let stored name := mkHealthCheck node (HC_CheckID check) (stored_status check) sid name in
  (rows (db_nodes s) !! node = None →
     EnsureCheck noFaults index check s = Returned (Some errMissingNode) s []) ∧
  (is_Some (rows (db_nodes s) !! node) → sid ≠ "" →
   rows (db_services s) !! (node, sid) = None →
     EnsureCheck noFaults index check s = Returned (Some errMissingService) s []) ∧
  (is_Some (rows (db_nodes s) !! node) → sid = "" →
     EnsureCheck noFaults index check s =
     Returned None (check_stored index (stored (HC_ServiceName check)) s) [dbChecks]) ∧
  (∀ srv, is_Some (rows (db_nodes s) !! node) → sid ≠ "" →
   rows (db_services s) !! (node, sid) = Some srv →
     EnsureCheck noFaults index check s =
     Returned None (check_stored index (stored (SN_ServiceName srv)) s) [dbChecks]).
Proof.
  rewrite EnsureCheck_noFaults. destruct check as [node id status sid sname]. simpl.
  split; [|split; [|split]].
  - by intros ->.
  - intros [n ->] Hsid Hsrv. rewrite Hsrv.
    by destruct (String.eqb_spec sid "").
  - intros [n ->] ->. done.
  - intros srv [n ->] Hsid Hsrv. rewrite Hsrv.
    by destruct (String.eqb_spec sid "").
Qed.

Lemma EnsureCheck_spec_witness :
  EnsureCheck noFaults 3 example_check example_service_store =
  Returned None
    (check_stored 3 (mkHealthCheck "n1" "web-ping" "unknown" "web" "web-name")
       example_service_store) [dbChecks] ∧
  EnsureCheck noFaults 3 example_check emptyDB = Returned (Some errMissingNode) emptyDB [].
Proof.
  split.
  - apply (proj2 (proj2 (proj2 (EnsureCheck_spec 3 example_check example_service_store)))
             (mkServiceNode "n1" "" "web" "web-name" ["a"] 80)).
    + by eexists.
    + done.
    + vm_compute. reflexivity.
  - apply (proj1 (EnsureCheck_spec 3 example_check emptyDB)). reflexivity.
Defined.

(** ** Deletes *)

Section delete_facts.
Context {K : Type} `{Countable K} `{!KeyOrder K} {R : Type}.

(** One delete: either it reports 0 and the table is as it was, or it reports
    a positive number and the table lost rows. *)
Lemma delete_outcome (ix : MDBIndex K R) parts (t : TableState K R) :
  let n := (tbl_delete ix parts t).1 in
  let t' := (tbl_delete ix parts t).2 in
  (n = 0 ∧ rows t' = rows t ∧ lastIndex t' = lastIndex t) ∨
  ((0 <? n)%nat = true ∧ rows t' ⊂ rows t).
Proof.
  intros n t'. pose proof (tbl_delete_zero ix parts t) as Hz.
  pose proof (tbl_delete_subseteq ix parts t) as Hsub.
  fold n t' in Hz, Hsub.
  destruct n as [|m] eqn:En; [left|right].
  - split; [done|]. split; [by apply Hz|]. apply tbl_delete_lastIndex.
  - split; [done|]. split; [done|].
    intros Hsub'. assert (rows t' = rows t) as He by by apply (anti_symm (⊆)).
    apply Hz in He. done.
Qed.
End delete_facts.

Local Opaque tbl_delete.

(** The outcome of one [DeleteTxn], kept with its equation so that the same
    delete is recognised in every run of the method. *)
Ltac delete_fact ix parts t :=
  let Hd := fresh "Hd" in
  let Hpos := fresh "Hpos" in
  let E := fresh "E" in
  pose proof (delete_outcome ix parts t) as Hd;
  destruct (tbl_delete ix parts t) as [? ?] eqn:E;
  simpl in Hd;
  destruct Hd as [(-> & ? & ?)|(Hpos & ?)].

Ltac use_fact :=
  match goal with
  | H : tbl_delete _ _ _ = _ |- _ => rewrite H
  | H : (0 <? _)%nat = true |- _ => rewrite H
  end.

Ltac use_facts := simpl; repeat (use_fact; simpl).

Ltac unfold_txn :=
  unfold StartTxn, runTxn, bind, DeleteTxn, touchIfDeleted, SetLastIndexTxn,
    engineOp, deferNotify, Commit, ret, Return; simpl.

Ltac delete_facts :=
  unfold noFaults; unfold_txn;
  repeat (match goal with
          | |- context [tbl_delete ?ix ?parts ?t] => delete_fact ix parts t
          end; use_facts).

Ltac table_case :=
  unfold tbl_setLastIndex; simpl;
  first [ left; split; [assumption || reflexivity|];
          split; [assumption || reflexivity|]; compute_done
        | right; split; [assumption|]; split; [reflexivity|compute_done] ].

(** A run under a fault schedule has ended: with a panic, or with a return. *)
Ltac run_done :=
  solve [ left; reflexivity
        | right; eexists _, _, _; split; [reflexivity|];
          split; [first [left; reflexivity | right; repeat split; reflexivity]|];
          compute_done ].

(** Follow the method call by call: each call of the table layer consumes one
    flag of the schedule. *)
Ltac fault_cases :=
  unfold_txn; use_facts;
  first [ run_done
        | match goal with
          | faults : list bool |- _ => destruct faults as [|[] faults]; fault_cases
          end ].

Ltac delete_done :=
  eexists _, _; split; [reflexivity|];
  split; [intros []; table_case | intros faults; fault_cases].

(** C9: a delete method sets the watermark of a table to its index and
    notifies the watchers of the table exactly when the table lost a row in
    the call; a table that lost no row keeps its rows and its watermark, and
    its watchers are not notified.  This is the call in which no call of the
    table layer fails ([s0], [notified0]).  Under any fault schedule the
    method panics or returns; the committed state is then the one before the
    call or [s0], so no watermark moves without its table losing a row, and
    only tables with rows to delete ([notified0]) are notified. *)
Theorem delete_touches_only_changed_tables index op s :
  ∃ s0 notified0,
    runDelete noFaults index op s = Returned None s0 notified0 ∧
    (∀ t, (rows_kept t s s0 ∧ watermark t s0 = watermark t s ∧
           table_name t ∉ notified0) ∨
          (rows_lost t s s0 ∧ watermark t s0 = index ∧
           table_name t ∈ notified0)) ∧
    (∀ faults,
       runDelete faults index op s = Panicked ∨
       ∃ err s' notified,
         runDelete faults index op s = Returned err s' notified ∧
         (s' = s ∨ (err = None ∧ s' = s0 ∧ notified = notified0)) ∧
         notified ⊆ notified0).
Proof.
  destruct op as [node id|node|node id|key|prefix]; simpl.
  - unfold DeleteNodeService. delete_facts; delete_done.
  - unfold DeleteNode. delete_facts; delete_done.
  - unfold DeleteNodeCheck. delete_facts; delete_done.
  - unfold KVSDelete, kvsDeleteWithIndex. delete_facts; delete_done.
  - unfold KVSDeleteTree, kvsDeleteWithIndex.
    destruct (String.eqb prefix ""); delete_facts; delete_done.
Qed.

(** The notification of a table is deferred before [tx.Commit()] runs: when
    the rows were found and the commit then fails, the watchers of the table
    are woken although the transaction is aborted and the store is as it
    was. *)
Example DeleteNodeCheck_commit_fault :
  DeleteNodeCheck [false; false; false; true] 9 "n1" "c1" example_checks_store
  = Returned (Some EngineFault) example_checks_store [dbChecks].
Proof. vm_compute. reflexivity. Qed.

Local Transparent tbl_delete.

(** ** The service queries *)

(** The in-place filter returns, in some order, the rows with the tag. *)
Lemma serviceTagFilter_loop_perm tag fuel (l : list ServiceNode) (i n : nat) :
  (i ≤ n)%nat → (n ≤ length l)%nat → (n - i ≤ fuel)%nat →
  serviceTagFilter_loop fuel l tag i n ≡ₚ
  take i l ++ filter (λ srv, tag ∈ SN_ServiceTags srv) (take (n - i) (drop i l)).
Proof.
  revert l i n. induction fuel as [|fuel IH]; intros l i n Hin Hn Hfuel; simpl.
  { replace (n - i) with 0 by lia. replace n with i by lia.
    by rewrite take_0, filter_nil, app_nil_r. }
  destruct (Nat.ltb_spec i n) as [Hlt|Hge]; last first.
  { replace (n - i) with 0 by lia. replace n with i by lia.
    by rewrite take_0, filter_nil, app_nil_r. }
  destruct (lookup_lt_is_Some_2 l i) as [srv Hsrv]; [lia|].
  destruct (lookup_lt_is_Some_2 l (n - 1)) as [lastRow Hlast]; [lia|].
  rewrite Hsrv, Hlast.
  assert (∃ k, n = i + S k) as [k ->] by (exists (n - i - 1); lia).
  replace (i + S k - i) with (S k) by lia.
  replace (i + S k - 1) with (i + k) in * by lia.
  rewrite (drop_S l srv i) by done. simpl. rewrite filter_cons. unfold strContains.
  destruct (decide (tag ∈ SN_ServiceTags srv)) as [Htag|Htag].
  - rewrite bool_decide_eq_true_2 by done. simpl.
    rewrite IH by lia. rewrite (take_S_r l i srv) by done.
    rewrite <- app_assoc. simpl. by replace (i + S k - S i) with k by lia.
  - rewrite bool_decide_eq_false_2 by done. simpl.
    rewrite IH; [|lia|rewrite length_insert; lia|lia].
    rewrite take_insert_ge by lia.
    apply Permutation_app_head.
    replace (i + k - i) with k by lia.
    destruct k as [|k]; [by rewrite !take_0|].
    rewrite (insert_take_drop l i lastRow) by lia.
    rewrite drop_app_length' by (rewrite length_take; lia). simpl.
    rewrite (take_S_r (drop (S i) l) k lastRow); last first.
    { rewrite lookup_drop. rewrite <- Hlast. f_equal. lia. }
    rewrite filter_app, filter_cons, (filter_cons _ lastRow), filter_nil.
    destruct (decide (tag ∈ SN_ServiceTags lastRow)); [|by rewrite app_nil_r].
    by rewrite <- Permutation_cons_append.
Qed.

Lemma serviceTagFilter_perm (l : list ServiceNode) tag :
  serviceTagFilter l tag ≡ₚ filter (λ srv, tag ∈ SN_ServiceTags srv) l.
Proof.
  unfold serviceTagFilter.
  rewrite serviceTagFilter_loop_perm by lia.
  rewrite take_0, drop_0, Nat.sub_0_r. simpl. by rewrite firstn_all.
Qed.

Section lookup_perm.
Context {K : Type} `{Countable K} `{!KeyOrder K} {R : Type}.

Lemma map_to_list_filter_perm (P : K * R → Prop) `{!∀ x, Decision (P x)}
    (m : gmap K R) :
  map_to_list (filter P m) ≡ₚ filter P (map_to_list m).
Proof.
  rewrite map_filter_alt, map_to_list_to_map; [done|].
  apply (sublist_NoDup _ (map_to_list m).*1).
  - apply NoDup_fst_map_to_list.
  - apply fmap_sublist, sublist_filter.
Qed.

(** A lookup returns the rows of the table that match, each once. *)
Lemma tbl_get_perm (ix : MDBIndex K R) parts (t : TableState K R) :
  tbl_get ix parts t ≡ₚ
  (map_to_list (filter (λ kr, matches ix parts kr = true) (rows t))).*2.
Proof.
  unfold tbl_get. apply fmap_Permutation.
  by rewrite map_to_list_filter_perm, scan_perm.
Qed.

Lemma filter_fmap_snd (P : R → Prop) `{!∀ x, Decision (P x)} (l : list (K * R)) :
  filter P l.*2 = (filter (λ kr, P kr.2) l).*2.
Proof.
  induction l as [|[k r] l IH]; [done|].
  rewrite fmap_cons, !filter_cons. cbn [snd].
  destruct (decide (P r)); [rewrite fmap_cons|]; by rewrite IH.
Qed.
End lookup_perm.

Lemma services_get_service service s ix :
  getIndex "service" (Indexes serviceTable) = Some ix →
  tbl_get ix [service] (db_services s) ≡ₚ services_named service s.
Proof.
  intros [= <-]. rewrite tbl_get_perm. unfold services_named.
  assert (filter (λ kr, matches (mkIndex false true false "" ["ServiceName"]
                                   DefaultIndexFunc (λ _ r, [SN_ServiceName r]))
                                [service] kr = true) (rows (db_services s)) =
          filter (λ kr, SN_ServiceName kr.2 = service) (rows (db_services s))) as He.
  { apply map_filter_ext. intros k r _. unfold matches. simpl.
    rewrite bool_decide_eq_true. split.
    - intros [l Hl]. simpl in Hl. by injection Hl.
    - intros ->. done. }
  simpl. by rewrite He.
Qed.

Lemma services_tagged_perm service tag s :
  filter (λ srv, tag ∈ SN_ServiceTags srv) (services_named service s) ≡ₚ
  services_tagged service tag s.
Proof.
  unfold services_named, services_tagged.
  rewrite filter_fmap_snd. apply fmap_Permutation.
  rewrite <- map_to_list_filter_perm. rewrite map_filter_filter.
  match goal with
  | |- map_to_list ?a ≡ₚ map_to_list ?b => assert (a = b) as ->; [|done]
  end.
  apply map_filter_ext. intros k r _. simpl. tauto.
Qed.

Lemma parseServiceNodes_loop_noFaults res pre db dn cm :
  parseServiceNodes_loop (E:=()) nodeTable res (length pre)
    (pre ++ replicate (length res) zeroServiceNode) (mkTx db [] dn cm) =
  (inr (pre ++ (joinNode db <$> res)), mkTx db [] dn cm).
Proof.
  revert pre. induction res as [|srv res IH]; intros pre; simpl.
  { done. }
  unfold bind, capture, GetTxn, engineOp. simpl.
  rewrite (nodes_get_id _ _ _ eq_refl). unfold joinNode at 1.
  destruct (rows (db_nodes db) !! SN_Node srv) as [n|]; simpl.
  - rewrite insert_app_r_alt by lia. rewrite Nat.sub_diag. simpl.
    rewrite (cons_middle _ pre), app_assoc.
    replace (S (length pre)) with (length (pre ++ [SN_withAddress (Node_Address n) srv]))
      by (rewrite length_app; simpl; lia).
    rewrite IH. by rewrite <- app_assoc.
  - rewrite (cons_middle _ pre), app_assoc.
    replace (S (length pre)) with (length (pre ++ [zeroServiceNode]))
      by (rewrite length_app; simpl; lia).
    rewrite IH. by rewrite <- app_assoc.
Qed.

Lemma parseCheckServiceNodes_loop_noFaults res pre db dn cm :
  parseCheckServiceNodes_loop (E:=()) res (length pre)
    (pre ++ replicate (length res) zeroCheckServiceNode) (mkTx db [] dn cm) =
  (inr (pre ++ (joinCheckNode db <$> res)), mkTx db [] dn cm).
Proof.
  revert pre. induction res as [|srv res IH]; intros pre; simpl.
  { done. }
  unfold bind, capture, GetTxn, engineOp. simpl.
  rewrite (nodes_get_id _ _ _ eq_refl). unfold joinCheckNode at 1.
  destruct (rows (db_nodes db) !! SN_Node srv) as [n|]; simpl.
  - rewrite insert_app_r_alt by lia. rewrite Nat.sub_diag. simpl.
    rewrite (cons_middle _ pre), app_assoc.
    match goal with
    | |- context [(pre ++ [?x]) ++ _] =>
        replace (S (length pre)) with (length (pre ++ [x]))
          by (rewrite length_app; simpl; lia)
    end.
    rewrite IH. by rewrite <- app_assoc.
  - rewrite (cons_middle _ pre), app_assoc.
    replace (S (length pre)) with (length (pre ++ [zeroCheckServiceNode]))
      by (rewrite length_app; simpl; lia).
    rewrite IH. by rewrite <- app_assoc.
Qed.

(** C10: each of the four service queries returns one element per matching
    service row (rows of the service name, with the tag when one is given):
    the row joined with its node, or, when the node has no row, the zero
    value in the row's place. *)
Theorem service_queries_one_element_per_row service tag s :
  (∃ idx res, res ≡ₚ services_named service s ∧
     ServiceNodes noFaults service s = Some (idx, joinNode s <$> res)) ∧
  (∃ idx res, res ≡ₚ services_tagged service tag s ∧
     ServiceTagNodes noFaults service tag s = Some (idx, joinNode s <$> res)) ∧
  (∃ idx res, res ≡ₚ services_named service s ∧
     CheckServiceNodes noFaults service s = Some (idx, joinCheckNode s <$> res)) ∧
  (∃ idx res, res ≡ₚ services_tagged service tag s ∧
     CheckServiceTagNodes noFaults service tag s =
     Some (idx, joinCheckNode s <$> res)) ∧
  (∀ srv, rows (db_nodes s) !! SN_Node srv = None →
     joinNode s srv = zeroServiceNode ∧ joinCheckNode s srv = zeroCheckServiceNode).
Proof.
  pose proof (services_get_service service s _ eq_refl) as Hnamed.
  assert (serviceTagFilter
            (tbl_get (mkIndex false true false "" ["ServiceName"] DefaultIndexFunc
                        (λ _ r, [SN_ServiceName r])) [service] (db_services s)) tag
          ≡ₚ services_tagged service tag s) as Htagged.
  { rewrite serviceTagFilter_perm, <- services_tagged_perm. by rewrite Hnamed. }
  pose proof (λ res, parseServiceNodes_loop_noFaults res [] s [] false) as Hl.
  pose proof (λ res, parseCheckServiceNodes_loop_noFaults res [] s [] false) as Hc.
  simpl in Hl, Hc.
  split; [|split; [|split; [|split]]].
  - eexists _, _. split; [exact Hnamed|].
    unfold ServiceNodes, noFaults, StartTxn, runQuery, bind, orPanic, orReturn, capture,
      LastIndexTxnAll, GetTxn, engineOp, parseServiceNodes.
    simpl.
    rewrite Hl. reflexivity.
  - eexists _, _. split; [exact Htagged|].
    unfold ServiceTagNodes, noFaults, StartTxn, runQuery, bind, orPanic, orReturn,
      capture, LastIndexTxnAll, GetTxn, engineOp, parseServiceNodes.
    simpl.
    rewrite Hl. reflexivity.
  - eexists _, _. split; [exact Hnamed|].
    unfold CheckServiceNodes, noFaults, StartTxn, runQuery, bind, orPanic, orReturn,
      capture, LastIndexTxnAll, GetTxn, engineOp, parseCheckServiceNodes.
    simpl.
    rewrite Hc. reflexivity.
  - eexists _, _. split; [exact Htagged|].
    unfold CheckServiceTagNodes, noFaults, StartTxn, runQuery, bind, orPanic, orReturn,
      capture, LastIndexTxnAll, GetTxn, engineOp, parseCheckServiceNodes.
    simpl.
    rewrite Hc. reflexivity.
  - intros srv Hn. unfold joinNode, joinCheckNode. by rewrite Hn.
Qed.

(** The joins only fill slots of the result: whatever the engine does during
    them, the result keeps the length it was made with. *)
Lemma parseServiceNodes_loop_length res i nodes st :
  ∃ l st', parseServiceNodes_loop (E:=()) nodeTable res i nodes st = (inr l, st') ∧
           length l = length nodes.
Proof.
  revert i nodes st. induction res as [|srv res IH]; intros i nodes st; simpl.
  { by eexists _, _. }
  unfold bind, capture, GetTxn, engineOp. simpl.
  destruct (txFaults st) as [|[] fs]; simpl.
  - destruct (tbl_get _ _ _) as [|n [|n' l]]; simpl.
    + apply IH.
    + destruct (IH (S i) (<[i:=SN_withAddress (Node_Address n) srv]> nodes)
                  (mkTx (txDB st) [] (txDeferred st) (txCommitted st)))
        as (l & st' & -> & Hl).
      eexists _, _. split; [done|]. by rewrite Hl, length_insert.
    + apply IH.
  - apply IH.
  - destruct (tbl_get _ _ _) as [|n [|n' l]]; simpl.
    + apply IH.
    + destruct (IH (S i) (<[i:=SN_withAddress (Node_Address n) srv]> nodes)
                  (mkTx (txDB st) fs (txDeferred st) (txCommitted st)))
        as (l & st' & -> & Hl).
      eexists _, _. split; [done|]. by rewrite Hl, length_insert.
    + apply IH.
Qed.

Lemma parseCheckServiceNodes_loop_length res i nodes st :
  ∃ l st', parseCheckServiceNodes_loop (E:=()) res i nodes st = (inr l, st') ∧
           length l = length nodes.
Proof.
  revert i nodes st. induction res as [|srv res IH]; intros i nodes st; simpl.
  { by eexists _, _. }
  unfold bind at 1, capture at 1, GetTxn at 1, engineOp at 1. simpl.
  assert (∀ n st1,
    ∃ l st',
      bind (E:=()) (capture [] (GetTxn checkTable "node" [SN_Node srv; SN_ServiceID srv]))
        (λ r, bind (capture [] (GetTxn checkTable "node" [SN_Node srv; ""]))
           (λ r0, parseCheckServiceNodes_loop res (S i)
                    (<[i:=CSN_fill n srv
                            ((parseHealthChecks 0 r.1 r.2).2 ++
                             (parseHealthChecks 0 r0.1 r0.2).2)]> nodes))) st1 =
      (inr l, st') ∧ length l = length nodes) as Hfill.
  { intros n st1. unfold bind, capture.
    destruct (GetTxn checkTable "node" [SN_Node srv; SN_ServiceID srv] st1)
      as [[e1|r1] st2];
    destruct (GetTxn checkTable "node" [SN_Node srv; ""] st2) as [[e2|r2] st3];
    match goal with
    | |- context [parseCheckServiceNodes_loop res (S i) ?ns ?st] =>
        destruct (IH (S i) ns st) as (l & st' & -> & Hl)
    end;
    (eexists _, _; split; [done|]; by rewrite Hl, length_insert). }
  destruct (txFaults st) as [|[] fs]; simpl.
  - destruct (tbl_get _ _ _) as [|n [|n' l]]; simpl; [apply IH|apply Hfill|apply IH].
  - apply IH.
  - destruct (tbl_get _ _ _) as [|n [|n' l]]; simpl; [apply IH|apply Hfill|apply IH].
Qed.

(** The length half of C10 under engine faults during the joins: once the
    service rows have been read, the result has one element per row. *)
Lemma service_queries_length faults service tag s :
  let run := false :: false :: false :: faults in
  (∃ idx nodes, ServiceNodes run service s = Some (idx, nodes) ∧
     length nodes = length (services_named service s)) ∧
  (∃ idx nodes, ServiceTagNodes run service tag s = Some (idx, nodes) ∧
     length nodes = length (services_tagged service tag s)) ∧
  (∃ idx nodes, CheckServiceNodes run service s = Some (idx, nodes) ∧
     length nodes = length (services_named service s)) ∧
  (∃ idx nodes, CheckServiceTagNodes run service tag s = Some (idx, nodes) ∧
     length nodes = length (services_tagged service tag s)).
Proof.
  pose proof (services_get_service service s _ eq_refl) as Hnamed.
  assert (serviceTagFilter
            (tbl_get (mkIndex false true false "" ["ServiceName"] DefaultIndexFunc
                        (λ _ r, [SN_ServiceName r])) [service] (db_services s)) tag
          ≡ₚ services_tagged service tag s) as Htagged.
  { rewrite serviceTagFilter_perm, <- services_tagged_perm. by rewrite Hnamed. }
  apply Permutation_length in Hnamed, Htagged.
  simpl. split; [|split; [|split]].
  - unfold ServiceNodes, StartTxn, runQuery, bind, orPanic, orReturn, capture,
      LastIndexTxnAll, GetTxn, engineOp, parseServiceNodes. simpl.
    match goal with
    | |- context [parseServiceNodes_loop nodeTable ?res ?i ?ns ?st] =>
        destruct (parseServiceNodes_loop_length res i ns st) as (l & st' & -> & Hl)
    end.
    eexists _, _. split; [done|]. by rewrite Hl, length_replicate.
  - unfold ServiceTagNodes, StartTxn, runQuery, bind, orPanic, orReturn, capture,
      LastIndexTxnAll, GetTxn, engineOp, parseServiceNodes. simpl.
    match goal with
    | |- context [parseServiceNodes_loop nodeTable ?res ?i ?ns ?st] =>
        destruct (parseServiceNodes_loop_length res i ns st) as (l & st' & -> & Hl)
    end.
    eexists _, _. split; [done|]. by rewrite Hl, length_replicate.
  - unfold CheckServiceNodes, StartTxn, runQuery, bind, orPanic, orReturn, capture,
      LastIndexTxnAll, GetTxn, engineOp, parseCheckServiceNodes. simpl.
    match goal with
    | |- context [parseCheckServiceNodes_loop ?res ?i ?ns ?st] =>
        destruct (parseCheckServiceNodes_loop_length res i ns st) as (l & st' & -> & Hl)
    end.
    eexists _, _. split; [done|]. by rewrite Hl, length_replicate.
  - unfold CheckServiceTagNodes, StartTxn, runQuery, bind, orPanic, orReturn, capture,
      LastIndexTxnAll, GetTxn, engineOp, parseCheckServiceNodes. simpl.
    match goal with
    | |- context [parseCheckServiceNodes_loop ?res ?i ?ns ?st] =>
        destruct (parseCheckServiceNodes_loop_length res i ns st) as (l & st' & -> & Hl)
    end.
    eexists _, _. split; [done|]. by rewrite Hl, length_replicate.
Qed.

(** ** Strings *)

Lemma append_cons c a b : String c a +:+ b = String c (a +:+ b).
Proof. done. Qed.

Lemma append_nil_l a : "" +:+ a = a.
Proof. done. Qed.

Lemma append_nil_r a : a +:+ "" = a.
Proof. induction a as [|c a IH]; [done|]. by rewrite append_cons, IH. Qed.

Lemma append_assoc a b c : (a +:+ b) +:+ c = a +:+ b +:+ c.
Proof. induction a as [|x a IH]; [done|]. by rewrite !append_cons, IH. Qed.

Lemma length_append a b : String.length (a +:+ b) = String.length a + String.length b.
Proof. induction a as [|x a IH]; [done|]. rewrite append_cons. simpl. by rewrite IH. Qed.

Lemma length_zero a : String.length a = 0 → a = "".
Proof. by destruct a. Qed.

Lemma prefix_spec p s : String.prefix p s = true ↔ ∃ r, s = p +:+ r.
Proof.
  revert s. induction p as [|c p IH]; intros s; simpl.
  - split; [|by destruct s]. intros _. by exists s.
  - destruct s as [|c' s]; simpl.
    + split; [done|]. by intros [r Hr].
    + destruct (Ascii.ascii_dec c c') as [->|Hne].
      * rewrite IH. split; intros [r Hr]; exists r.
        -- by rewrite append_cons, <- Hr.
        -- rewrite append_cons in Hr. by injection Hr.
      * split; [done|]. intros [r Hr]. rewrite append_cons in Hr. by injection Hr.
Qed.

Lemma substring_all r : String.substring 0 (String.length r) r = r.
Proof. induction r as [|c r IH]; [done|]. simpl. by rewrite IH. Qed.

Lemma str_from_append p r : str_from (String.length p) (p +:+ r) = r.
Proof.
  unfold str_from. rewrite length_append.
  replace (String.length p + String.length r - String.length p)
    with (String.length r) by lia.
  induction p as [|c p IH]; [apply substring_all|].
  by rewrite append_cons.
Qed.

Lemma str_upto_append x r : str_upto (String.length x) (x +:+ r) = x.
Proof.
  unfold str_upto. induction x as [|c x IH].
  - by destruct r.
  - rewrite append_cons. simpl. by rewrite IH.
Qed.

(** [occurs sep s]: [sep] occurs in [s]. *)
Lemma index_zero sep s :
  String.index 0 sep s =
  match s with
  | "" => if String.eqb sep "" then Some 0 else None
  | String c s' =>
      if String.prefix sep s then Some 0
      else S <$> String.index 0 sep s'
  end.
Proof. destruct s as [|c s]; simpl; [by destruct sep|]. 
  destruct (String.prefix sep (String c s)); [done|].
  by destruct (String.index 0 sep s). Qed.

Lemma index_spec sep s :
  sep ≠ "" →
  match String.index 0 sep s with
  | Some i => ∃ a, first_cut sep s a ∧ String.length a = i
  | None => ¬ occurs sep s
  end.
Proof.
  intros Hsep. induction s as [|c s IH]; rewrite index_zero.
  - destruct (String.eqb_spec sep ""); [done|].
    intros (a & rest & Hs). destruct a; [|done]. by destruct sep.
  - destruct (String.prefix sep (String c s)) eqn:Hp.
    + apply prefix_spec in Hp as [r Hr]. exists "". split; [|done]. split.
      * by exists r.
      * intros a' rest' _. simpl. lia.
    + assert (∀ rest, String c s ≠ sep +:+ rest) as Hnp.
      { intros rest Hr.
        assert (String.prefix sep (String c s) = true) by (apply prefix_spec; eauto).
        congruence. }
      destruct (String.index 0 sep s) as [i|]; simpl.
      * destruct IH as (a & [[rest Hrest] Hmin] & Hlen).
        exists (String c a). split; [|by simpl; rewrite Hlen]. split.
        -- exists rest. by rewrite append_cons, <- Hrest.
        -- intros a' rest' Hs. destruct a' as [|c' a'].
           ++ by apply Hnp in Hs.
           ++ rewrite append_cons in Hs. injection Hs as -> Hs.
              simpl. apply Hmin in Hs. lia.
      * intros (a & rest & Hs). destruct a as [|c' a].
        -- by apply Hnp in Hs.
        -- rewrite append_cons in Hs. injection Hs as -> Hs.
           apply IH. by exists a, rest.
Qed.

(** ** The order on strings *)

Lemma le_nil_l s : String.le "" s.
Proof. by destruct s. Qed.

Lemma le_nil_r s : String.le s "" → s = "".
Proof. by destruct s. Qed.

Lemma le_cons c1 s1 c2 s2 :
  String.le (String c1 s1) (String c2 s2) ↔
  Ascii.compare c1 c2 = Lt ∨ (c1 = c2 ∧ String.le s1 s2).
Proof.
  unfold String.le, String.leb. simpl.
  destruct (Ascii.compare c1 c2) eqn:Hc.
  - apply Ascii.compare_eq_iff in Hc as ->. split; [by right|]. by intros [?|[_ ?]].
  - split; [by left|done].
  - split; [done|]. intros [?|[-> _]]; [done|].
    assert (Ascii.compare c2 c2 = Eq) as He by apply N.compare_refl.
    congruence.
Qed.

Lemma le_append x r : String.le x (x +:+ r).
Proof.
  induction x as [|c x IH]; [apply le_nil_l|].
  rewrite append_cons. apply le_cons. by right.
Qed.


(** Two strings in order have their prefixes in order, unless the prefix of
    the larger is a prefix of the prefix of the smaller. *)
Lemma le_prefixes x1 r1 x2 r2 :
  String.le (x1 +:+ r1) (x2 +:+ r2) → String.le x1 x2 ∨ ∃ r, x1 = x2 +:+ r.
Proof.
  revert x2. induction x1 as [|c1 x1 IH]; intros x2 Hle.
  { left. apply le_nil_l. }
  destruct x2 as [|c2 x2]; [right; by eexists|].
  rewrite !append_cons in Hle. apply le_cons in Hle as [Hlt|[-> Hle]].
  - left. apply le_cons. by left.
  - destruct (IH _ Hle) as [Hx|[r ->]].
    + left. apply le_cons. by right.
    + right. by exists r.
Qed.

Lemma str_lt_le a b : str_lt a b → String.le a b.
Proof. by intros [? _]. Qed.

(** ** The key listing *)

Lemma listKeys_step_shown prefix sep keys last ent :
  listKeys_step (String.length prefix) (String.length sep) sep (keys, last) ent =
  let key := DE_Key ent in
  if is_cut prefix sep key then
    if String.eqb last (shown_key prefix sep key) then (keys, last)
    else (keys ++ [shown_key prefix sep key], shown_key prefix sep key)
  else (keys ++ [key], last).
Proof.
  unfold listKeys_step, is_cut, shown_key. simpl.
  destruct (String.length sep =? 0); simpl; [done|].
  destruct (strings_Index _ _) as [idx|]; simpl; [|done].
  by destruct (String.eqb last _).
Qed.

Lemma append_inv_length u r v r' :
  u +:+ r = v +:+ r' → String.length u ≤ String.length v → ∃ x, v = u +:+ x.
Proof.
  revert v. induction u as [|c u IH]; intros v He Hl; [by exists v|].
  destruct v as [|c' v]; [simpl in Hl; lia|].
  rewrite !append_cons in He. injection He as -> He.
  destruct (IH v He) as [x ->]; [simpl in Hl; lia|]. by exists x.
Qed.

Lemma append_inv_same_length u r v r' :
  u +:+ r = v +:+ r' → String.length u = String.length v → u = v.
Proof.
  intros He Hl. destruct (append_inv_length u r v r' He) as [x ->]; [lia|].
  rewrite length_append in Hl. assert (x = "") as -> by (apply length_zero; lia).
  by rewrite append_nil_r.
Qed.

Lemma first_cut_unique sep s a a' : first_cut sep s a → first_cut sep s a' → a = a'.
Proof.
  intros [[r Hr] Hmin] [[r' Hr'] Hmin'].
  apply (append_inv_same_length a (sep +:+ r) a' (sep +:+ r')); [congruence|].
  apply Nat.le_antisymm; [by eapply Hmin|by eapply Hmin'].
Qed.

(** The computed [shown_key] of a key with the prefix, case by case. *)
Lemma shown_key_cases prefix sep after :
  let key := prefix +:+ after in
  (sep = "" ∧ is_cut prefix sep key = false ∧ shown_key prefix sep key = key) ∨
  (sep ≠ "" ∧ ¬ occurs sep after ∧
   is_cut prefix sep key = false ∧ shown_key prefix sep key = key) ∨
  (sep ≠ "" ∧ ∃ a, first_cut sep after a ∧
   is_cut prefix sep key = true ∧ shown_key prefix sep key = prefix +:+ a +:+ sep).
Proof.
  intros key. unfold is_cut, shown_key, strings_Index, key.
  rewrite str_from_append.
  destruct (String.length sep =? 0) eqn:Hl.
  { left. apply Nat.eqb_eq, length_zero in Hl. done. }
  assert (sep ≠ "") as Hsep by (intros ->; done).
  right. pose proof (index_spec sep after Hsep) as Hi.
  destruct (String.index 0 sep after) as [i|]; simpl.
  - right. split; [done|]. destruct Hi as (a & Hcut & Hlen). exists a.
    split; [done|]. split; [done|].
    destruct Hcut as [[rest ->] _]. subst i.
    replace (prefix +:+ a +:+ sep +:+ rest) with ((prefix +:+ a +:+ sep) +:+ rest)
      by by rewrite !append_assoc.
    replace (String.length prefix + String.length a + String.length sep)
      with (String.length (prefix +:+ a +:+ sep))
      by (rewrite !length_append; lia).
    apply str_upto_append.
  - left. done.
Qed.

Lemma shown_key_collapsed prefix sep after :
  collapsed prefix sep (prefix +:+ after) (shown_key prefix sep (prefix +:+ after)).
Proof.
  exists after. split; [done|].
  destruct (shown_key_cases prefix sep after)
    as [(? & _ & ->)|[(? & ? & _ & ->)|(? & a & ? & _ & ->)]]; eauto 10.
Qed.

Lemma collapsed_shown_key prefix sep key x :
  collapsed prefix sep key x → x = shown_key prefix sep key.
Proof.
  intros (after & -> & Hx).
  destruct (shown_key_cases prefix sep after)
    as [(Hs & _ & ->)|[(Hs & Hno & _ & ->)|(Hs & a & Hcut & _ & ->)]];
    destruct Hx as [(Hs' & ->)|[(Hs' & Hno' & ->)|(Hs' & a' & Hcut' & ->)]];
    try done.
  - destruct Hno. destruct Hcut' as [[rest ->] _]. by exists a', rest.
  - destruct Hno'. destruct Hcut as [[rest ->] _]. by exists a, rest.
  - by rewrite (first_cut_unique _ _ _ _ Hcut Hcut').
Qed.

(** The shown key is a prefix of its key. *)
Lemma shown_key_prefix prefix sep after :
  ∃ r, prefix +:+ after = shown_key prefix sep (prefix +:+ after) +:+ r.
Proof.
  destruct (shown_key_cases prefix sep after)
    as [(? & _ & ->)|[(? & ? & _ & ->)|(? & a & [[rest ->] _] & _ & ->)]].
  - exists "". by rewrite append_nil_r.
  - exists "". by rewrite append_nil_r.
  - exists rest. by rewrite !append_assoc.
Qed.

(** A key that begins with the cut of another key is cut at the same place. *)
Lemma shown_key_same_cut prefix sep after1 after2 r :
  is_cut prefix sep (prefix +:+ after2) = true →
  prefix +:+ after1 = shown_key prefix sep (prefix +:+ after2) +:+ r →
  is_cut prefix sep (prefix +:+ after1) = true ∧
  shown_key prefix sep (prefix +:+ after1) = shown_key prefix sep (prefix +:+ after2).
Proof.
  intros Hc2 He.
  destruct (shown_key_cases prefix sep after2)
    as [(? & Hn & _)|[(? & ? & Hn & _)|(Hsep & a & Hcut & _ & Hs2)]];
    [congruence..|].
  rewrite Hs2 in He |- *. rewrite !append_assoc in He.
  apply String.app_inj in He. subst after1.
  assert (first_cut sep (a +:+ sep +:+ r) a) as Hcut1.
  { split; [by exists r|]. intros a' rest' He'.
    destruct (decide (String.length a ≤ String.length a')) as [|Hlt]; [done|].
    exfalso. destruct Hcut as [[rest2 ->] Hmin].
    destruct (append_inv_length (a' +:+ sep) rest' (a +:+ sep) r) as [x Hx].
    { by rewrite !append_assoc. }
    { rewrite !length_append. lia. }
    assert (String.length a ≤ String.length a'); [|lia].
    apply (Hmin a' (x +:+ rest2)).
    rewrite <- (append_assoc a sep), Hx. by rewrite !append_assoc. }
  destruct (shown_key_cases prefix sep (a +:+ sep +:+ r))
    as [(? & _)|[(_ & Hno & _)|(_ & a1 & Hcut1' & -> & ->)]]; [done| |].
  - destruct Hno. by exists a, r.
  - by rewrite (first_cut_unique _ _ _ _ Hcut1 Hcut1').
Qed.

(** A key shown in full is not the cut of another key. *)
Lemma shown_key_full_not_cut prefix sep after1 after2 :
  is_cut prefix sep (prefix +:+ after1) = false →
  is_cut prefix sep (prefix +:+ after2) = true →
  prefix +:+ after1 ≠ shown_key prefix sep (prefix +:+ after2).
Proof.
  intros Hc1 Hc2 He.
  destruct (shown_key_same_cut prefix sep after1 after2 "") as [Hc _]; [done| |].
  - by rewrite append_nil_r.
  - congruence.
Qed.

Lemma shown_key_cut_nonempty prefix sep after :
  is_cut prefix sep (prefix +:+ after) = true →
  shown_key prefix sep (prefix +:+ after) ≠ "".
Proof.
  intros Hc.
  destruct (shown_key_cases prefix sep after)
    as [(? & Hn & _)|[(? & ? & Hn & _)|(Hsep & a & _ & _ & ->)]]; [congruence..|].
  intros He. apply (f_equal String.length) in He.
  rewrite !length_append in He. destruct sep; [done|]. simpl in He. lia.
Qed.

(** Keys in order are shown in order. *)
Lemma shown_key_mono prefix sep after1 after2 :
  String.le (prefix +:+ after1) (prefix +:+ after2) →
  String.le (shown_key prefix sep (prefix +:+ after1))
            (shown_key prefix sep (prefix +:+ after2)).
Proof.
  intros Hle.
  destruct (shown_key_prefix prefix sep after1) as [r1 Hr1].
  destruct (shown_key_prefix prefix sep after2) as [r2 Hr2].
  pose proof Hle as Hle'. rewrite Hr1, Hr2 in Hle'.
  destruct (le_prefixes _ _ _ _ Hle') as [|[r Hr]]; [done|].
  destruct (is_cut prefix sep (prefix +:+ after2)) eqn:Hc2.
  - destruct (shown_key_same_cut prefix sep after1 after2 (r +:+ r1)) as [_ ->];
      [done| |done].
    by rewrite Hr1 at 1; rewrite Hr, append_assoc.
  - assert (shown_key prefix sep (prefix +:+ after2) = prefix +:+ after2) as Hfull.
    { destruct (shown_key_cases prefix sep after2)
        as [(? & _ & ->)|[(? & ? & _ & ->)|(? & a & _ & ? & _)]]; [done|done|congruence]. }
    rewrite Hfull in Hr |- *.
    assert (String.le (prefix +:+ after2) (prefix +:+ after1)) as Hge.
    { rewrite Hr1, Hr, append_assoc. apply le_append. }
    assert (prefix +:+ after1 = prefix +:+ after2) as He
      by by apply (anti_symm String.le).
    rewrite He, Hfull. done.
Qed.

Lemma shown_key_full prefix sep after :
  is_cut prefix sep (prefix +:+ after) = false →
  shown_key prefix sep (prefix +:+ after) = prefix +:+ after.
Proof.
  intros Hc.
  destruct (shown_key_cases prefix sep after)
    as [(? & _ & ->)|[(? & ? & _ & ->)|(? & a & _ & ? & _)]]; [done|done|congruence].
Qed.

Lemma drain_inv_step prefix sep seen acc ent :
  drain_inv prefix sep seen acc →
  (∃ after, DE_Key ent = prefix +:+ after) →
  (∀ k, k ∈ seen → str_lt k (DE_Key ent) ∧ ∃ after, k = prefix +:+ after) →
  drain_inv prefix sep (seen ++ [DE_Key ent])
    (listKeys_step (String.length prefix) (String.length sep) sep acc ent).
Proof.
  destruct acc as [keys last]. intros (Hs & Hm & Hl) [after Hk] Hseen.
  rewrite listKeys_step_shown. simpl in *. rewrite Hk in *. clear Hk.
  set (k := prefix +:+ after) in *.
  assert (∀ k', k' ∈ seen →
            String.le (shown_key prefix sep k') (shown_key prefix sep k)) as Hmono.
  { intros k' Hin. destruct (Hseen k' Hin) as [[Hle _] [after' ->]].
    by apply shown_key_mono. }
  destruct (is_cut prefix sep k) eqn:Hc.
  - destruct (String.eqb_spec last (shown_key prefix sep k)) as [Hlast|Hlast].
    + (* the cut is the one in hand *)
      assert (∃ k0, k0 ∈ seen ∧ is_cut prefix sep k0 = true ∧
                last = shown_key prefix sep k0 ∧
                ∀ k', k' ∈ seen → is_cut prefix sep k' = true →
                      String.le (shown_key prefix sep k') last) as Hl'.
      { destruct Hl as [[He _]|Hl]; [|done].
        exfalso. apply (shown_key_cut_nonempty prefix sep after Hc).
        fold k. by rewrite <- Hlast. }
      destruct Hl' as (k0 & Hk0 & Hc0 & Hl0 & Hmax).
      split; [done|]. split.
      * intros x. rewrite Hm. split.
        -- intros (k' & Hin & <-). exists k'. split; [|done].
           apply elem_of_app. by left.
        -- intros (k' & Hin & <-). apply elem_of_app in Hin as [Hin|Hin]; [by eauto|].
           apply list_elem_of_singleton in Hin as ->. exists k0. split; [done|].
           congruence.
      * right. exists k0. split; [apply elem_of_app; by left|].
        split; [done|]. split; [done|]. intros k' Hin Hc'.
        apply elem_of_app in Hin as [Hin|Hin]; [by apply Hmax|].
        apply list_elem_of_singleton in Hin as ->. by rewrite <- Hlast.
    + (* a new cut *)
      split; [|split].
      * apply StronglySorted_app. split; [|split; [done|repeat constructor]].
        intros y x Hy Hx. apply list_elem_of_singleton in Hx as ->.
        apply Hm in Hy as (k' & Hin & <-). split; [by apply Hmono|]. intros He.
        destruct (Hseen k' Hin) as [_ [after' ->]].
        destruct (is_cut prefix sep (prefix +:+ after')) eqn:Hc'.
        -- destruct Hl as [[_ Hnone]|(k0 & Hk0 & Hc0 & Hl0 & Hmax)].
           { rewrite Hnone in Hc' by done. done. }
           apply Hlast. apply (anti_symm String.le).
           ++ rewrite Hl0. by apply Hmono.
           ++ rewrite <- He. by apply Hmax.
        -- rewrite shown_key_full in He by done.
           by apply (shown_key_full_not_cut prefix sep after' after).
      * intros x. simpl. rewrite elem_of_app, Hm, list_elem_of_singleton. split.
        -- intros [(k' & Hin & <-)| ->].
           ++ exists k'. split; [|done]. apply elem_of_app. by left.
           ++ exists k. split; [|done]. apply elem_of_app. right. by left.
        -- intros (k' & Hin & <-). apply elem_of_app in Hin as [Hin|Hin]; [by eauto|].
           apply list_elem_of_singleton in Hin as ->. by right.
      * right. exists k. split; [apply elem_of_app; right; by left|].
        split; [done|]. split; [done|]. intros k' Hin Hc'.
        apply elem_of_app in Hin as [Hin|Hin]; [by apply Hmono|].
        by apply list_elem_of_singleton in Hin as ->.
  - (* shown in full *)
    pose proof (shown_key_full prefix sep after Hc) as Hfull. fold k in Hfull.
    split; [|split].
    + apply StronglySorted_app. split; [|split; [done|repeat constructor]].
      intros y x Hy Hx. apply list_elem_of_singleton in Hx as ->.
      apply Hm in Hy as (k' & Hin & <-). split.
      * pose proof (Hmono k' Hin) as Hle. by rewrite Hfull in Hle.
      * intros He. destruct (Hseen k' Hin) as [[_ Hne] [after' ->]].
        destruct (is_cut prefix sep (prefix +:+ after')) eqn:Hc'.
        -- by apply (shown_key_full_not_cut prefix sep after after').
        -- rewrite shown_key_full in He by done. done.
    + intros x. simpl. rewrite elem_of_app, Hm, list_elem_of_singleton. split.
      * intros [(k' & Hin & <-)| ->].
        -- exists k'. split; [|done]. apply elem_of_app. by left.
        -- exists k. split; [|done]. apply elem_of_app. right. by left.
      * intros (k' & Hin & <-). apply elem_of_app in Hin as [Hin|Hin]; [by eauto|].
        apply list_elem_of_singleton in Hin as ->. by right.
    + destruct Hl as [[He Hnone]|(k0 & Hk0 & Hc0 & Hl0 & Hmax)].
      * left. split; [done|]. intros k' Hin.
        apply elem_of_app in Hin as [Hin|Hin]; [by apply Hnone|].
        by apply list_elem_of_singleton in Hin as ->.
      * right. exists k0. split; [apply elem_of_app; by left|].
        split; [done|]. split; [done|]. intros k' Hin Hc'.
        apply elem_of_app in Hin as [Hin|Hin]; [by apply Hmax|].
        apply list_elem_of_singleton in Hin as ->. congruence.
Qed.

Lemma drain_inv_fold prefix sep ents seen acc :
  drain_inv prefix sep seen acc →
  StronglySorted str_lt (seen ++ (DE_Key <$> ents)) →
  Forall (λ k, ∃ after, k = prefix +:+ after) (seen ++ (DE_Key <$> ents)) →
  drain_inv prefix sep (seen ++ (DE_Key <$> ents))
    (foldl (listKeys_step (String.length prefix) (String.length sep) sep) acc ents).
Proof.
  revert seen acc. induction ents as [|ent ents IH]; intros seen acc Hinv Hs Hp.
  { simpl. by rewrite app_nil_r. }
  rewrite fmap_cons, cons_middle, app_assoc in Hs, Hp |- *. simpl.
  apply IH; [|done|done].
  apply StronglySorted_app in Hs as (_ & Hs & _).
  apply Forall_app in Hp as [Hp _].
  apply StronglySorted_app in Hs as (Hlt & _ & _).
  apply Forall_app in Hp as [Hp1 Hp2].
  apply drain_inv_step; [done| |].
  - by inversion Hp2.
  - intros k Hin. split; [apply Hlt; [done|by left]|].
    rewrite Forall_forall in Hp1. by apply Hp1.
Qed.

Lemma StronglySorted_filter {A} (R : relation A) (P : A → Prop)
    `{!∀ x, Decision (P x)} (l : list A) :
  StronglySorted R l → StronglySorted R (filter P l).
Proof.
  induction 1 as [|x l Hs IH Hall]; [constructor|].
  rewrite filter_cons. destruct (decide (P x)); [|done].
  constructor; [done|]. rewrite Forall_forall in Hall |- *.
  intros y [_ Hy]%list_elem_of_filter. by apply Hall.
Qed.

Lemma StronglySorted_strict {A} (R : relation A) (l : list A) :
  StronglySorted R l → NoDup l → StronglySorted (λ x y, R x y ∧ x ≠ y) l.
Proof.
  induction 1 as [|x l Hs IH Hall]; intros Hnd; [constructor|].
  apply NoDup_cons in Hnd as [Hx Hnd]. constructor; [by apply IH|].
  rewrite Forall_forall in Hall |- *. intros y Hy. split; [by apply Hall|].
  by intros ->.
Qed.

(** The stream of a prefix scan over a well-keyed kvs table: the stored keys
    with the prefix, in strictly ascending order. *)
Lemma kvs_prefix_stream prefix s ix :
  kvs_wf s →
  getIndex "id_prefix" (Indexes kvsTable) = Some ix →
  let keys := DE_Key <$> tbl_get ix [prefix] (db_kvs s) in
  StronglySorted str_lt keys ∧
  Forall (λ k, ∃ after, k = prefix +:+ after) keys ∧
  ∀ k, k ∈ keys ↔ is_Some (kvs_entry s k) ∧ String.prefix prefix k = true.
Proof.
  intros Hwf [= <-]. unfold tbl_get.
  set (P := λ kr : string * DirEntry,
         matches (mkIndex false false true "id" ["Key"] DefaultIndexPrefixFunc
                    (λ k _, [k])) [prefix] kr = true).
  assert (DE_Key <$> (filter P (scan (rows (db_kvs s)))).*2 =
          (filter P (scan (rows (db_kvs s)))).*1) as ->.
  { rewrite <- list_fmap_compose. apply list_fmap_ext.
    intros i [k d] Hin. simpl.
    apply list_elem_of_lookup_2, list_elem_of_filter in Hin as [_ Hin].
    apply elem_of_scan in Hin. by apply Hwf in Hin. }
  split; [|split].
  - apply (StronglySorted_fmap fst (λ x y : string * DirEntry, row_le x y ∧ x.1 ≠ y.1)).
    { by intros [k1 d1] [k2 d2] [? ?]. }
    apply StronglySorted_filter.
    pose proof (scan_sorted (rows (db_kvs s))) as Hs.
    pose proof (NoDup_scan_keys (rows (db_kvs s))) as Hnd.
    induction Hs as [|x l Hs IH Hall]; [constructor|].
    rewrite fmap_cons in Hnd. apply NoDup_cons in Hnd as [Hx Hnd].
    constructor; [by apply IH|].
    rewrite Forall_forall in Hall |- *. intros y Hy. split; [by apply Hall|].
    intros He. apply Hx. rewrite He. by apply list_elem_of_fmap_2.
  - apply Forall_fmap, Forall_forall. intros [k d] [Hp _]%list_elem_of_filter.
    simpl. by apply prefix_spec.
  - intros k. rewrite list_elem_of_fmap. split.
    + intros ([k' d] & -> & [Hp Hin]%list_elem_of_filter). simpl.
      apply elem_of_scan in Hin. split; [by eexists|done].
    + intros [[d Hd] Hp]. exists (k, d). split; [done|].
      apply list_elem_of_filter. split; [done|]. by apply elem_of_scan.
Qed.

Lemma KVSListKeys_noFaults prefix sep s :
  KVSListKeys noFaults prefix sep s =
  (lastIndex (db_kvs s),
   listKeys_drain prefix sep
     (tbl_get (mkIndex false false true "id" ["Key"] DefaultIndexPrefixFunc
                 (λ k _, [k])) [prefix] (db_kvs s)),
   None).
Proof. reflexivity. Qed.

Lemma kvs_wf_empty : kvs_wf emptyDB.
Proof. apply map_Forall_empty. Qed.

Lemma kvs_wf_written index d s : kvs_wf s → kvs_wf (kvs_written index d s).
Proof.
  intros Hwf. unfold kvs_wf, kvs_written, tbl_setLastIndex, tbl_insert. simpl.
  by apply map_Forall_insert_2.
Qed.

Lemma example_kvs_store_wf : kvs_wf example_kvs_store.
Proof.
  apply (bool_decide_unpack _). by vm_compute.
Qed.

(** C6: over a well-keyed kvs table the listing returns, in strictly
    ascending order (hence without duplicates), exactly the shown forms of
    the stored keys that begin with the prefix: the key cut after the first
    seperator behind the prefix, the whole key when no seperator follows the
    prefix or the seperator is empty.  On the five keys of the example the
    listing of "foo/" by "/" is foo/a, foo/a/, foo/b, foo/b/. *)
Theorem KVSListKeys_spec :
  (∀ prefix seperator s, kvs_wf s →
     ∃ keys, KVSListKeys noFaults prefix seperator s =
             (lastIndex (db_kvs s), keys, None) ∧
       StronglySorted str_lt keys ∧
       ∀ x, x ∈ keys ↔
            ∃ key, is_Some (kvs_entry s key) ∧ String.prefix prefix key = true ∧
                   collapsed prefix seperator key x) ∧
  KVSListKeys noFaults "foo/" "/" example_kvs_store =
    (7%N, ["foo/a"; "foo/a/"; "foo/b"; "foo/b/"], None).
Proof.
  split; [|by vm_compute].
  intros prefix sep s Hwf. rewrite KVSListKeys_noFaults.
  eexists. split; [reflexivity|].
  destruct (kvs_prefix_stream prefix s _ Hwf eq_refl) as (Hs & Hp & Hin).
  simpl in Hs, Hp, Hin.
  match type of Hs with
  | StronglySorted _ (_ <$> ?stream) =>
      destruct (drain_inv_fold prefix sep stream [] ([], ""))
        as (Hsorted & Hmem & _); [|exact Hs|exact Hp|]
  end.
  { split; [constructor|]. split; [|left; split; [done|]; by intros k ?%elem_of_nil].
    intros x. split; [by intros ?%elem_of_nil|]. by intros (k & ?%elem_of_nil & _). }
  split; [exact Hsorted|]. intros x. unfold listKeys_drain. rewrite Hmem. split.
  - intros (k & Hk & <-). exists k. apply Hin in Hk as [Hst Hpre].
    split; [done|]. split; [done|].
    apply prefix_spec in Hpre as [after ->]. apply shown_key_collapsed.
  - intros (k & Hst & Hpre & Hc). exists k. split; [by apply Hin|].
    symmetry. by apply collapsed_shown_key.
Qed.

Lemma KVSListKeys_spec_witness :
  ∃ keys, KVSListKeys noFaults "foo/a" "/" example_kvs_store = (7%N, keys, None) ∧
    StronglySorted str_lt keys ∧
    ∀ x, x ∈ keys ↔
         ∃ key, is_Some (kvs_entry example_kvs_store key) ∧
                String.prefix "foo/a" key = true ∧ collapsed "foo/a" "/" key x.
Proof.
  apply (proj1 KVSListKeys_spec "foo/a" "/" example_kvs_store).
  apply (bool_decide_unpack _). vm_compute. exact I.
Defined.

(** ** Instances of the statements *)

Lemma KVSCheckAndSet_succeeds_iff_witness :
  cas_condition example_cas_store (mkDirEntry 0 20 "c" 0 []).
Proof.
  apply (proj2 (KVSCheckAndSet_succeeds_iff 22 (mkDirEntry 0 20 "c" 0 [])
                  example_cas_store) noFaults).
  vm_compute. reflexivity.
Defined.

Lemma KVSCheckAndSet_failure_clean_witness :
  KVSCheckAndSet noFaults 23 (mkDirEntry 0 0 "c" 0 []) example_cas_store =
  Returned (false, None) example_cas_store [].
Proof.
  apply (proj1 (KVSCheckAndSet_failure_clean 23 (mkDirEntry 0 0 "c" 0 [])
                  example_cas_store)).
  rewrite cas_condition_tests. vm_compute. intros [H _]. discriminate H.
Defined.

Lemma service_queries_one_element_per_row_witness :
  joinNode example_orphan_store example_orphan_service = zeroServiceNode ∧
  joinCheckNode example_orphan_store example_orphan_service = zeroCheckServiceNode.
Proof.
  apply (proj2 (proj2 (proj2 (proj2
           (service_queries_one_element_per_row "web" "a" example_orphan_store))))).
  reflexivity.
Defined.

(** The service row of the unregistered node is answered by a zero value. *)
Example ServiceNodes_orphan :
  ServiceNodes noFaults "web" example_orphan_store = Some (0%N, [zeroServiceNode]) ∧
  CheckServiceTagNodes noFaults "web" "a" example_orphan_store =
    Some (0%N, [zeroCheckServiceNode]).
Proof. split; by vm_compute. Qed.

(** ** Lookups through [Get] *)

Section get_facts.
Context {K : Type} `{Countable K} `{!KeyOrder K} {R : Type}.
Implicit Types (t : TableState K R) (ix : MDBIndex K R).

(** The rows a lookup returns are the rows of the table that match. *)
Lemma elem_of_tbl_get ix parts t r :
  r ∈ tbl_get ix parts t ↔
  ∃ k, rows t !! k = Some r ∧ matches ix parts (k, r) = true.
Proof.
  unfold tbl_get. rewrite list_elem_of_fmap. split.
  - intros ([k r'] & -> & Hin). apply list_elem_of_filter in Hin as [Hm Hin].
    apply elem_of_scan in Hin. by exists k.
  - intros (k & Hk & Hm). exists (k, r). split; [done|].
    apply list_elem_of_filter. split; [done|]. by apply elem_of_scan.
Qed.

Lemma Get_noFaults (tb : MDBTable K R) index parts s ix :
  getIndex index (Indexes tb) = Some ix →
  Get noFaults tb index parts s =
  (lastIndex (tget tb s), tbl_get ix parts (tget tb s), None).
Proof.
  intros Hix. unfold Get, noFaults, StartTxn, bind, orReturn, LastIndexTxn, GetTxn,
    engineOp. simpl. by rewrite Hix.
Qed.

(** Under any fault schedule a lookup answers as without faults, or fails
    with the zero values. *)
Lemma Get_faults faults (tb : MDBTable K R) index parts s :
  Get faults tb index parts s = Get noFaults tb index parts s ∨
  ∃ err, Get faults tb index parts s = (0%N, [], Some err).
Proof.
  unfold Get, noFaults, StartTxn, bind, orReturn, LastIndexTxn, GetTxn, engineOp.
  destruct (getIndex index (Indexes tb)) as [ix|].
  all: destruct faults as [|[] faults]; simpl;
    [left; reflexivity|right; eexists; reflexivity|].
  all: destruct faults as [|[] faults]; simpl;
    [left; reflexivity|right; eexists; reflexivity|].
  all: destruct faults as [|[] faults]; simpl;
    [left; reflexivity|right; eexists; reflexivity|].
  all: left; reflexivity.
Qed.
End get_facts.

Lemma GetNode_noFaults name s :
  GetNode noFaults name s =
  match rows (db_nodes s) !! name with
  | Some n => (lastIndex (db_nodes s), true, Node_Address n)
  | None => (lastIndex (db_nodes s), false, "")
  end.
Proof.
  unfold GetNode. rewrite (Get_noFaults nodeTable "id" _ _ _ eq_refl). simpl.
  rewrite (nodes_get_id _ _ _ eq_refl).
  by destruct (rows (db_nodes s) !! name).
Qed.

(** X1: [GetNode] reports a registered node with its address and an
    unregistered name as not found, both with the watermark of the nodes
    table; when the lookup fails it answers (0, false, ""). *)
Theorem GetNode_spec name s :
  GetNode noFaults name s =
    match rows (db_nodes s) !! name with
    | Some n => (lastIndex (db_nodes s), true, Node_Address n)
    | None => (lastIndex (db_nodes s), false, "")
    end ∧
  ∀ faults, GetNode faults name s = GetNode noFaults name s ∨
            GetNode faults name s = (0%N, false, "").
Proof.
  split; [apply GetNode_noFaults|].
  intros faults. unfold GetNode.
  destruct (Get_faults faults nodeTable "id" [name] s) as [->|[err ->]];
    [by left|by right].
Qed.

(** ** Method bodies under fault schedules *)

Lemma sim_step_ret {E A} (a : A) : sim_step (E:=E) (ret a).
Proof. intros db fs dn. eexists _, _, _. split; [reflexivity|]. left. by eexists. Qed.

Lemma sim_step_Return {E A} (e : E) : sim_step (A:=A) (Return e).
Proof. intros db fs dn. eexists _, _, _. split; [reflexivity|]. left. by eexists. Qed.

Lemma sim_step_deferNotify {E K} `{Countable K} {R} (t : MDBTable K R) :
  sim_step (E:=E) (deferNotify t).
Proof. intros db fs dn. eexists _, _, _. split; [reflexivity|]. left. by eexists. Qed.

Lemma sim_step_engineOp {A} (f : DB → (error + A) * DB) : sim_step (engineOp f).
Proof.
  intros db fs dn. unfold engineOp. simpl.
  destruct (f db) as [r db'] eqn:Hf.
  eexists _, _, _. split; [reflexivity|].
  destruct fs as [|[] fs]; simpl; rewrite ?Hf.
  - left. by eexists.
  - right. by eexists _, _.
  - left. by eexists.
Qed.

Lemma sim_step_orReturn {E E' A} (h : E → E') (m : Tx E A) :
  sim_step m → sim_step (orReturn h m).
Proof.
  intros Hm db fs dn. destruct (Hm db fs dn) as (r0 & db0 & dn0 & H0 & Hf).
  unfold orReturn. rewrite H0.
  exists (match r0 with inl e => inl (h e) | inr a => inr a end), db0, dn0.
  split; [by destruct r0|].
  destruct Hf as [[fs' Hf]|(e & st & Hf & Hc)]; rewrite Hf.
  - left. exists fs'. by destruct r0.
  - right. by eexists _, _.
Qed.

Lemma sim_step_bind {E A B} (m : Tx E A) (f : A → Tx E B) :
  sim_step m → (∀ a, sim_step (f a)) → sim_step (bind m f).
Proof.
  intros Hm Hf db fs dn. destruct (Hm db fs dn) as (r0 & db0 & dn0 & H0 & Hr).
  unfold bind. rewrite H0. destruct r0 as [e|a].
  - exists (inl e), db0, dn0. split; [done|].
    destruct Hr as [[fs' Hr]|(e' & st & Hr & Hc)]; rewrite Hr.
    + left. by eexists.
    + right. by eexists _, _.
  - destruct Hr as [[fs' Hr]|(e' & st & Hr & Hc)]; rewrite Hr.
    + destruct (Hf a db0 fs' dn0) as (r1 & db1 & dn1 & H1 & Hr1).
      exists r1, db1, dn1. split; [done|]. done.
    + destruct (Hf a db0 [] dn0) as (r1 & db1 & dn1 & H1 & _).
      exists r1, db1, dn1. split; [done|]. right. by eexists _, _.
Qed.

Lemma sim_step_forEach {E A} (l : list A) (body : A → Tx E unit) :
  (∀ x, sim_step (body x)) → sim_step (forEach l body).
Proof.
  intros Hb. induction l as [|x l IH]; simpl.
  - apply sim_step_ret.
  - apply sim_step_bind; [apply Hb|]. intros _. apply IH.
Qed.

Lemma sim_rest_step {E A} (m : Tx E A) : sim_step m → sim_rest m.
Proof.
  intros Hm db fs dn. destruct (Hm db fs dn) as (r0 & db0 & dn0 & H0 & Hr).
  rewrite H0. destruct Hr as [[fs' Hr]|(e & st & Hr & Hc)]; rewrite Hr.
  - by left.
  - by right.
Qed.

Lemma sim_rest_Commit {E} : sim_rest (E:=E) Commit.
Proof.
  intros db fs dn. unfold Commit. simpl.
  destruct fs as [|[] fs]; simpl; [by left|by right|by left].
Qed.

Lemma sim_rest_bind {E A B} (m : Tx E A) (f : A → Tx E B) :
  sim_step m → (∀ a, sim_rest (f a)) → sim_rest (bind m f).
Proof.
  intros Hm Hf db fs dn. destruct (Hm db fs dn) as (r0 & db0 & dn0 & H0 & Hr).
  unfold bind. rewrite H0.
  destruct Hr as [[fs' Hr]|(e' & st & Hr & Hc)]; rewrite Hr.
  - destruct r0 as [e|a]; [by left|]. apply (Hf a db0 fs' dn0).
  - destruct r0 as [e|a]; [by right|].
    destruct (f a _) as [r1 st1]. by right.
Qed.

(** The value a commit returns does not matter to what is committed. *)
Lemma sim_rest_Commit_then {E A} (g : option error → A) :
  sim_rest (E:=E) (bind Commit (λ err, ret (g err))).
Proof.
  intros db fs dn. unfold bind, Commit, ret. simpl.
  destruct fs as [|[] fs]; simpl; [by left|by right|by left].
Qed.

Lemma sim_step_uniqueIDLoop fuel id : sim_step (uniqueIDLoop fuel id).
Proof.
  induction fuel as [|fuel IH]; simpl.
  - apply sim_step_Return.
  - apply sim_step_bind; [apply sim_step_orReturn, sim_step_engineOp|].
    intros res. destruct (length res =? 0)%nat; [apply sim_step_ret|apply IH].
Qed.

Lemma sim_step_verifyCheck node c : sim_step (verifyCheck node c).
Proof.
  unfold verifyCheck.
  apply sim_step_bind; [apply sim_step_orReturn, sim_step_engineOp|].
  intros [|chk res]; [apply sim_step_Return|].
  destruct (String.eqb _ _); [apply sim_step_Return|apply sim_step_ret].
Qed.

Lemma sim_step_touchIfDeleted {K} `{Countable K} `{!KeyOrder K} {R}
    (t : MDBTable K R) index n : sim_step (touchIfDeleted t index n).
Proof.
  unfold touchIfDeleted. destruct (0 <? n)%nat; [|apply sim_step_ret].
  apply sim_step_bind; [apply sim_step_engineOp|].
  intros _. apply sim_step_deferNotify.
Qed.

(** Take a method body apart, statement by statement. *)
Ltac sim :=
  repeat first
    [ apply sim_rest_Commit
    | apply sim_rest_Commit_then
    | apply sim_rest_bind; [|intros ?]
    | apply sim_step_bind; [|intros ?]
    | apply sim_step_touchIfDeleted
    | apply sim_step_verifyCheck
    | apply sim_step_uniqueIDLoop
    | apply sim_step_engineOp
    | apply sim_step_orReturn
    | apply sim_step_ret
    | apply sim_step_Return
    | apply sim_step_deferNotify
    | apply sim_step_forEach; intros ?
    | match goal with
      | |- sim_rest (if ?b then _ else _) => destruct b
      | |- sim_step (if ?b then _ else _) => destruct b
      | |- sim_rest (match ?x with _ => _ end) => destruct x
      | |- sim_step (match ?x with _ => _ end) => destruct x
      end
    | apply sim_rest_step ].

(** A transaction under a fault schedule changes nothing, or ends as it does
    without faults. *)
Lemma runTxn_faults {E A} (body : Tx E A) (early : E → A) s fs :
  sim_rest body →
  store_of s (runTxn s (mkTx s fs [] false) early body) = s ∨
  runTxn s (mkTx s fs [] false) early body =
  runTxn s (mkTx s [] [] false) early body.
Proof.
  intros Hb. specialize (Hb s fs []). unfold runTxn.
  destruct (body (mkTx s [] [] false)) as [r0 st0].
  destruct (body (mkTx s fs [] false)) as [r st].
  destruct Hb as [(-> & -> & -> & ->)|Hc].
  - by right.
  - left. simpl. by rewrite Hc.
Qed.

Lemma StartTxn_cases faults s :
  StartTxn faults s = inl EngineFault ∨
  ∃ fs, StartTxn faults s = inr (mkTx s fs [] false).
Proof. destruct faults as [|[] fs]; simpl; eauto. Qed.

Ltac txn_cases faults s :=
  let fs := fresh "fs" in
  let Hs := fresh "Hs" in
  destruct (StartTxn_cases faults s) as [Hs|[fs Hs]]; rewrite Hs;
  [by left|
   change (StartTxn noFaults s) with (@inr error _ (mkTx s [] [] false))].

Lemma EnsureNode_faults faults index node s :
  store_of s (EnsureNode faults index node s) = s ∨
  EnsureNode faults index node s = EnsureNode noFaults index node s.
Proof.
  unfold EnsureNode. txn_cases faults s. apply runTxn_faults. sim.
Qed.

Lemma EnsureService_faults faults index node ns s :
  store_of s (EnsureService faults index node ns s) = s ∨
  EnsureService faults index node ns s = EnsureService noFaults index node ns s.
Proof.
  unfold EnsureService. txn_cases faults s. apply runTxn_faults. sim.
Qed.

Lemma EnsureCheck_faults faults index check s :
  store_of s (EnsureCheck faults index check s) = s ∨
  EnsureCheck faults index check s = EnsureCheck noFaults index check s.
Proof.
  unfold EnsureCheck. txn_cases faults s. apply runTxn_faults. sim.
Qed.

Lemma runDelete_faults faults index op s :
  store_of s (runDelete faults index op s) = s ∨
  runDelete faults index op s = runDelete noFaults index op s.
Proof.
  destruct op as [node id|node|node id|key|prefix]; simpl.
  - unfold DeleteNodeService. txn_cases faults s. apply runTxn_faults. sim.
  - unfold DeleteNode. txn_cases faults s. apply runTxn_faults. sim.
  - unfold DeleteNodeCheck. txn_cases faults s. apply runTxn_faults. sim.
  - unfold KVSDelete, kvsDeleteWithIndex. txn_cases faults s.
    apply runTxn_faults. sim.
  - unfold KVSDeleteTree, kvsDeleteWithIndex. destruct (String.eqb prefix "").
    all: txn_cases faults s; apply runTxn_faults; sim.
Qed.

Lemma KVSSet_all_or_nothing faults index d s :
  store_of s (KVSSet faults index d s) = s ∨
  KVSSet faults index d s = KVSSet noFaults index d s.
Proof.
  unfold KVSSet. txn_cases faults s. apply runTxn_faults. sim.
Qed.

Lemma KVSRestore_faults faults d s :
  store_of s (KVSRestore faults d s) = s ∨
  KVSRestore faults d s = KVSRestore noFaults d s.
Proof.
  unfold KVSRestore. txn_cases faults s. apply runTxn_faults. sim.
Qed.

Lemma KVSCheckAndSet_all_or_nothing faults index d s :
  store_of s (KVSCheckAndSet faults index d s) = s ∨
  KVSCheckAndSet faults index d s = KVSCheckAndSet noFaults index d s.
Proof.
  unfold KVSCheckAndSet. txn_cases faults s. apply runTxn_faults. sim.
Qed.

Lemma SessionRestore_faults faults session s :
  store_of s (SessionRestore faults session s) = s ∨
  SessionRestore faults session s = SessionRestore noFaults session s.
Proof.
  unfold SessionRestore. txn_cases faults s. apply runTxn_faults. sim.
Qed.

Lemma SessionCreate_faults fuel uuid faults index session s o :
  SessionCreate fuel uuid faults index session s = Some o →
  store_of s o = s ∨ SessionCreate fuel uuid noFaults index session s = Some o.
Proof.
  unfold SessionCreate.
  destruct (StartTxn_cases faults s) as [Hs|[fs Hs]]; rewrite Hs.
  { intros [= <-]. by left. }
  change (StartTxn noFaults s) with (@inr error _ (mkTx s [] [] false)).
  cbv zeta.
  match goal with
  | |- context [let '(r, tx') := ?body (mkTx s fs [] false) in _] =>
      set (B := body)
  end.
  assert (sim_rest B) as Hb by (subst B; simpl; sim).
  clearbody B. cbv beta iota.
  specialize (Hb s fs []).
  destruct (B (mkTx s [] [] false)) as [r0 st0].
  destruct (B (mkTx s fs [] false)) as [r st].
  destruct Hb as [(-> & -> & -> & ->)|Hc].
  - intros Ho. by right.
  - rewrite Hc. destruct r as [[e|]|e]; simpl; intros Ho; try discriminate;
      injection Ho as <-; by left.
Qed.

(** ** Errors and the committed store *)

Lemma commit_last_step {E A} (ok : A → Prop) (m : Tx E A) :
  sim_step m → commit_last ok m.
Proof.
  intros Hm db fs dn. destruct (Hm db fs dn) as (r0 & db0 & dn0 & _ & Hr).
  destruct Hr as [[fs' Hr]|(e & st & Hr & Hc)]; rewrite Hr; simpl; [done|].
  by rewrite Hc.
Qed.

Lemma commit_last_Commit {E} : commit_last (E:=E) (λ err, err = None) Commit.
Proof.
  intros db fs dn. unfold Commit. simpl.
  destruct fs as [|[] fs]; simpl; [eauto|done|eauto].
Qed.

Lemma commit_last_Commit_then {E A} (g : option error → A) :
  commit_last (E:=E) (λ a, a = g None) (bind Commit (λ err, ret (g err))).
Proof.
  intros db fs dn. unfold bind, Commit, ret. simpl.
  destruct fs as [|[] fs]; simpl; [eauto|done|eauto].
Qed.

Lemma commit_last_bind {E A B} (ok : B → Prop) (m : Tx E A) (f : A → Tx E B) :
  sim_step m → (∀ a, commit_last ok (f a)) → commit_last ok (bind m f).
Proof.
  intros Hm Hf db fs dn. destruct (Hm db fs dn) as (r0 & db0 & dn0 & _ & Hr).
  unfold bind.
  destruct Hr as [[fs' Hr]|(e & st & Hr & Hc)]; rewrite Hr.
  - destruct r0 as [e|a]; [done|]. apply (Hf a db0 fs' dn0).
  - by rewrite Hc.
Qed.

Ltac commits :=
  repeat first
    [ apply commit_last_Commit
    | apply commit_last_Commit_then
    | apply commit_last_bind; [sim|intros ?]
    | match goal with
      | |- commit_last _ (if ?b then _ else _) => destruct b
      | |- commit_last _ (match ?x with _ => _ end) => destruct x
      end
    | apply commit_last_step; sim ].

(** A transaction that returns an error has not committed. *)
Lemma runTxn_error {E} (body : Tx E (option error)) (early : E → option error)
    s fs err s' n :
  commit_last (λ err, err = None) body →
  runTxn s (mkTx s fs [] false) early body = Returned (Some err) s' n → s' = s.
Proof.
  intros Hb. specialize (Hb s fs []). unfold runTxn.
  destruct (body (mkTx s fs [] false)) as [r st].
  intros [= Hr <- _]. destruct (txCommitted st); [|done].
  destruct Hb as (a & -> & ->); done.
Qed.

Ltac error_cases faults s :=
  let fs := fresh "fs" in
  let Hs := fresh "Hs" in
  destruct (StartTxn_cases faults s) as [Hs|[fs Hs]]; rewrite Hs;
  [congruence|apply runTxn_error; commits].

Lemma runDelete_error faults index op s err s' n :
  runDelete faults index op s = Returned (Some err) s' n → s' = s.
Proof.
  destruct op as [node id|node|node id|key|prefix]; simpl.
  - unfold DeleteNodeService. error_cases faults s.
  - unfold DeleteNode. error_cases faults s.
  - unfold DeleteNodeCheck. error_cases faults s.
  - unfold KVSDelete, kvsDeleteWithIndex. error_cases faults s.
  - unfold KVSDeleteTree, kvsDeleteWithIndex. destruct (String.eqb prefix "").
    all: error_cases faults s.
Qed.

Lemma KVSCheckAndSet_error faults index d s b err s' n :
  KVSCheckAndSet faults index d s = Returned (b, Some err) s' n → s' = s.
Proof.
  unfold KVSCheckAndSet.
  destruct (StartTxn_cases faults s) as [Hs|[fs Hs]]; rewrite Hs; [congruence|].
  match goal with
  | |- runTxn _ _ _ ?body = _ → _ =>
      assert (commit_last (λ a, a = (true, None)) body) as Hb by commits;
      specialize (Hb s fs []); unfold runTxn;
      destruct (body (mkTx s fs [] false)) as [r st]
  end.
  intros [= Hr <- _]. destruct (txCommitted st); [|done].
  destruct Hb as (a & -> & ->); done.
Qed.

Lemma SessionCreate_error fuel uuid faults index session s err s' n :
  SessionCreate fuel uuid faults index session s = Some (Returned (Some err) s' n) →
  s' = s.
Proof.
  unfold SessionCreate.
  destruct (StartTxn_cases faults s) as [Hs|[fs Hs]]; rewrite Hs; [congruence|].
  cbv zeta.
  match goal with
  | |- context [let '(r, tx') := ?body (mkTx s fs [] false) in _] =>
      assert (commit_last (λ err, err = None) body) as Hb by (simpl; commits);
      specialize (Hb s fs []);
      destruct (body (mkTx s fs [] false)) as [r st]
  end.
  destruct r as [[e|]|e]; simpl; intros Ho; try discriminate;
    injection Ho as -> <- _; (destruct (txCommitted st); [|done]);
    (destruct Hb as (a & Ha & Hn); [done|]); congruence.
Qed.

(** X2: a write method that returns an error has changed nothing: whatever
    calls of the table layer fail and wherever the method gives up, the
    committed store after the call is the store before it. *)
Theorem write_error_unchanged faults op s err s' n :
  runWrite faults op s = Some (Returned (Some err) s' n) → s' = s.
Proof.
  destruct op as [ index node | index node ns | index check | index op | index d
                 | d | index d | fuel uuid index session | session ]; simpl.
  - intros [= Ho]. revert Ho. unfold EnsureNode. error_cases faults s.
  - intros [= Ho]. revert Ho. unfold EnsureService. error_cases faults s.
  - intros [= Ho]. revert Ho. unfold EnsureCheck. error_cases faults s.
  - intros [= Ho]. by apply runDelete_error in Ho.
  - intros [= Ho]. revert Ho. unfold KVSSet. error_cases faults s.
  - intros [= Ho]. revert Ho. unfold KVSRestore. error_cases faults s.
  - destruct (KVSCheckAndSet faults index d s) as [[b e] s1 n1|] eqn:Ho; [|done].
    intros [= -> -> ->]. by apply KVSCheckAndSet_error in Ho.
  - apply SessionCreate_error.
  - intros [= Ho]. revert Ho. unfold SessionRestore. error_cases faults s.
Qed.

Lemma write_error_unchanged_witness :
  runWrite [false; false; false; false; true]
    (OpEnsureCheck 5 (mkHealthCheck "n1" "c9" "" "" "")) example_checks_store =
    Some (Returned (Some EngineFault) example_checks_store [dbChecks]) ∧
  example_checks_store = example_checks_store.
Proof.
  assert (runWrite [false; false; false; false; true]
            (OpEnsureCheck 5 (mkHealthCheck "n1" "c9" "" "" "")) example_checks_store =
          Some (Returned (Some EngineFault) example_checks_store [dbChecks])) as Hr
    by (vm_compute; reflexivity).
  split; [exact Hr|].
  exact (write_error_unchanged _ _ _ _ _ _ Hr).
Defined.

(** ** The stores the write methods commit *)

Section deleted_facts.
Context {K : Type} `{Countable K} `{!KeyOrder K} {R : Type}.
Implicit Types (t : TableState K R) (ix : MDBIndex K R).

Lemma tbl_deleted_rows index ix parts t :
  rows (tbl_deleted index ix parts t) =
  filter (λ kr, matches ix parts kr ≠ true) (rows t).
Proof.
  unfold tbl_deleted, tbl_delete. by destruct (0 <? _)%nat.
Qed.

Lemma tbl_deleted_lookup index ix parts t k :
  rows (tbl_deleted index ix parts t) !! k =
  match rows t !! k with
  | Some r => if matches ix parts (k, r) then None else Some r
  | None => None
  end.
Proof.
  rewrite tbl_deleted_rows. destruct (rows t !! k) as [r|] eqn:Hk.
  - destruct (matches ix parts (k, r)) eqn:Hm.
    + apply map_lookup_filter_None. right. intros r' Hr'. simpl.
      assert (r' = r) as -> by congruence. rewrite Hm. auto.
    + apply map_lookup_filter_Some. split; [done|]. simpl. by rewrite Hm.
  - apply map_lookup_filter_None. by left.
Qed.

Lemma tbl_deleted_lastIndex index ix parts t :
  lastIndex (tbl_deleted index ix parts t) = lastIndex t ∨
  lastIndex (tbl_deleted index ix parts t) = index.
Proof.
  unfold tbl_deleted, tbl_delete. destruct (0 <? _)%nat; [by right|by left].
Qed.
End deleted_facts.

Local Opaque tbl_delete.

Ltac delete_case t :=
  match goal with
  | |- context [tbl_delete ?ix ?p t] =>
      destruct (tbl_delete ix p t) as [? ?]; simpl;
      match goal with |- context [(0 <? ?n)%nat] => destruct (0 <? n)%nat end; simpl
  end.

Ltac unfold_delete :=
  unfold noFaults, StartTxn, runTxn, bind, DeleteTxn, touchIfDeleted,
    SetLastIndexTxn, engineOp, deferNotify, Commit, ret, tbl_deleted, schema_index;
  simpl.

Lemma runDelete_noFaults index op s :
  ∃ n, runDelete noFaults index op s = Returned None (delete_store index op s) n.
Proof.
  destruct op as [node id|node|node id|key|prefix]; simpl.
  - unfold DeleteNodeService. unfold_delete.
    delete_case (db_services s); delete_case (db_checks s); eauto.
  - unfold DeleteNode. unfold_delete.
    delete_case (db_services s); delete_case (db_checks s);
      delete_case (db_nodes s); eauto.
  - unfold DeleteNodeCheck. unfold_delete. delete_case (db_checks s); eauto.
  - unfold KVSDelete, kvsDeleteWithIndex. unfold_delete.
    delete_case (db_kvs s); eauto.
  - unfold KVSDeleteTree, kvsDeleteWithIndex.
    destruct (String.eqb prefix ""); unfold_delete; delete_case (db_kvs s); eauto.
Qed.

Local Transparent tbl_delete.

(** ** What the delete methods remove *)

Lemma matches_key2_first {R} (ix : MDBIndex (string * string) R) (a : string)
    (kr : string * string * R) :
  IdxFunc ix = DefaultIndexFunc → idxKey ix = (λ k _, [k.1; k.2]) →
  matches ix [a] kr = true ↔ kr.1.1 = a.
Proof.
  intros Hf Hk. unfold matches. rewrite Hf, Hk, bool_decide_eq_true.
  destruct kr as [[k1 k2] r]. simpl. split.
  - intros [l Hl]. simpl in Hl. by injection Hl as ->.
  - intros ->. by exists [k2].
Qed.

Lemma matches_checks_node (node id : string) (kr : string * string * HealthCheck) :
  matches (schema_index checkTable "node") [node; id] kr = true ↔
  HC_Node kr.2 = node ∧ HC_ServiceID kr.2 = id.
Proof.
  unfold matches, schema_index. simpl. rewrite bool_decide_eq_true. split.
  - intros [l Hl]. simpl in Hl. by injection Hl as -> ->.
  - intros [<- <-]. by exists [].
Qed.

Lemma matches_kvs_prefix (prefix : string) (kr : string * DirEntry) :
  matches (schema_index kvsTable "id_prefix") [prefix] kr = String.prefix prefix kr.1.
Proof. done. Qed.

Lemma matches_kvs_all (kr : string * DirEntry) :
  matches (schema_index kvsTable "id") [] kr = true.
Proof.
  reflexivity.
Qed.

Lemma matches_iff_decide {K R} (ix : MDBIndex K R) parts (kr : K * R) (P : Prop)
    `{!Decision P} {A} (x y : A) :
  (matches ix parts kr = true ↔ P) →
  (if matches ix parts kr then x else y) = (if decide P then x else y).
Proof.
  intros Hm. destruct (matches ix parts kr); destruct (decide P); try done.
  - destruct n. by apply Hm.
  - by apply Hm in p.
Qed.

(** X3: [DeleteNode] cascades.  It removes the row of the node, every
    services row and every checks row stored under the node, and nothing
    else: the rows of other nodes stay, and so do the KV entries, the
    sessions of the node and their check mappings. *)
Theorem DeleteNode_cascade index node s :
  ∃ s' n, DeleteNode noFaults index node s = Returned None s' n ∧
    (∀ k, rows (db_nodes s') !! k =
          if decide (k = node) then None else rows (db_nodes s) !! k) ∧
    (∀ k, rows (db_services s') !! k =
          if decide (k.1 = node) then None else rows (db_services s) !! k) ∧
    (∀ k, rows (db_checks s') !! k =
          if decide (k.1 = node) then None else rows (db_checks s) !! k) ∧
    db_kvs s' = db_kvs s ∧ db_sessions s' = db_sessions s ∧
    db_sessionChecks s' = db_sessionChecks s.
Proof.
  destruct (runDelete_noFaults index (OpDeleteNode node) s) as [n Hn].
  simpl in Hn. eexists _, n. split; [exact Hn|]. simpl.
  split; [|split; [|split; [|done]]]; intros k; rewrite tbl_deleted_lookup.
  - destruct (rows (db_nodes s) !! k) as [r|]; [|by destruct (decide _)].
    apply matches_iff_decide. by apply (matches_key1 _ node (k, r)).
  - destruct (rows (db_services s) !! k) as [r|]; [|by destruct (decide _)].
    apply matches_iff_decide. by apply (matches_key2_first _ node (k, r)).
  - destruct (rows (db_checks s) !! k) as [r|]; [|by destruct (decide _)].
    apply matches_iff_decide. by apply (matches_key2_first _ node (k, r)).
Qed.

(** X4: [DeleteNodeService] removes the services row stored under
    (node, id) and the checks rows whose Node and ServiceID are the node and
    the id; every other row of the two tables stays, and no other table
    changes. *)
Theorem DeleteNodeService_rows index node id s :
  ∃ s' n, DeleteNodeService noFaults index node id s = Returned None s' n ∧
    (∀ k, rows (db_services s') !! k =
          if decide (k = (node, id)) then None else rows (db_services s) !! k) ∧
    (∀ k, rows (db_checks s') !! k =
          match rows (db_checks s) !! k with
          | Some c => if decide (HC_Node c = node ∧ HC_ServiceID c = id)
                      then None else Some c
          | None => None
          end) ∧
    db_nodes s' = db_nodes s ∧ db_kvs s' = db_kvs s ∧
    db_sessions s' = db_sessions s ∧ db_sessionChecks s' = db_sessionChecks s.
Proof.
  destruct (runDelete_noFaults index (OpDeleteNodeService node id) s) as [n Hn].
  simpl in Hn. eexists _, n. split; [exact Hn|]. simpl.
  split; [|split; [|done]]; intros k; rewrite tbl_deleted_lookup.
  - destruct (rows (db_services s) !! k) as [r|]; [|by destruct (decide _)].
    apply matches_iff_decide. by apply (matches_key2 _ node id (k, r)).
  - destruct (rows (db_checks s) !! k) as [c|]; [|done].
    apply matches_iff_decide. apply (matches_checks_node node id (k, c)).
Qed.

(** X5: [DeleteNodeCheck] removes the checks row stored under (node, id) and
    no other row of any table. *)
Theorem DeleteNodeCheck_rows index node id s :
  ∃ s' n, DeleteNodeCheck noFaults index node id s = Returned None s' n ∧
    (∀ k, rows (db_checks s') !! k =
          if decide (k = (node, id)) then None else rows (db_checks s) !! k) ∧
    db_nodes s' = db_nodes s ∧ db_services s' = db_services s ∧
    db_kvs s' = db_kvs s ∧ db_sessions s' = db_sessions s ∧
    db_sessionChecks s' = db_sessionChecks s.
Proof.
  destruct (runDelete_noFaults index (OpDeleteNodeCheck node id) s) as [n Hn].
  simpl in Hn. eexists _, n. split; [exact Hn|]. simpl.
  split; [|done]. intros k. rewrite tbl_deleted_lookup.
  destruct (rows (db_checks s) !! k) as [r|]; [|by destruct (decide _)].
  apply matches_iff_decide. by apply (matches_key2 _ node id (k, r)).
Qed.

(** X6: [KVSDeleteTree] removes exactly the entries whose key begins with the
    prefix, which for the empty prefix is every entry; [KVSDelete] removes
    the entry of the key and no other.  Neither touches another table. *)
Theorem KVSDelete_rows index s :
  (∀ prefix, ∃ s' n,
     KVSDeleteTree noFaults index prefix s = Returned None s' n ∧
     (∀ k, kvs_entry s' k =
           if String.prefix prefix k then None else kvs_entry s k) ∧
     db_nodes s' = db_nodes s ∧ db_services s' = db_services s ∧
     db_checks s' = db_checks s ∧ db_sessions s' = db_sessions s ∧
     db_sessionChecks s' = db_sessionChecks s) ∧
  (∀ key, ∃ s' n,
     KVSDelete noFaults index key s = Returned None s' n ∧
     (∀ k, kvs_entry s' k = if decide (k = key) then None else kvs_entry s k) ∧
     db_nodes s' = db_nodes s ∧ db_services s' = db_services s ∧
     db_checks s' = db_checks s ∧ db_sessions s' = db_sessions s ∧
     db_sessionChecks s' = db_sessionChecks s).
Proof.
  split.
  - intros prefix.
    destruct (runDelete_noFaults index (OpKVSDeleteTree prefix) s) as [n Hn].
    simpl in Hn. eexists _, n. split; [exact Hn|].
    destruct (String.eqb_spec prefix "") as [->|Hp]; simpl.
    + split; [|done]. intros k. unfold kvs_entry. simpl.
      rewrite tbl_deleted_lookup.
      destruct (rows (db_kvs s) !! k) as [r|]; [|by destruct k].
      rewrite matches_kvs_all. by destruct k.
    + split; [|done]. intros k. unfold kvs_entry. simpl.
      rewrite tbl_deleted_lookup.
      destruct (rows (db_kvs s) !! k) as [r|]; [|by destruct (String.prefix _ _)].
      by rewrite matches_kvs_prefix.
  - intros key.
    destruct (runDelete_noFaults index (OpKVSDelete key) s) as [n Hn].
    simpl in Hn. eexists _, n. split; [exact Hn|]. simpl.
    split; [|done]. intros k. unfold kvs_entry. simpl. rewrite tbl_deleted_lookup.
    destruct (rows (db_kvs s) !! k) as [r|]; [|by destruct (decide _)].
    apply matches_iff_decide. by apply (matches_key1 _ key (k, r)).
Qed.

Lemma EnsureNode_noFaults index node s :
  EnsureNode noFaults index node s = Returned None (node_stored index node s) [dbNodes].
Proof. reflexivity. Qed.

Lemma EnsureService_noFaults index node ns s :
  EnsureService noFaults index node ns s =
  match rows (db_nodes s) !! node with
  | None => Returned (Some errMissingNode) s []
  | Some _ => Returned None (service_stored index node ns s) [dbServices]
  end.
Proof.
  unfold EnsureService, noFaults, StartTxn, runTxn, bind, GetTxn, engineOp. simpl.
  rewrite (nodes_get_id _ _ _ eq_refl).
  by destruct (rows (db_nodes s) !! node).
Qed.

Lemma KVSRestore_noFaults d s :
  KVSRestore noFaults d s =
  Returned None (tset kvsTable (tbl_insert (DE_Key d) d (db_kvs s)) s) [].
Proof. reflexivity. Qed.

(** Without faults [SessionCreate] is still looping, or turns the session
    down and changes nothing, or stores it. *)
Lemma SessionCreate_noFaults_cases fuel uuid index session s :
  SessionCreate fuel uuid noFaults index session s = None ∨
  (∃ err, SessionCreate fuel uuid noFaults index session s =
          Some (Returned (Some err) s [])) ∨
  (session_accepted s session ∧ rows (db_sessions s) !! uuid = None ∧
   SessionCreate fuel uuid noFaults index session s =
   Some (Returned None (session_stored uuid index session s)
                  [dbSessionChecks; dbSessions])).
Proof.
  destruct (rows (db_nodes s) !! S_Node session) as [n|] eqn:Hn; last first.
  { right. left. exists errMissingNode.
    unfold SessionCreate, noFaults, StartTxn, bind, orReturn, GetTxn, engineOp. simpl.
    by rewrite (nodes_get_id _ _ _ eq_refl), Hn. }
  pose proof (verify_loop (S_Node session) (S_Checks session)
                (mkTx s [] [] false)) as Hv.
  destruct (sim_step_forEach (S_Checks session) (verifyCheck (S_Node session))
              (sim_step_verifyCheck (S_Node session)) s [] [])
    as (r0 & db0 & dn0 & H0 & _).
  rewrite H0 in Hv. simpl in Hv. destruct Hv as (-> & -> & _ & Hr).
  destruct r0 as [[e|]|[]]; [|done|].
  { right. left. exists e.
    unfold SessionCreate, noFaults, StartTxn, bind, orReturn, GetTxn, engineOp. simpl.
    rewrite (nodes_get_id _ _ _ eq_refl), Hn. simpl.
    unfold bind in H0. by rewrite H0. }
  assert (session_accepted s session) as Hacc by (split; [by exists n|done]).
  destruct (rows (db_sessions s) !! uuid) as [x|] eqn:Hid.
  { left. apply SessionCreate_collision; [done|by exists x]. }
  destruct fuel as [|fuel].
  { left.
    unfold SessionCreate, noFaults, StartTxn, bind, orReturn, GetTxn, engineOp. simpl.
    rewrite (nodes_get_id _ _ _ eq_refl), Hn. simpl.
    by rewrite verify_loop_noFaults. }
  right. right. split; [done|]. split; [done|].
  by apply SessionCreate_noFaults_ok.
Qed.

(** ** What a write commits *)

Lemma runWrite_noFaults_effect op s o :
  runWrite noFaults op s = Some o →
  store_of s o = s ∨ write_effect op s (store_of s o).
Proof.
  destruct op as [ index node | index node ns | index check | index op | index d
                 | d | index d | fuel uuid index session | session ]; simpl.
  - intros [= <-]. right. reflexivity.
  - intros [= <-]. rewrite EnsureService_noFaults.
    destruct (rows (db_nodes s) !! node) as [n|] eqn:Hn; [right|by left].
    split; [by exists n|done].
  - intros [= <-]. rewrite EnsureCheck_noFaults. cbv zeta.
    set (c := HC_withStatus (stored_status check) check).
    destruct (rows (db_nodes s) !! HC_Node c) as [n|] eqn:Hn; [|by left].
    destruct (String.eqb_spec (HC_ServiceID c) "") as [Hsid|Hsid].
    { right. exists c. repeat split; try done; by exists n. }
    destruct (rows (db_services s) !! (HC_Node c, HC_ServiceID c)) as [srv|] eqn:Hsrv;
      [|by left].
    right. exists (HC_withServiceName (SN_ServiceName srv) c).
    repeat split; try done; simpl; first [by exists n|by exists srv].
  - intros [= <-]. right. destruct (runDelete_noFaults index op s) as [n ->]. done.
  - intros [= <-]. right. by rewrite KVSSet_noFaults.
  - intros [= <-]. right. reflexivity.
  - intros [= <-]. destruct (cas_condition_cases s d) as [Hc|Hc].
    + right. by rewrite KVSCheckAndSet_noFaults_ok.
    + left. by rewrite KVSCheckAndSet_noFaults_fail.
  - intros Ho.
    destruct (SessionCreate_noFaults_cases fuel uuid index session s)
      as [Hn|[[err He]|(Hacc & _ & He)]]; rewrite Ho in *.
    + done.
    + injection He as ->. by left.
    + injection He as ->. right. done.
  - intros [= <-]. right. by rewrite SessionRestore_noFaults.
Qed.

(** A call under a fault schedule changes nothing or ends as the call
    without faults. *)
Lemma runWrite_faults faults op s o :
  runWrite faults op s = Some o →
  store_of s o = s ∨ runWrite noFaults op s = Some o.
Proof.
  destruct op as [ index node | index node ns | index check | index op | index d
                 | d | index d | fuel uuid index session | session ]; simpl.
  - intros [= <-]. destruct (EnsureNode_faults faults index node s) as [? | ->]; auto.
  - intros [= <-].
    destruct (EnsureService_faults faults index node ns s) as [? | ->]; auto.
  - intros [= <-]. destruct (EnsureCheck_faults faults index check s) as [? | ->]; auto.
  - intros [= <-]. destruct (runDelete_faults faults index op s) as [? | ->]; auto.
  - intros [= <-]. destruct (KVSSet_all_or_nothing faults index d s) as [? | ->]; auto.
  - intros [= <-]. destruct (KVSRestore_faults faults d s) as [? | ->]; auto.
  - intros [= <-].
    destruct (KVSCheckAndSet_all_or_nothing faults index d s) as [He | ->]; auto.
    left. by destruct (KVSCheckAndSet faults index d s) as [[b err] s' n|].
  - apply SessionCreate_faults.
  - intros [= <-]. destruct (SessionRestore_faults faults session s) as [? | ->]; auto.
Qed.

Lemma runWrite_effect faults op s o :
  runWrite faults op s = Some o →
  store_of s o = s ∨ write_effect op s (store_of s o).
Proof.
  intros Ho. destruct (runWrite_faults faults op s o Ho) as [?|H0]; [by left|].
  by apply runWrite_noFaults_effect.
Qed.

Ltac no_panic :=
  let Ho := fresh "Ho" in
  simpl; try done; intros Ho;
  first [ discriminate
        | injection Ho as Ho; exfalso; revert Ho; unfold runTxn;
          match goal with |- context [let '(r, tx') := ?b in _] => by destruct b end ].

(** X7: a write method is all or nothing.  Whatever calls of the table layer
    fail, a call that ends has left the committed store as it was, or it has
    ended exactly as the call without failures does: same error, same store,
    same notifications.  And a method panics only when its transaction
    cannot be opened. *)
Theorem write_all_or_nothing faults op s o :
  runWrite faults op s = Some o →
  (store_of s o = s ∨ runWrite noFaults op s = Some o) ∧
  (o = Panicked → head faults = Some true).
Proof.
  intros Ho. split; [exact (runWrite_faults faults op s o Ho)|].
  intros ->. revert Ho.
  destruct op as [ index node | index node ns | index check | index op | index d
                 | d | index d | fuel uuid index session | session ]; simpl.
  - unfold EnsureNode. destruct faults as [|[] fs]; no_panic.
  - unfold EnsureService. destruct faults as [|[] fs]; no_panic.
  - unfold EnsureCheck. destruct faults as [|[] fs]; no_panic.
  - destruct op as [node id|node|node id|key|prefix]; simpl;
      unfold DeleteNodeService, DeleteNode, DeleteNodeCheck, KVSDelete, KVSDeleteTree,
        kvsDeleteWithIndex;
      try destruct (String.eqb prefix "");
      destruct faults as [|[] fs]; no_panic.
  - unfold KVSSet. destruct faults as [|[] fs]; no_panic.
  - unfold KVSRestore. destruct faults as [|[] fs]; no_panic.
  - unfold KVSCheckAndSet. destruct faults as [|[] fs]; simpl; try done;
      unfold runTxn;
      match goal with |- context [let '(r, tx') := ?b in _] => destruct b as [[[? ?]|[? ?]] ?] end;
      done.
  - unfold SessionCreate. destruct faults as [|[] fs]; simpl; try done;
      match goal with |- context [let '(r, tx') := ?b in _] => destruct b as [[[?|]|?] ?] end;
      done.
  - unfold SessionRestore. destruct faults as [|[] fs]; no_panic.
Qed.

Lemma write_all_or_nothing_witness :
  runWrite [false; false; true] (OpKVSSet 7 (mkDirEntry 0 0 "a" 0 [])) emptyDB =
    Some (Returned (Some EngineFault) emptyDB []) ∧
  (store_of emptyDB (Returned (Some EngineFault) emptyDB []) = emptyDB ∨
   runWrite noFaults (OpKVSSet 7 (mkDirEntry 0 0 "a" 0 [])) emptyDB =
     Some (Returned (Some EngineFault) emptyDB [])).
Proof.
  split; [reflexivity|].
  apply (write_all_or_nothing [false; false; true]). reflexivity.
Defined.

(** ** Watermarks *)

Lemma write_effect_watermark op s s' t :
  write_effect op s s' →
  watermark t s' = watermark t s ∨ watermark t s' = op_mark op (watermark t s).
Proof.
  destruct op as [ index node | index node ns | index check | index op | index d
                 | d | index d | fuel uuid index session | session ]; simpl.
  - intros ->. destruct t; simpl; auto.
  - intros [_ ->]. destruct t; simpl; auto.
  - intros (c & _ & _ & _ & _ & _ & ->). destruct t; simpl; auto.
  - intros ->. destruct op as [node id|node|node id|key|prefix]; simpl.
    + destruct t; simpl; auto; apply tbl_deleted_lastIndex.
    + destruct t; simpl; auto; apply tbl_deleted_lastIndex.
    + destruct t; simpl; auto; apply tbl_deleted_lastIndex.
    + destruct t; simpl; auto; apply tbl_deleted_lastIndex.
    + destruct (String.eqb prefix ""); destruct t; simpl; auto;
        apply tbl_deleted_lastIndex.
  - intros ->. destruct t; simpl; auto.
  - intros ->. destruct t; simpl; auto.
  - intros ->. destruct t; simpl; auto.
  - intros [_ ->]. destruct t; simpl; auto.
  - intros ->. destruct t; simpl; auto.
    right. unfold tbl_setMaxLastIndex. simpl.
    by rewrite sessionChecks_added_lastIndex.
Qed.

(** X8: watermarks.  Whatever the table layer does, a write method leaves
    the watermark of a table as it was or sets it to the index of the call
    ([SessionRestore]: to the larger of the watermark and the CreateIndex of
    the session; [KVSRestore] moves none).  So when the index of the call is
    not below any watermark, no watermark goes back. *)
Theorem write_watermarks faults op s o :
  runWrite faults op s = Some o →
  (∀ t, watermark t (store_of s o) = watermark t s ∨
        watermark t (store_of s o) = op_mark op (watermark t s)) ∧
  ((∀ t, (watermark t s ≤ op_mark op (watermark t s))%N) →
   ∀ t, (watermark t s ≤ watermark t (store_of s o))%N).
Proof.
  intros Ho.
  assert (∀ t, watermark t (store_of s o) = watermark t s ∨
               watermark t (store_of s o) = op_mark op (watermark t s)) as Hw.
  { intros t. destruct (runWrite_effect faults op s o Ho) as [-> | He]; [by left|].
    by apply write_effect_watermark. }
  split; [exact Hw|]. intros Hle t.
  destruct (Hw t) as [-> | ->]; [done|apply Hle].
Qed.

Lemma write_watermarks_witness :
  let op := OpDelete 9 (OpDeleteNodeCheck "n1" "c1") in
  let o := Returned None (delete_store 9 (OpDeleteNodeCheck "n1" "c1")
                                       example_checks_store) [dbChecks] in
  runWrite noFaults op example_checks_store = Some o ∧
  (∀ t, (watermark t example_checks_store ≤
         op_mark op (watermark t example_checks_store))%N) ∧
  ∀ t, (watermark t example_checks_store ≤
        watermark t (store_of example_checks_store o))%N.
Proof.
  intros op o.
  assert (runWrite noFaults op example_checks_store = Some o) as Ho
    by (vm_compute; reflexivity).
  assert (∀ t, (watermark t example_checks_store ≤
                op_mark op (watermark t example_checks_store))%N) as Hle
    by (intros []; vm_compute; discriminate).
  split; [exact Ho|]. split; [exact Hle|].
  exact (proj2 (write_watermarks noFaults op example_checks_store o Ho) Hle).
Defined.

(** ** Invariants of the reachable stores *)

Lemma map_Forall_filter {K} `{Countable K} {A} (P : K → A → Prop)
    (Q : K * A → Prop) `{!∀ x, Decision (Q x)} (m : gmap K A) :
  map_Forall P m → map_Forall P (filter Q m).
Proof.
  intros Hm k x Hk. apply map_lookup_filter_Some in Hk as [Hk _]. by apply Hm.
Qed.

Lemma sessionChecks_added_wf session t :
  map_Forall (λ k m, (SC_Node m, SC_CheckID m, SC_Session m) = k) (rows t) →
  map_Forall (λ k m, (SC_Node m, SC_CheckID m, SC_Session m) = k)
             (rows (sessionChecks_added session t)).
Proof.
  unfold sessionChecks_added. revert t.
  induction (S_Checks session) as [|c l IH]; intros t Ht; simpl; [done|].
  apply IH. unfold tbl_insert. simpl. by apply map_Forall_insert_2.
Qed.

Lemma write_effect_wf op s s' : write_effect op s s' → store_wf s → store_wf s'.
Proof.
  intros He (Hn & Hs & Hc & Hk & Hss & Hsc).
  destruct op as [ index node | index node ns | index check | index op | index d
                 | d | index d | fuel uuid index session | session ]; simpl in He.
  - subst s'. repeat split; try done. simpl. by apply map_Forall_insert_2.
  - destruct He as [_ ->]. repeat split; try done. simpl.
    by apply map_Forall_insert_2.
  - destruct He as (c & _ & _ & _ & _ & _ & ->). repeat split; try done. simpl.
    by apply map_Forall_insert_2.
  - subst s'. destruct op as [node id|node|node id|key|prefix]; simpl.
    + repeat split; try done; simpl; rewrite tbl_deleted_rows;
        by apply map_Forall_filter.
    + repeat split; try done; simpl; rewrite tbl_deleted_rows;
        by apply map_Forall_filter.
    + repeat split; try done; simpl; rewrite tbl_deleted_rows;
        by apply map_Forall_filter.
    + repeat split; try done. unfold kvs_wf. simpl. rewrite tbl_deleted_rows.
      by apply map_Forall_filter.
    + destruct (String.eqb prefix ""); repeat split; try done; unfold kvs_wf; simpl;
        rewrite tbl_deleted_rows; by apply map_Forall_filter.
  - subst s'. repeat split; try done. by apply kvs_wf_written.
  - subst s'. repeat split; try done. unfold kvs_wf. simpl.
    by apply map_Forall_insert_2.
  - subst s'. repeat split; try done. by apply kvs_wf_written.
  - destruct He as [_ ->]. repeat split; try done; simpl.
    + by apply map_Forall_insert_2.
    + by apply sessionChecks_added_wf.
  - subst s'. repeat split; try done; simpl.
    + by apply map_Forall_insert_2.
    + by apply sessionChecks_added_wf.
Qed.

Lemma write_effect_catalog op s s' :
  write_effect op s s' → store_wf s → catalog_ok s → catalog_ok s'.
Proof.
  intros He (Hn & Hs & Hc & _) [Hsn Hcn].
  destruct op as [ index node | index node ns | index check | index op | index d
                 | d | index d | fuel uuid index session | session ]; simpl in He.
  - subst s'. split; simpl.
    + intros k srv Hk. apply lookup_insert_is_Some'. right. by apply (Hsn k srv).
    + intros k c Hk. destruct (Hcn k c Hk) as [H1 H2]. split; [|done].
      apply lookup_insert_is_Some'. by right.
  - destruct He as [Hnode ->]. split; simpl.
    + intros k srv Hk. apply lookup_insert_Some in Hk as [[<- _]|[_ Hk]]; [done|].
      by apply (Hsn k srv).
    + intros k c Hk. destruct (Hcn k c Hk) as [H1 H2]. split; [done|].
      intros Hsid. apply lookup_insert_is_Some'. right. by apply H2.
  - destruct He as (c & _ & _ & _ & Hnode & Hsrv & ->). split; simpl; [done|].
    intros k c' Hk. apply lookup_insert_Some in Hk as [[<- <-]|[_ Hk]]; [done|].
    by apply (Hcn k c').
  - subst s'. destruct op as [node id|node|node id|key|prefix]; simpl.
    + split; simpl.
      * intros k srv Hk. rewrite tbl_deleted_rows in Hk.
        apply map_lookup_filter_Some in Hk as [Hk _]. by apply (Hsn k srv).
      * intros k c Hk. rewrite tbl_deleted_rows in Hk.
        apply map_lookup_filter_Some in Hk as [Hk Hm]. simpl in Hm.
        destruct (Hcn k c Hk) as [H1 H2]. split; [done|]. intros Hsid.
        destruct (H2 Hsid) as [srv Hsrv]. exists srv.
        rewrite tbl_deleted_lookup, Hsrv.
        destruct (matches _ _ (k.1, HC_ServiceID c, srv)) eqn:Hms; [|done].
        apply (matches_key2 _ node id (k.1, HC_ServiceID c, srv)) in Hms; [|done..].
        simpl in Hms. injection Hms as Hk1 Hid. destruct Hm.
        apply matches_checks_node. simpl. specialize (Hc k c Hk). simpl in Hc.
        rewrite <- Hc in Hk1. simpl in Hk1. done.
    + split; simpl.
      * intros k srv Hk. rewrite tbl_deleted_lookup in Hk.
        destruct (rows (db_services s) !! k) as [srv'|] eqn:Hk'; [|done].
        destruct (matches _ _ (k, srv')) eqn:Hm; [done|]. injection Hk as ->.
        destruct (Hsn k srv Hk') as [n Hnk]. exists n.
        rewrite tbl_deleted_lookup, Hnk.
        destruct (matches _ _ (k.1, n)) eqn:Hmn; [|done].
        apply (matches_key1 _ node (k.1, n)) in Hmn; [|done..]. simpl in Hmn.
        apply not_true_iff_false in Hm. destruct Hm.
        by apply (matches_key2_first _ node (k, srv)).
      * intros k c Hk. rewrite tbl_deleted_lookup in Hk.
        destruct (rows (db_checks s) !! k) as [c'|] eqn:Hk'; [|done].
        destruct (matches _ _ (k, c')) eqn:Hm; [done|]. injection Hk as ->.
        assert (k.1 ≠ node) as Hne.
        { intros Hkn. apply not_true_iff_false in Hm. destruct Hm.
          by apply (matches_key2_first _ node (k, c)). }
        destruct (Hcn k c Hk') as [[n Hnk] H2]. split.
        -- exists n. rewrite tbl_deleted_lookup, Hnk.
           destruct (matches _ _ (k.1, n)) eqn:Hmn; [|done].
           by apply (matches_key1 _ node (k.1, n)) in Hmn.
        -- intros Hsid. destruct (H2 Hsid) as [srv Hsrv]. exists srv.
           rewrite tbl_deleted_lookup, Hsrv.
           destruct (matches _ _ (k.1, HC_ServiceID c, srv)) eqn:Hms; [|done].
           by apply (matches_key2_first _ node (k.1, HC_ServiceID c, srv)) in Hms.
    + split; simpl; [done|].
      intros k c Hk. rewrite tbl_deleted_rows in Hk.
      apply map_lookup_filter_Some in Hk as [Hk _]. by apply (Hcn k c).
    + done.
    + by destruct (String.eqb prefix "").
  - by subst s'.
  - by subst s'.
  - by subst s'.
  - by destruct He as [_ ->].
  - by subst s'.
Qed.

Lemma store_wf_empty : store_wf emptyDB.
Proof. repeat split; apply map_Forall_empty. Qed.

Lemma catalog_ok_empty : catalog_ok emptyDB.
Proof. split; apply map_Forall_empty. Qed.

Lemma store_wf_step faults op s o :
  store_wf s → runWrite faults op s = Some o → store_wf (store_of s o).
Proof.
  intros Hwf Ho. destruct (runWrite_effect faults op s o Ho) as [-> | He]; [done|].
  by apply (write_effect_wf op s).
Qed.

Lemma catalog_step faults op s o :
  store_wf s → catalog_ok s → runWrite faults op s = Some o →
  catalog_ok (store_of s o).
Proof.
  intros Hwf Hok Ho.
  destruct (runWrite_effect faults op s o Ho) as [-> | He]; [done|].
  by apply (write_effect_catalog op s).
Qed.

(** The example stores are built by the write methods. *)
Ltac example_wf :=
  repeat first
    [ apply store_wf_empty
    | match goal with
      | |- store_wf (store_of ?s (EnsureCheck noFaults ?i ?c ?s)) =>
          apply (store_wf_step noFaults (OpEnsureCheck i c) s _); [|reflexivity]
      | |- store_wf (store_of ?s (EnsureNode noFaults ?i ?n ?s)) =>
          apply (store_wf_step noFaults (OpEnsureNode i n) s _); [|reflexivity]
      | |- store_wf (store_of ?s (EnsureService noFaults ?i ?n ?ns ?s)) =>
          apply (store_wf_step noFaults (OpEnsureService i n ns) s _); [|reflexivity]
      end ].

Lemma store_wf_example_service : store_wf example_service_store.
Proof. unfold example_service_store. cbv zeta. example_wf. Qed.

Lemma store_wf_example_checks : store_wf example_checks_store.
Proof. unfold example_checks_store. cbv zeta. example_wf. Qed.

Lemma catalog_ok_example_service : catalog_ok example_service_store.
Proof.
  unfold example_service_store. cbv zeta.
  apply (catalog_step noFaults (OpEnsureService 2 "n1"
           (mkNodeService "web" "web-name" ["a"] 80)) _ _); [| |reflexivity].
  - example_wf.
  - apply (catalog_step noFaults (OpEnsureNode 1 (mkNode "n1" "10.0.0.1")) _ _);
      [apply store_wf_empty|apply catalog_ok_empty|reflexivity].
Qed.

(** X9: the catalog stays closed under its references.  In every store the
    write methods lead to from the empty store, whatever calls of the table
    layer fail on the way, every row sits under its primary key, every
    service and every check belongs to a registered node, and every check
    that names a service names one that is registered on its node. *)
Theorem reachable_catalog s : reachable s → store_wf s ∧ catalog_ok s.
Proof.
  induction 1 as [|s faults op o _ [Hwf Hok] Ho].
  - split; [apply store_wf_empty|apply catalog_ok_empty].
  - split; [by apply (store_wf_step faults op)|by apply (catalog_step faults op)].
Qed.

Lemma reachable_catalog_witness :
  reachable example_service_store ∧
  store_wf example_service_store ∧ catalog_ok example_service_store.
Proof.
  assert (reachable example_service_store) as Hr.
  { unfold example_service_store. cbv zeta.
    apply (reachable_write _ noFaults (OpEnsureService 2 "n1"
             (mkNodeService "web" "web-name" ["a"] 80)) _); [|reflexivity].
    apply (reachable_write _ noFaults (OpEnsureNode 1 (mkNode "n1" "10.0.0.1")) _);
      [|reflexivity].
    apply reachable_empty. }
  split; [exact Hr|]. exact (reachable_catalog _ Hr).
Defined.

(** ** Direct lookups *)

Lemma StronglySorted_fmap_in {A B} (f : A → B) (R1 : relation A) (R2 : relation B)
    (l : list A) :
  (∀ x y, x ∈ l → y ∈ l → R1 x y → R2 (f x) (f y)) →
  StronglySorted R1 l → StronglySorted R2 (f <$> l).
Proof.
  intros Hf Hs. induction Hs as [|x l Hs IH Hall]; [constructor|].
  rewrite fmap_cons. constructor.
  - apply IH. intros a b Ha Hb. apply Hf; by right.
  - rewrite Forall_fmap, Forall_forall. rewrite Forall_forall in Hall.
    intros y Hy. simpl. apply Hf; [left|by right|by apply Hall].
Qed.

Section sorted_facts.
Context {K : Type} `{Countable K} `{!KeyOrder K} {R : Type}.
Implicit Types (t : TableState K R) (ix : MDBIndex K R).

Lemma scan_strict (m : gmap K R) :
  StronglySorted (λ x y, row_le x y ∧ x.1 ≠ y.1) (scan m).
Proof.
  pose proof (scan_sorted m) as Hs. pose proof (NoDup_scan_keys m) as Hnd.
  induction Hs as [|x l Hs IH Hall]; [constructor|].
  rewrite fmap_cons in Hnd. apply NoDup_cons in Hnd as [Hx Hnd].
  constructor; [by apply IH|].
  rewrite Forall_forall in Hall |- *. intros y Hy. split; [by apply Hall|].
  intros He. apply Hx. rewrite He. by apply list_elem_of_fmap_2.
Qed.

(** The rows of a lookup come in strictly ascending order of their key. *)
Lemma tbl_get_sorted ix parts t (key : R → K) :
  map_Forall (λ k r, key r = k) (rows t) →
  StronglySorted (λ a b, key_le (key a) (key b) ∧ key a ≠ key b)
                 (tbl_get ix parts t).
Proof.
  intros Hwf. unfold tbl_get.
  apply (StronglySorted_fmap_in snd (λ x y : K * R, row_le x y ∧ x.1 ≠ y.1)).
  - intros [k1 r1] [k2 r2] [_ H1%elem_of_scan]%list_elem_of_filter
      [_ H2%elem_of_scan]%list_elem_of_filter. simpl.
    by rewrite (Hwf _ _ H1), (Hwf _ _ H2).
  - apply StronglySorted_filter, scan_strict.
Qed.

Lemma elem_of_tbl_get_wf ix parts t (key : R → K) r :
  map_Forall (λ k r, key r = k) (rows t) →
  r ∈ tbl_get ix parts t ↔
  rows t !! key r = Some r ∧ matches ix parts (key r, r) = true.
Proof.
  intros Hwf. rewrite elem_of_tbl_get. split.
  - intros (k & Hk & Hm). by rewrite (Hwf _ _ Hk).
  - intros [Hk Hm]. by exists (key r).
Qed.
End sorted_facts.



(** ** Reading the KV table *)

Lemma KVSGet_noFaults key s :
  KVSGet noFaults key s = (lastIndex (db_kvs s), kvs_entry s key, None).
Proof.
  unfold KVSGet, noFaults, StartTxn, bind, LastIndexTxn, GetTxn, engineOp. simpl.
  rewrite (kvs_get_id _ _ _ eq_refl). unfold kvs_entry.
  by destruct (rows (db_kvs s) !! key).
Qed.

Local Opaque tbl_delete.

(** X11: what [KVSSet] writes, [KVSGet] reads back.  A key that is not
    stored reads as nil without an error.  After [KVSSet] the key reads as
    the entry that was passed, with ModifyIndex the index of the call and
    CreateIndex that of the entry it replaced (the index of the call for a
    new key); every other key reads as before; and after a [KVSDelete] of
    the key it reads as nil again, at the index of the delete. *)
Theorem KVSSet_KVSGet index d s :
  (∀ key, kvs_entry s key = None →
          KVSGet noFaults key s = (lastIndex (db_kvs s), None, None)) ∧
  ∃ s', KVSSet noFaults index d s = Returned None s' [dbKVS] ∧
    KVSGet noFaults (DE_Key d) s' =
      (index,
       Some (DE_withIndexes (match kvs_entry s (DE_Key d) with
                             | Some e => DE_CreateIndex e
                             | None => index
                             end) index d),
       None) ∧
    (∀ key, key ≠ DE_Key d →
            KVSGet noFaults key s' = (index, kvs_entry s key, None)) ∧
    ∀ index', ∃ s'',
      KVSDelete noFaults index' (DE_Key d) s' = Returned None s'' [dbKVS] ∧
      KVSGet noFaults (DE_Key d) s'' = (index', None, None).
Proof.
  split.
  { intros key Hk. by rewrite KVSGet_noFaults, Hk. }
  exists (kvs_written index d s). split; [apply KVSSet_noFaults|].
  split; [|split].
  - rewrite KVSGet_noFaults, kvs_entry_written. by rewrite decide_True.
  - intros key Hne. rewrite KVSGet_noFaults, kvs_entry_written.
    by rewrite decide_False.
  - intros index'.
    assert (is_Some (rows (db_kvs (kvs_written index d s)) !! DE_Key d)) as [e He].
    { pose proof (kvs_entry_written index d s (DE_Key d)) as Hw.
      rewrite decide_True in Hw by done. unfold kvs_entry in Hw. by rewrite Hw. }
    remember (kvs_written index d s) as s1 eqn:Hs1. clear Hs1.
    unfold KVSDelete, kvsDeleteWithIndex, noFaults, StartTxn, runTxn, bind, DeleteTxn,
      touchIfDeleted, SetLastIndexTxn, engineOp, deferNotify, Commit, ret.
    simpl.
    rewrite (tbl_delete_point _ _ (DE_Key d)); last first.
    { intros kr. by apply matches_key1. }
    rewrite He. simpl. eexists. split; [reflexivity|].
    rewrite KVSGet_noFaults. unfold kvs_entry. simpl.
    by rewrite lookup_delete_eq.
Qed.

Local Transparent tbl_delete.

Lemma listKeys_drain_no_seperator prefix stream :
  listKeys_drain prefix "" stream = DE_Key <$> stream.
Proof.
  unfold listKeys_drain.
  assert (∀ keys last,
            (foldl (listKeys_step (String.length prefix) (String.length "") "")
                   (keys, last) stream).1 = keys ++ (DE_Key <$> stream)) as Hf.
  { induction stream as [|ent stream IH]; intros keys last; simpl.
    - by rewrite app_nil_r.
    - rewrite IH. by rewrite <- app_assoc. }
  apply (Hf [] "").
Qed.

(** X12: [KVSList] returns the entries whose key begins with the prefix,
    each once, in strictly ascending order of their key, with the watermark
    of the kvs table and no error; and [KVSListKeys] with an empty seperator
    returns the keys of exactly these entries, in the same order. *)
Theorem KVSList_spec prefix s :
  kvs_wf s →
  ∃ ents, KVSList noFaults prefix s = (lastIndex (db_kvs s), ents, None) ∧
    StronglySorted (λ a b, str_lt (DE_Key a) (DE_Key b)) ents ∧
    (∀ d, d ∈ ents ↔
          kvs_entry s (DE_Key d) = Some d ∧ String.prefix prefix (DE_Key d) = true) ∧
    KVSListKeys noFaults prefix "" s = (lastIndex (db_kvs s), DE_Key <$> ents, None).
Proof.
  intros Hwf. unfold KVSList.
  rewrite (Get_noFaults kvsTable "id_prefix" _ _ _ eq_refl). eexists.
  split; [reflexivity|]. split; [|split].
  - exact (tbl_get_sorted _ _ _ DE_Key Hwf).
  - intros d. by rewrite (elem_of_tbl_get_wf _ _ _ DE_Key d Hwf).
  - rewrite KVSListKeys_noFaults. by rewrite listKeys_drain_no_seperator.
Qed.

Lemma KVSList_spec_witness :
  kvs_wf example_kvs_store ∧
  ∃ ents, KVSList noFaults "foo/a" example_kvs_store =
            (lastIndex (db_kvs example_kvs_store), ents, None) ∧
    StronglySorted (λ a b, str_lt (DE_Key a) (DE_Key b)) ents ∧
    (∀ d, d ∈ ents ↔
          kvs_entry example_kvs_store (DE_Key d) = Some d ∧
          String.prefix "foo/a" (DE_Key d) = true) ∧
    KVSListKeys noFaults "foo/a" "" example_kvs_store =
      (lastIndex (db_kvs example_kvs_store), DE_Key <$> ents, None).
Proof.
  split; [exact example_kvs_store_wf|].
  exact (KVSList_spec "foo/a" example_kvs_store example_kvs_store_wf).
Defined.

(** ** Registering and reading back *)

(** X13: what [EnsureNode] registers, [GetNode] reads back.  The call
    replaces the row of the node name, sets the watermark of the nodes table
    and notifies its watchers; afterwards the name is found with the new
    address, every other name is found or not as before, and no other table
    has changed. *)
Theorem EnsureNode_GetNode index node s :
  ∃ s', EnsureNode noFaults index node s = Returned None s' [dbNodes] ∧
    GetNode noFaults (Node_Node node) s' = (index, true, Node_Address node) ∧
    (∀ name, name ≠ Node_Node node →
       GetNode noFaults name s' =
       match rows (db_nodes s) !! name with
       | Some n => (index, true, Node_Address n)
       | None => (index, false, "")
       end) ∧
    db_services s' = db_services s ∧ db_checks s' = db_checks s ∧
    db_kvs s' = db_kvs s ∧ db_sessions s' = db_sessions s ∧
    db_sessionChecks s' = db_sessionChecks s.
Proof.
  exists (node_stored index node s). split; [apply EnsureNode_noFaults|].
  split; [|split; [|done]].
  - rewrite GetNode_noFaults. unfold node_stored, tbl_insert, tbl_setLastIndex. simpl.
    by rewrite lookup_insert_eq.
  - intros name Hne. rewrite GetNode_noFaults.
    unfold node_stored, tbl_insert, tbl_setLastIndex. simpl.
    by rewrite lookup_insert_ne.
Qed.

Lemma services_fold_lookup (name : string)
    (l : list (string * string * ServiceNode))
    (m0 : gmap string NodeService) (id : string) :
  NoDup l.*1 →
  Forall (λ kr, kr.1 = (name, SN_ServiceID kr.2)) l →
  foldl (λ m service, <[SN_ServiceID service := SN_toNodeService service]> m)
        m0 l.*2 !! id =
  match (list_to_map l : gmap (string * string) ServiceNode) !! (name, id) with
  | Some r => Some (SN_toNodeService r)
  | None => m0 !! id
  end.
Proof.
  revert m0. induction l as [|[k r] l IH]; intros m0 Hnd Hall; simpl; [done|].
  rewrite fmap_cons in Hnd. apply NoDup_cons in Hnd as [Hk Hnd].
  apply Forall_cons in Hall as [Hkr Hall]. simpl in Hkr, Hk.
  rewrite IH by done.
  destruct (decide (SN_ServiceID r = id)) as [<-|Hne].
  - rewrite <- Hkr, !lookup_insert_eq.
    by rewrite not_elem_of_list_to_map_1.
  - rewrite (lookup_insert_ne m0) by done.
    by rewrite lookup_insert_ne by (rewrite Hkr; congruence).
Qed.

(** The services map [parseNodeServices] builds for a node. *)
Lemma node_services_lookup name s id :
  store_wf s →
  foldl (λ m service, <[SN_ServiceID service := SN_toNodeService service]> m)
        (∅ : gmap string NodeService)
        (tbl_get (schema_index serviceTable "id") [name] (db_services s)) !! id =
  SN_toNodeService <$> rows (db_services s) !! (name, id).
Proof.
  intros (_ & Hs & _). unfold tbl_get.
  set (M := λ kr : string * string * ServiceNode,
         matches (schema_index serviceTable "id") [name] kr = true).
  assert (∀ kr, M kr ↔ kr.1.1 = name) as HM.
  { intros kr. by apply (matches_key2_first _ name kr). }
  rewrite (services_fold_lookup name).
  - assert ((list_to_map (filter M (scan (rows (db_services s))))
             : gmap (string * string) ServiceNode) = filter M (rows (db_services s)))
      as ->.
    { rewrite map_filter_alt. apply list_to_map_proper.
      - apply (sublist_NoDup _ (scan (rows (db_services s))).*1).
        + apply NoDup_scan_keys.
        + apply fmap_sublist, sublist_filter.
      - by rewrite scan_perm. }
    rewrite lookup_empty.
    destruct (rows (db_services s) !! (name, id)) as [r|] eqn:Hr; simpl.
    + rewrite (map_lookup_filter_Some_2 _ _ _ r); [done..|]. by apply HM.
    + rewrite (proj2 (map_lookup_filter_None _ _ _)); [done|by left].
  - apply (sublist_NoDup _ (scan (rows (db_services s))).*1).
    + apply NoDup_scan_keys.
    + apply fmap_sublist, sublist_filter.
  - apply Forall_forall. intros [k r] [Hm Hin%elem_of_scan]%list_elem_of_filter.
    apply HM in Hm. simpl in *. specialize (Hs k r Hin). simpl in Hs.
    rewrite <- Hs in Hm |- *. simpl in *. by rewrite Hm.
Qed.

Lemma NodeServices_noFaults name s :
  NodeServices noFaults name s =
  Some (N.max (lastIndex (db_nodes s)) (N.max (lastIndex (db_services s)) 0),
        match rows (db_nodes s) !! name with
        | None => None
        | Some n =>
            Some (mkNodeServices n
                    (foldl (λ m service,
                              <[SN_ServiceID service := SN_toNodeService service]> m)
                       (∅ : gmap string NodeService)
                       (tbl_get (schema_index serviceTable "id") [name]
                                (db_services s))))
        end).
Proof.
  unfold NodeServices, noFaults, StartTxn, runQuery, parseNodeServices, bind, orPanic,
    orReturn, capture, LastIndexTxnAll, GetTxn, engineOp. simpl.
  rewrite (nodes_get_id _ _ _ eq_refl).
  by destruct (rows (db_nodes s) !! name).
Qed.

(** X14: [NodeServices] answers nil for a name that is not registered, also
    when services are stored under it; for a registered node it answers the
    node and a map that holds, under each ServiceID, the service the node
    has under that ID, and nothing else.  The index is the larger of the
    watermarks of the nodes and the services table. *)
Theorem NodeServices_spec name s :
  store_wf s →
  ∃ r, NodeServices noFaults name s =
         Some (N.max (lastIndex (db_nodes s)) (lastIndex (db_services s)), r) ∧
       match rows (db_nodes s) !! name with
       | None => r = None
       | Some n =>
           ∃ m, r = Some (mkNodeServices n m) ∧
                ∀ id, m !! id = SN_toNodeService <$> rows (db_services s) !! (name, id)
       end.
Proof.
  intros Hwf. rewrite NodeServices_noFaults, N.max_0_r. eexists. split; [done|].
  destruct (rows (db_nodes s) !! name) as [n|]; [|done].
  eexists. split; [done|]. intros id. by apply node_services_lookup.
Qed.

Lemma NodeServices_spec_witness :
  store_wf example_service_store ∧
  ∃ r, NodeServices noFaults "n1" example_service_store =
         Some (N.max (lastIndex (db_nodes example_service_store))
                     (lastIndex (db_services example_service_store)), r) ∧
       match rows (db_nodes example_service_store) !! "n1" with
       | None => r = None
       | Some n =>
           ∃ m, r = Some (mkNodeServices n m) ∧
                ∀ id, m !! id =
                      SN_toNodeService <$>
                        rows (db_services example_service_store) !! ("n1", id)
       end.
Proof.
  split; [exact store_wf_example_service|].
  exact (NodeServices_spec "n1" example_service_store store_wf_example_service).
Defined.

(** X15: [EnsureService] needs the node.  For a name that is not registered
    it returns "Missing node registration" and stores nothing, whatever the
    table layer does once the transaction is open.  For a registered node it
    stores the service under (node, ID), and [NodeServices] then reads it
    back under its ID, next to the services the node had under other IDs. *)
Theorem EnsureService_NodeServices index node ns s :
  store_wf s →
  (rows (db_nodes s) !! node = None →
     EnsureService noFaults index node ns s = Returned (Some errMissingNode) s [] ∧
     ∀ faults, EnsureService faults index node ns s = Panicked ∨
               ∃ err, EnsureService faults index node ns s = Returned (Some err) s []) ∧
  (∀ n, rows (db_nodes s) !! node = Some n →
     ∃ s' m,
       EnsureService noFaults index node ns s = Returned None s' [dbServices] ∧
       NodeServices noFaults node s' =
         Some (N.max (lastIndex (db_nodes s)) index, Some (mkNodeServices n m)) ∧
       m !! NS_ID ns = Some ns ∧
       ∀ id, id ≠ NS_ID ns →
             m !! id = SN_toNodeService <$> rows (db_services s) !! (node, id)).
Proof.
  intros Hwf. split.
  - intros Hn. split.
    { by rewrite EnsureService_noFaults, Hn. }
    intros faults.
    unfold EnsureService, StartTxn, runTxn, bind, GetTxn, engineOp.
    destruct faults as [|[] faults]; simpl.
    + right. rewrite (nodes_get_id _ _ _ eq_refl), Hn. simpl. by eexists.
    + by left.
    + right. destruct faults as [|[] faults]; simpl.
      * rewrite (nodes_get_id _ _ _ eq_refl), Hn. simpl. by eexists.
      * by eexists.
      * rewrite (nodes_get_id _ _ _ eq_refl), Hn. simpl. by eexists.
  - intros n Hn.
    assert (store_wf (service_stored index node ns s)) as Hwf'.
    { apply (write_effect_wf (OpEnsureService index node ns) s); [|done].
      split; [by exists n|done]. }
    exists (service_stored index node ns s),
      (foldl (λ m service, <[SN_ServiceID service := SN_toNodeService service]> m)
         (∅ : gmap string NodeService)
         (tbl_get (schema_index serviceTable "id") [node]
                  (db_services (service_stored index node ns s)))).
    split; [by rewrite EnsureService_noFaults, Hn|].
    split; [|split].
    + rewrite NodeServices_noFaults.
      replace (rows (db_nodes (service_stored index node ns s)) !! node)
        with (Some n) by done.
      simpl. by rewrite N.max_0_r.
    + rewrite (node_services_lookup node _ (NS_ID ns) Hwf'). simpl.
      unfold tbl_insert. simpl. rewrite lookup_insert_eq. simpl.
      by destruct ns.
    + intros id Hid. rewrite (node_services_lookup node _ id Hwf'). simpl.
      unfold tbl_insert. simpl. rewrite lookup_insert_ne; [done|congruence].
Qed.

Lemma EnsureService_NodeServices_witness :
  store_wf example_checks_store ∧
  ∃ s' (m : gmap string NodeService),
    EnsureService noFaults 8 "n1" (mkNodeService "db" "postgres" [] 5432)
                  example_checks_store = Returned None s' [dbServices] ∧
    m !! "db" = Some (mkNodeService "db" "postgres" [] 5432).
Proof.
  pose proof store_wf_example_checks as Hwf.
  split; [exact Hwf|].
  destruct (proj2 (EnsureService_NodeServices 8 "n1"
                     (mkNodeService "db" "postgres" [] 5432)
                     example_checks_store Hwf) (mkNode "n1" "10.0.0.1") eq_refl)
    as (s' & m & H1 & _ & H3 & _).
  by exists s', m.
Defined.

(** ** The check queries *)

Lemma checks_lookup_perm ix parts (P : string * string * HealthCheck → Prop)
    `{!∀ kr, Decision (P kr)} s :
  (∀ kr, matches ix parts kr = true ↔ P kr) →
  tbl_get ix parts (db_checks s) ≡ₚ checks_where P s.
Proof.
  intros Hm. rewrite tbl_get_perm. unfold checks_where.
  assert (filter (λ kr, matches ix parts kr = true) (rows (db_checks s)) =
          filter P (rows (db_checks s))) as ->; [|done].
  apply map_filter_ext. intros k c _. apply (Hm (k, c)).
Qed.

Lemma matches_one_field {K R} (ix : MDBIndex K R) (f : K → R → string) (a : string)
    (kr : K * R) :
  IdxFunc ix = DefaultIndexFunc → idxKey ix = (λ k r, [f k r]) →
  matches ix [a] kr = true ↔ f kr.1 kr.2 = a.
Proof.
  intros Hf Hk. unfold matches. rewrite Hf, Hk, bool_decide_eq_true. split.
  - intros [l Hl]. simpl in Hl. by injection Hl.
  - intros ->. done.
Qed.

(** X16: the three check queries are lookups.  [ChecksInState] returns the
    checks with the status, [ServiceChecks] those with the service name,
    [NodeChecks] those stored under the node: each such check once, no nil
    entry, with the watermark of the checks table.  When the lookup fails
    the result is empty. *)
Theorem check_queries s :
  (∀ state, ∃ l, ChecksInState noFaults state s = (lastIndex (db_checks s), Some <$> l) ∧
                 l ≡ₚ checks_where (λ kr, HC_Status kr.2 = state) s) ∧
  (∀ service, ∃ l,
     ServiceChecks noFaults service s = (lastIndex (db_checks s), Some <$> l) ∧
     l ≡ₚ checks_where (λ kr, HC_ServiceName kr.2 = service) s) ∧
  (∀ node, ∃ l, NodeChecks noFaults node s = (lastIndex (db_checks s), Some <$> l) ∧
                l ≡ₚ checks_where (λ kr, kr.1.1 = node) s) ∧
  (∀ faults x,
     ChecksInState faults x s = ChecksInState noFaults x s ∨
     ∃ idx, ChecksInState faults x s = (idx, [])) ∧
  (∀ faults x,
     ServiceChecks faults x s = ServiceChecks noFaults x s ∨
     ∃ idx, ServiceChecks faults x s = (idx, [])) ∧
  (∀ faults x,
     NodeChecks faults x s = NodeChecks noFaults x s ∨
     ∃ idx, NodeChecks faults x s = (idx, [])).
Proof.
  split; [|split; [|split; [|split; [|split]]]].
  - intros state. unfold ChecksInState.
    rewrite (Get_noFaults checkTable "status" _ _ _ eq_refl). eexists.
    split; [reflexivity|]. apply checks_lookup_perm. intros kr.
    by apply (matches_one_field _ (λ _ r, HC_Status r)).
  - intros service. unfold ServiceChecks.
    rewrite (Get_noFaults checkTable "service" _ _ _ eq_refl). eexists.
    split; [reflexivity|]. apply checks_lookup_perm. intros kr.
    by apply (matches_one_field _ (λ _ r, HC_ServiceName r)).
  - intros node. unfold NodeChecks.
    rewrite (Get_noFaults checkTable "id" _ _ _ eq_refl). eexists.
    split; [reflexivity|]. apply checks_lookup_perm. intros kr.
    by apply (matches_key2_first _ node kr).
  - intros faults x. unfold ChecksInState.
    destruct (Get_faults faults checkTable "status" [x] s) as [->|[err ->]];
      [by left|right; by eexists].
  - intros faults x. unfold ServiceChecks.
    destruct (Get_faults faults checkTable "service" [x] s) as [->|[err ->]];
      [by left|right; by eexists].
  - intros faults x. unfold NodeChecks.
    destruct (Get_faults faults checkTable "id" [x] s) as [->|[err ->]];
      [by left|right; by eexists].
Qed.

(** ** Node dumps *)

Lemma parseNodeInfo_loop_noFaults res dump db dn cm :
  parseNodeInfo_loop (E:=()) res dump (mkTx db [] dn cm) =
  (inr (dump ++ (node_info db <$> res)), mkTx db [] dn cm).
Proof.
  revert dump. induction res as [|node res IH]; intros dump; simpl.
  { by rewrite app_nil_r. }
  unfold bind, capture, GetTxn, engineOp. simpl.
  rewrite IH. by rewrite <- app_assoc.
Qed.

Lemma matches_checks_of_node (node : string) (kr : string * string * HealthCheck) :
  matches (schema_index checkTable "node") [node] kr = true ↔ HC_Node kr.2 = node.
Proof.
  unfold matches, schema_index. simpl. rewrite bool_decide_eq_true. split.
  - intros [l Hl]. simpl in Hl. by injection Hl as ->.
  - intros <-. by exists [HC_ServiceID kr.2].
Qed.

(** X17: [NodeDump] has one entry per registered node, in the order of
    [Nodes]; [NodeInfo] has the entry of the node, and none for a name that
    is not registered.  The entry of a node lists the services stored under
    the node and the checks whose Node it is, with or without a service. *)
Theorem NodeDump_spec s :
  let idx := N.max (lastIndex (db_nodes s))
               (N.max (lastIndex (db_services s)) (lastIndex (db_checks s))) in
  NodeDump noFaults s = Some (idx, node_info s <$> (Nodes noFaults s).2) ∧
  (∀ node, NodeInfo noFaults node s =
           Some (idx, node_info s <$> option_list (rows (db_nodes s) !! node))) ∧
  (∀ n srv, srv ∈ NI_Services (node_info s n) ↔
            ∃ k r, rows (db_services s) !! k = Some r ∧ k.1 = Node_Node n ∧
                   srv = SN_toNodeService r) ∧
  (∀ n x, x ∈ NI_Checks (node_info s n) ↔
          ∃ k c, rows (db_checks s) !! k = Some c ∧ HC_Node c = Node_Node n ∧
                 x = Some c).
Proof.
  intros idx. split; [|split; [|split]].
  - unfold NodeDump, Nodes. rewrite (Get_noFaults nodeTable "id" _ _ _ eq_refl).
    unfold noFaults, StartTxn, runQuery, bind, orPanic, orReturn, capture,
      LastIndexTxnAll, GetTxn, engineOp, parseNodeInfo. simpl.
    rewrite parseNodeInfo_loop_noFaults. simpl. unfold idx.
    by rewrite N.max_0_r.
  - intros node.
    unfold NodeInfo, noFaults, StartTxn, runQuery, bind, orPanic, orReturn, capture,
      LastIndexTxnAll, GetTxn, engineOp, parseNodeInfo. simpl.
    rewrite parseNodeInfo_loop_noFaults. simpl.
    rewrite (nodes_get_id _ _ _ eq_refl). unfold idx. by rewrite N.max_0_r.
  - intros n srv. unfold node_info. simpl. rewrite list_elem_of_fmap. split.
    + intros (r & -> & Hr). apply elem_of_tbl_get in Hr as (k & Hk & Hm).
      exists k, r. split; [done|]. split; [|done].
      by apply (matches_key2_first _ (Node_Node n) (k, r)) in Hm.
    + intros (k & r & Hk & Hn & ->). exists r. split; [done|].
      apply elem_of_tbl_get. exists k. split; [done|].
      by apply (matches_key2_first _ (Node_Node n) (k, r)).
  - intros n x. unfold node_info. simpl. rewrite list_elem_of_fmap. split.
    + intros (c & -> & Hc). apply elem_of_tbl_get in Hc as (k & Hk & Hm).
      exists k, c. split; [done|]. split; [|done].
      by apply (matches_checks_of_node (Node_Node n) (k, c)) in Hm.
    + intros (k & c & Hk & Hn & ->). exists c. split; [done|].
      apply elem_of_tbl_get. exists k. split; [done|].
      by apply (matches_checks_of_node (Node_Node n) (k, c)).
Qed.

(** ** The services and their tags *)

Lemma Services_tags_spec name srvTags tags (services : gmap string (list string)) :
  services !! name = Some tags → NoDup tags →
  (Services_tags name srvTags tags services).2 !! name =
    Some (Services_tags name srvTags tags services).1 ∧
  NoDup (Services_tags name srvTags tags services).1 ∧
  (∀ tag, tag ∈ (Services_tags name srvTags tags services).1 ↔
          tag ∈ tags ∨ tag ∈ srvTags) ∧
  ∀ other, other ≠ name →
           (Services_tags name srvTags tags services).2 !! other = services !! other.
Proof.
  unfold Services_tags. revert tags services.
  induction srvTags as [|t srvTags IH]; intros tags services Hl Hnd; simpl.
  { repeat split; try done. - by left. - intros [?|H]; [done|by apply elem_of_nil in H]. }
  unfold strContains. destruct (decide (t ∈ tags)) as [Hin|Hnin].
  - rewrite bool_decide_eq_true_2 by done. simpl.
    destruct (IH tags services Hl Hnd) as (H1 & H2 & H3 & H4).
    repeat split; try done.
    + intros H. apply H3 in H as [?|?]; [by left|right; by right].
    + intros [ ? | [ -> | ?]%elem_of_cons]; apply H3; auto.
  - rewrite bool_decide_eq_false_2 by done. simpl.
    destruct (IH (tags ++ [t]) (<[name := tags ++ [t]]> services)) as (H1 & H2 & H3 & H4).
    { apply lookup_insert_eq. }
    { apply NoDup_app. split; [done|]. split; [|apply NoDup_singleton].
      intros x Hx ->%list_elem_of_singleton. done. }
    repeat split; try done.
    + intros H. apply H3 in H as [[? | ->%list_elem_of_singleton]%elem_of_app|?].
      * by left.
      * right. left.
      * right. by right.
    + intros [ ? | [ -> | ?]%elem_of_cons]; apply H3.
      * left. apply elem_of_app. by left.
      * left. apply elem_of_app. right. by apply list_elem_of_singleton.
      * by right.
    + intros other Hne. rewrite H4 by done. by rewrite lookup_insert_ne.
Qed.

Lemma Services_row_inv seen m srv :
  services_inv seen m → services_inv (seen ++ [srv]) (Services_row m srv).
Proof.
  intros Hinv name. unfold Services_row.
  set (n := SN_ServiceName srv).
  set (tags0 := default [] (m !! n)).
  set (m0 := match m !! n with Some _ => m | None => <[n := []]> m end).
  assert (m0 !! n = Some tags0) as H0.
  { unfold m0, tags0. destruct (m !! n) eqn:E; simpl; [done|apply lookup_insert_eq]. }
  assert (NoDup tags0) as Hnd0.
  { unfold tags0. specialize (Hinv n). destruct (m !! n); simpl; [tauto|constructor]. }
  destruct (Services_tags_spec n (SN_ServiceTags srv) tags0 m0 H0 Hnd0)
    as (H1 & H2 & H3 & H4).
  destruct (decide (name = n)) as [ -> | Hne].
  - rewrite H1. split; [done|]. split.
    { exists srv. split; [|done]. apply elem_of_app. right. by left. }
    intros tag. rewrite H3. specialize (Hinv n). unfold tags0. split.
    + intros [Ht|Ht].
      * destruct (m !! n) as [tags|]; simpl in Ht; [|by apply elem_of_nil in Ht].
        destruct Hinv as (_ & _ & Hi). apply Hi in Ht as (srv' & ? & ? & ?).
        exists srv'. split; [|done]. apply elem_of_app. by left.
      * exists srv. split; [|done]. apply elem_of_app. right. by left.
    + intros (srv' & [Hin | ->%list_elem_of_singleton]%elem_of_app & Hn & Ht);
        [|by right].
      left. destruct (m !! n) as [tags|]; simpl.
      * destruct Hinv as (_ & _ & Hi). apply Hi. by exists srv'.
      * by destruct (Hinv srv' Hin).
  - rewrite H4 by done.
    assert (m0 !! name = m !! name) as ->.
    { unfold m0. destruct (m !! n); [done|]. by rewrite lookup_insert_ne. }
    specialize (Hinv name). destruct (m !! name) as [tags|].
    + destruct Hinv as (Hnd & (srv' & Hin & Hn) & Hi). split; [done|]. split.
      { exists srv'. split; [|done]. apply elem_of_app. by left. }
      intros tag. rewrite Hi. split.
      * intros (srv'' & ? & ? & ?). exists srv''. split; [|done].
        apply elem_of_app. by left.
      * intros (srv'' & [? | ->%list_elem_of_singleton]%elem_of_app & Hn' & Ht).
        -- by exists srv''.
        -- by destruct Hne.
    + intros srv' [? | ->%list_elem_of_singleton]%elem_of_app; [by apply Hinv|].
      by intros <-.
Qed.

Lemma Services_fold_inv seen l m :
  services_inv seen m → services_inv (seen ++ l) (foldl Services_row m l).
Proof.
  revert seen m. induction l as [|srv l IH]; intros seen m Hinv; simpl.
  - by rewrite app_nil_r.
  - rewrite (cons_middle srv), app_assoc. apply IH. by apply Services_row_inv.
Qed.

(** X18: [Services] groups the services rows by service name.  A name is a
    key of the map exactly when a row has it, and the tags under it are the
    tags of the rows of that name, each tag once (a name none of whose rows
    has a tag is a key with no tags).  The index is the watermark of the
    services table; when the lookup fails the map is empty. *)
Theorem Services_spec s :
  (∃ m, Services noFaults s = (lastIndex (db_services s), m) ∧
        ∀ name,
          match m !! name with
          | None => ∀ k srv, rows (db_services s) !! k = Some srv →
                             SN_ServiceName srv ≠ name
          | Some tags =>
              NoDup tags ∧
              (∃ k srv, rows (db_services s) !! k = Some srv ∧
                        SN_ServiceName srv = name) ∧
              ∀ tag, tag ∈ tags ↔
                     ∃ k srv, rows (db_services s) !! k = Some srv ∧
                              SN_ServiceName srv = name ∧ tag ∈ SN_ServiceTags srv
          end) ∧
  ∀ faults, Services faults s = Services noFaults s ∨
            ∃ idx, Services faults s = (idx, ∅).
Proof.
  split.
  - unfold Services. rewrite (Get_noFaults serviceTable "id" _ _ _ eq_refl).
    eexists. split; [reflexivity|]. intros name.
    set (l := tbl_get _ _ _).
    assert (∀ srv, srv ∈ l ↔ ∃ k, rows (db_services s) !! k = Some srv) as Hl.
    { intros srv. unfold l. rewrite elem_of_tbl_get. split.
      - intros (k & Hk & _). by exists k.
      - intros (k & Hk). exists k. split; [done|]. reflexivity. }
    assert (services_inv [] ∅) as H0.
    { intros nm. rewrite lookup_empty. intros srv H. by apply elem_of_nil in H. }
    pose proof (Services_fold_inv [] l ∅ H0 name) as Hinv. simpl in Hinv.
    destruct (foldl Services_row ∅ l !! name) as [tags|].
    + destruct Hinv as (Hnd & (srv & Hin & Hn) & Hi). split; [done|]. split.
      { apply Hl in Hin as [k Hk]. by exists k, srv. }
      intros tag. rewrite Hi. split.
      * intros (srv' & Hin' & ? & ?). apply Hl in Hin' as [k Hk]. by exists k, srv'.
      * intros (k & srv' & Hk & ? & ?). exists srv'. split; [|done].
        apply Hl. by exists k.
    + intros k srv Hk. apply Hinv, Hl. by exists k.
  - intros faults. unfold Services.
    destruct (Get_faults faults serviceTable "id" [] s) as [ -> | [err ->]];
      [by left|right; by eexists].
Qed.

(** ** Service queries on a closed catalog *)

Lemma services_named_node service s srv :
  store_wf s → catalog_ok s → srv ∈ services_named service s →
  is_Some (rows (db_nodes s) !! SN_Node srv).
Proof.
  intros (_ & Hs & _) [Hsn _] Hin. unfold services_named in Hin.
  apply list_elem_of_fmap in Hin as ([k r] & -> & Hin).
  apply elem_of_map_to_list, map_lookup_filter_Some in Hin as [Hk _]. simpl.
  specialize (Hs k r Hk). specialize (Hsn k r Hk). simpl in *.
  by rewrite <- Hs in Hsn.
Qed.

Lemma Forall2_fmap_same {A B} (f : A → B) (P : A → B → Prop) (l : list A) :
  Forall (λ x, P x (f x)) l → Forall2 P l (f <$> l).
Proof. induction 1; constructor; done. Qed.

(** X19: on a store whose catalog is closed under its references (as every
    store is that the write methods lead to) the joins of the service queries
    find their node: every element of [ServiceNodes] and [ServiceTagNodes] is
    a matching services row with the address of its node filled in, every
    element of [CheckServiceNodes] is the node and the service of a matching
    row, and no element is left at its zero value. *)
Theorem service_queries_joined service tag s :
  store_wf s → catalog_ok s →
  let idx := N.max (lastIndex (db_nodes s)) (lastIndex (db_services s)) in
  let joined (srv x : ServiceNode) :=
    ∃ n, rows (db_nodes s) !! SN_Node srv = Some n ∧
         x = SN_withAddress (Node_Address n) srv in
  (∃ res nodes, res ≡ₚ services_named service s ∧
     ServiceNodes noFaults service s = Some (idx, nodes) ∧
     Forall2 joined res nodes) ∧
  (∃ res nodes, res ≡ₚ services_tagged service tag s ∧
     ServiceTagNodes noFaults service tag s = Some (idx, nodes) ∧
     Forall2 joined res nodes) ∧
  (∃ idx' res nodes, res ≡ₚ services_named service s ∧
     CheckServiceNodes noFaults service s = Some (idx', nodes) ∧
     Forall2 (λ srv x, rows (db_nodes s) !! SN_Node srv = Some (CSN_Node x) ∧
                       CSN_Service x = SN_toNodeService srv) res nodes).
Proof.
  intros Hwf Hok idx joined.
  pose proof (services_get_service service s _ eq_refl) as Hnamed.
  assert (serviceTagFilter
            (tbl_get (schema_index serviceTable "service") [service] (db_services s))
            tag ≡ₚ services_tagged service tag s) as Htagged.
  { rewrite serviceTagFilter_perm, <- services_tagged_perm.
    apply filter_Permutation. exact Hnamed. }
  assert (∀ srv, srv ∈ services_tagged service tag s → srv ∈ services_named service s)
    as Hsub.
  { intros srv. rewrite <- services_tagged_perm. by intros [_ ?]%list_elem_of_filter. }
  pose proof (λ res, parseServiceNodes_loop_noFaults res [] s [] false) as Hl.
  pose proof (λ res, parseCheckServiceNodes_loop_noFaults res [] s [] false) as Hc.
  simpl in Hl, Hc.
  split; [|split].
  - eexists _, _. split; [exact Hnamed|]. split.
    + unfold ServiceNodes, noFaults, StartTxn, runQuery, bind, orPanic, orReturn,
        capture, LastIndexTxnAll, GetTxn, engineOp, parseServiceNodes. simpl.
      rewrite Hl. unfold idx. by rewrite N.max_0_r.
    + apply Forall2_fmap_same, Forall_forall. intros srv Hin.
      rewrite Hnamed in Hin.
      destruct (services_named_node service s srv Hwf Hok Hin) as [n Hn].
      exists n. split; [done|]. unfold joinNode. by rewrite Hn.
  - eexists _, _. split; [exact Htagged|]. split.
    + unfold ServiceTagNodes, noFaults, StartTxn, runQuery, bind, orPanic, orReturn,
        capture, LastIndexTxnAll, GetTxn, engineOp, parseServiceNodes. simpl.
      rewrite Hl. unfold idx. by rewrite N.max_0_r.
    + apply Forall2_fmap_same, Forall_forall. intros srv Hin.
      rewrite Htagged in Hin. apply Hsub in Hin.
      destruct (services_named_node service s srv Hwf Hok Hin) as [n Hn].
      exists n. split; [done|]. unfold joinNode. by rewrite Hn.
  - eexists _, _, _. split; [exact Hnamed|]. split.
    + unfold CheckServiceNodes, noFaults, StartTxn, runQuery, bind, orPanic, orReturn,
        capture, LastIndexTxnAll, GetTxn, engineOp, parseCheckServiceNodes. simpl.
      rewrite Hc. reflexivity.
    + apply Forall2_fmap_same, Forall_forall. intros srv Hin.
      rewrite Hnamed in Hin.
      destruct (services_named_node service s srv Hwf Hok Hin) as [n Hn].
      unfold joinCheckNode. rewrite Hn. done.
Qed.

Lemma service_queries_joined_witness :
  store_wf example_service_store ∧ catalog_ok example_service_store ∧
  ∃ res nodes, res ≡ₚ services_named "web-name" example_service_store ∧
    ServiceNodes noFaults "web-name" example_service_store = Some (2%N, nodes) ∧
    Forall2 (λ srv x, ∃ n, rows (db_nodes example_service_store) !! SN_Node srv = Some n ∧
                           x = SN_withAddress (Node_Address n) srv) res nodes.
Proof.
  split; [exact store_wf_example_service|].
  split; [exact catalog_ok_example_service|].
  exact (proj1 (service_queries_joined "web-name" "a" example_service_store
                  store_wf_example_service catalog_ok_example_service)).
Defined.

(** ** The tag filter *)

Lemma serviceTagFilter_loop_all tag fuel (l : list ServiceNode) (i n : nat) :
  Forall (λ srv, tag ∈ SN_ServiceTags srv) l →
  serviceTagFilter_loop fuel l tag i n = take n l.
Proof.
  intros Hall. revert i. induction fuel as [|fuel IH]; intros i; simpl; [done|].
  destruct (i <? n)%nat; [|done].
  destruct (l !! i) as [srv|] eqn:Hi; [|done].
  destruct (l !! (n - 1)) as [lastRow|]; [|done].
  rewrite Forall_forall in Hall.
  assert (tag ∈ SN_ServiceTags srv) as Ht by (eapply Hall, list_elem_of_lookup_2, Hi).
  unfold strContains. rewrite bool_decide_eq_true_2 by done. simpl. apply IH.
Qed.

(** X20: [serviceTagFilter] keeps the rows that carry the tag and drops the
    others.  It swaps rows while it drops, so the result is the rows with the
    tag in some order; a slice in which every row has the tag comes back as
    it is, and a slice in which none has it comes back empty. *)
Theorem serviceTagFilter_spec (l : list ServiceNode) (tag : string) :
  serviceTagFilter l tag ≡ₚ filter (λ srv, tag ∈ SN_ServiceTags srv) l ∧
  (Forall (λ srv, tag ∈ SN_ServiceTags srv) l → serviceTagFilter l tag = l) ∧
  (Forall (λ srv, tag ∉ SN_ServiceTags srv) l → serviceTagFilter l tag = []).
Proof.
  split; [apply serviceTagFilter_perm|]. split.
  - intros Hall. unfold serviceTagFilter.
    rewrite serviceTagFilter_loop_all by done. apply firstn_all.
  - intros Hnone. apply Permutation_nil_r. rewrite serviceTagFilter_perm.
    induction Hnone as [|srv l Hs _ IH]; [done|].
    by rewrite filter_cons_False.
Qed.

Lemma serviceTagFilter_spec_witness :
  let l := [mkServiceNode "n1" "" "a" "web" ["x"] 80;
            mkServiceNode "n2" "" "b" "web" ["x"; "y"] 81] in
  Forall (λ srv, "x" ∈ SN_ServiceTags srv) l ∧ serviceTagFilter l "x" = l.
Proof.
  intros l.
  assert (Forall (λ srv, "x" ∈ SN_ServiceTags srv) l) as Hall.
  { repeat constructor. }
  split; [exact Hall|].
  exact (proj1 (proj2 (serviceTagFilter_spec l "x")) Hall).
Defined.

(** ** Check-and-set as a lock *)

(** X21: an attempt wins at most once.  After a check-and-set has gone
    through, the same attempt (the same key and ModifyIndex) is turned down
    at any later index, whatever the table layer does, and leaves the store
    as it is; unless the winning call ran at the very index the attempt
    carries. *)
Theorem KVSCheckAndSet_once faults index d s s' n :
  KVSCheckAndSet faults index d s = Returned (true, None) s' n →
  DE_ModifyIndex d = 0%N ∨ index ≠ DE_ModifyIndex d →
  ∀ faults' index', ∃ err,
    KVSCheckAndSet faults' index' d s' = Returned (false, err) s' [].
Proof.
  intros Hwin Hidx.
  assert (s' = kvs_written index d s) as ->.
  { destruct (KVSCheckAndSet_faults faults index d s)
      as [He|(_ & [[err He]|(_ & b & err & n' & He)])]; rewrite He in Hwin;
      try discriminate.
    destruct (cas_condition_cases s d) as [Hc|Hc].
    - rewrite KVSCheckAndSet_noFaults_ok in Hwin by done. by injection Hwin as <- _.
    - rewrite KVSCheckAndSet_noFaults_fail in Hwin by done. discriminate. }
  assert (¬ cas_condition (kvs_written index d s) d) as Hno.
  { unfold cas_condition. rewrite kvs_entry_written, decide_True by done.
    intros [[_ ?]|(Hpos & e & [= <-] & He)]; [done|]. simpl in He.
    destruct Hidx as [H0|Hne]; [|done]. rewrite H0 in Hpos. lia. }
  intros faults' index'.
  destruct (KVSCheckAndSet_faults faults' index' d (kvs_written index d s))
    as [He|(_ & [[err He]|(Hc & _)])].
  - exists None. by rewrite He, KVSCheckAndSet_noFaults_fail.
  - by exists (Some err).
  - done.
Qed.

Lemma KVSCheckAndSet_once_witness :
  let d := mkDirEntry 0 0 "c" 0 [] in
  KVSCheckAndSet noFaults 20 d emptyDB = Returned (true, None) example_cas_store [dbKVS] ∧
  (DE_ModifyIndex d = 0%N ∨ 20%N ≠ DE_ModifyIndex d) ∧
  ∃ err, KVSCheckAndSet noFaults 21 d example_cas_store =
         Returned (false, err) example_cas_store [].
Proof.
  intros d.
  assert (KVSCheckAndSet noFaults 20 d emptyDB =
          Returned (true, None) example_cas_store [dbKVS]) as Hwin by reflexivity.
  assert (DE_ModifyIndex d = 0%N ∨ 20%N ≠ DE_ModifyIndex d) as Hidx by (by left).
  split; [exact Hwin|]. split; [exact Hidx|].
  exact (KVSCheckAndSet_once noFaults 20 d emptyDB example_cas_store [dbKVS]
           Hwin Hidx noFaults 21%N).
Defined.

(** ** Sessions and their check mappings *)

Lemma sessionChecks_added_lookup session t k :
  rows (sessionChecks_added session t) !! k =
  if decide (k.1.1 = S_Node session ∧ k.1.2 ∈ S_Checks session ∧ k.2 = S_ID session)
  then Some (sCheck session k.1.2)
  else rows t !! k.
Proof.
  unfold sessionChecks_added. revert t.
  induction (S_Checks session) as [|c l IH]; intros t; simpl.
  { rewrite decide_False; [done|]. intros (_ & H & _). by apply elem_of_nil in H. }
  rewrite IH. unfold tbl_insert. simpl.
  destruct k as [[k1 k2] k3]. simpl.
  destruct (decide (k1 = S_Node session ∧ k2 ∈ l ∧ k3 = S_ID session))
    as [(-> & Hin & ->)|Hn].
  - rewrite decide_True; [done|]. repeat split; try done. by right.
  - destruct (decide ((k1, k2, k3) = (S_Node session, c, S_ID session)))
      as [[= -> -> ->]|Hne].
    + rewrite lookup_insert_eq. rewrite decide_True; [done|].
      repeat split; try done. by left.
    + rewrite lookup_insert_ne by done. rewrite decide_False; [done|].
      intros (-> & [ -> | Hin]%elem_of_cons & ->); [done|]. by destruct Hn.
Qed.

(** X22: what [SessionCreate] stores.  A session that is accepted under a
    fresh ID is stored under that ID with the index of the call as its
    CreateIndex, and for every check it lists there is then the mapping row
    (Node, CheckID, ID); no other row of the two tables changes, and no other
    table does. *)
Theorem SessionCreate_stored fuel uuid index session s :
  session_accepted s session → rows (db_sessions s) !! uuid = None →
  ∃ s', SessionCreate (S fuel) uuid noFaults index session s =
          Some (Returned None s' [dbSessionChecks; dbSessions]) ∧
    (∀ id, rows (db_sessions s') !! id =
           if decide (id = uuid)
           then Some (mkSession index uuid (S_Name session) (S_Node session)
                                (S_Checks session))
           else rows (db_sessions s) !! id) ∧
    (∀ k, rows (db_sessionChecks s') !! k =
          if decide (k.1.1 = S_Node session ∧ k.1.2 ∈ S_Checks session ∧ k.2 = uuid)
          then Some (mkSessionCheck (S_Node session) k.1.2 uuid)
          else rows (db_sessionChecks s) !! k) ∧
    db_nodes s' = db_nodes s ∧ db_services s' = db_services s ∧
    db_checks s' = db_checks s ∧ db_kvs s' = db_kvs s.
Proof.
  intros Hacc Hfresh. eexists. split; [by apply SessionCreate_noFaults_ok|].
  split; [|split; [|done]].
  - intros id. unfold session_stored, tbl_insert, tbl_setLastIndex. simpl.
    destruct (decide (id = uuid)) as [->|Hne].
    + by rewrite lookup_insert_eq.
    + by rewrite lookup_insert_ne.
  - intros k. unfold session_stored, tbl_setLastIndex. simpl.
    by rewrite sessionChecks_added_lookup.
Qed.

Lemma SessionCreate_stored_witness :
  session_accepted example_checks_store example_session ∧
  rows (db_sessions example_checks_store) !! "uuid-1" = None ∧
  ∃ s', SessionCreate 1 "uuid-1" noFaults 30 example_session example_checks_store =
          Some (Returned None s' [dbSessionChecks; dbSessions]) ∧
        rows (db_sessionChecks s') !! ("n1", "c2", "uuid-1") =
          Some (mkSessionCheck "n1" "c2" "uuid-1").
Proof.
  pose proof example_session_accepted as Hacc.
  assert (rows (db_sessions example_checks_store) !! "uuid-1" = None) as Hfresh
    by reflexivity.
  split; [exact Hacc|]. split; [exact Hfresh|].
  destruct (SessionCreate_stored 0 "uuid-1" 30 example_session example_checks_store
              Hacc Hfresh) as (s' & H1 & _ & H3 & _).
  exists s'. split; [exact H1|].
  rewrite (H3 ("n1", "c2", "uuid-1")). apply decide_True.
  repeat split. simpl. repeat constructor.
Defined.

(** X23: [SessionRestore] checks nothing.  Whether or not the node and the
    checks of the session exist, it stores the session under its own ID as
    it is, adds the mapping row of every check it lists, raises the
    watermarks of both tables to the CreateIndex of the session unless they
    are beyond it, and notifies both tables. *)
Theorem SessionRestore_spec session s :
  ∃ s', SessionRestore noFaults session s =
          Returned None s' [dbSessionChecks; dbSessions] ∧
    (∀ id, rows (db_sessions s') !! id =
           if decide (id = S_ID session) then Some session
           else rows (db_sessions s) !! id) ∧
    (∀ k, rows (db_sessionChecks s') !! k =
          if decide (k.1.1 = S_Node session ∧ k.1.2 ∈ S_Checks session ∧
                     k.2 = S_ID session)
          then Some (mkSessionCheck (S_Node session) k.1.2 (S_ID session))
          else rows (db_sessionChecks s) !! k) ∧
    lastIndex (db_sessions s') =
      N.max (lastIndex (db_sessions s)) (S_CreateIndex session) ∧
    lastIndex (db_sessionChecks s') =
      N.max (lastIndex (db_sessionChecks s)) (S_CreateIndex session) ∧
    db_nodes s' = db_nodes s ∧ db_services s' = db_services s ∧
    db_checks s' = db_checks s ∧ db_kvs s' = db_kvs s.
Proof.
  eexists. split; [apply SessionRestore_noFaults|].
  split; [|split; [|split; [|split; [|done]]]].
  - intros id. unfold session_restored, tbl_insert, tbl_setMaxLastIndex. simpl.
    destruct (decide (id = S_ID session)) as [->|Hne].
    + by rewrite lookup_insert_eq.
    + by rewrite lookup_insert_ne.
  - intros k. unfold session_restored, tbl_setMaxLastIndex. simpl.
    by rewrite sessionChecks_added_lookup.
  - done.
  - unfold session_restored, tbl_setMaxLastIndex. simpl.
    by rewrite sessionChecks_added_lastIndex.
Qed.

(** ** Snapshots *)

(** X24: a snapshot reads what the store reads.  [Snapshot] records the
    largest of the six watermarks, and the reads through the snapshot return
    what [Nodes], [NodeServices], [NodeChecks] and [KVSList] of every key
    return on the store the snapshot was taken of. *)
Theorem Snapshot_reads s :
  ∃ snap, Snapshot noFaults s = (Some snap, None) ∧
    (∀ t, (watermark t s ≤ Snapshot_LastIndex snap)%N) ∧
    (∃ t, Snapshot_LastIndex snap = watermark t s) ∧
    Snapshot_Nodes noFaults snap = (Nodes noFaults s).2 ∧
    (∀ name, Snapshot_NodeServices noFaults snap name =
             snd <$> NodeServices noFaults name s) ∧
    (∀ node, Snapshot_NodeChecks noFaults snap node = (NodeChecks noFaults node s).2) ∧
    KVSDump noFaults snap = ((KVSList noFaults "" s).1.2, None).
Proof.
  eexists. split; [reflexivity|].
  split; [|split; [|split; [|split; [|split]]]].
  - intros []; simpl; lia.
  - unfold Snapshot_LastIndex. simpl.
    set (a := lastIndex (db_nodes s)). set (b := lastIndex (db_services s)).
    set (c := lastIndex (db_checks s)). set (d := lastIndex (db_kvs s)).
    set (e := lastIndex (db_sessions s)). set (f := lastIndex (db_sessionChecks s)).
    destruct (N.max_spec e (N.max f 0)) as [[_ He]|[_ He]];
    destruct (N.max_spec d (N.max e (N.max f 0))) as [[_ Hd]|[_ Hd]];
    destruct (N.max_spec c (N.max d (N.max e (N.max f 0)))) as [[_ Hc]|[_ Hc]];
    destruct (N.max_spec b (N.max c (N.max d (N.max e (N.max f 0)))))
      as [[_ Hb]|[_ Hb]];
    destruct (N.max_spec a (N.max b (N.max c (N.max d (N.max e (N.max f 0))))))
      as [[_ Ha]|[_ Ha]];
    rewrite Ha, ?Hb, ?Hc, ?Hd, ?He, ?N.max_0_r;
    first [ by exists TNodes | by exists TServices | by exists TChecks
          | by exists TKVS | by exists TSessions | by exists TSessionChecks ].
  - reflexivity.
  - intros name.
    unfold Snapshot_NodeServices, NodeServices, snapshotTx, noFaults, StartTxn,
      runQuery, parseNodeServices, bind, orPanic, orReturn, capture, LastIndexTxnAll,
      GetTxn, engineOp. simpl.
    by destruct (tbl_get _ _ (db_nodes s)).
  - reflexivity.
  - unfold KVSDump, KVSList. rewrite (Get_noFaults kvsTable "id_prefix" _ _ _ eq_refl).
    unfold StreamTxn, GetTxn, engineOp, snapshotTx. simpl. f_equal.
    unfold tbl_get. f_equal. apply list_filter_iff. intros [[|c k] d]; done.
Qed.

(** ** Queries and the tables they read *)

Section reads.
Context (R : DB → DB → Prop).

Lemma reads_ret {E A} (a : A) : reads_only R (E:=E) (ret a).
Proof. intros st st' HR Hf. done. Qed.

Lemma reads_bind {E A B} (m : Tx E A) (f : A → Tx E B) :
  reads_only R m → (∀ a, reads_only R (f a)) → reads_only R (bind m f).
Proof.
  intros Hm Hf st st' HR Hfs. unfold bind.
  destruct (Hm st st' HR Hfs) as (H1 & H2 & H3).
  destruct (m st) as [r st1], (m st') as [r' st1']. simpl in *. subst r'.
  destruct r as [e|a]; [done|]. by apply Hf.
Qed.

Lemma reads_capture {E A} (zero : A) (m : Tx error A) :
  reads_only R m → reads_only R (E:=E) (capture zero m).
Proof.
  intros Hm st st' HR Hfs. unfold capture.
  destruct (Hm st st' HR Hfs) as (H1 & H2 & H3).
  destruct (m st) as [r st1], (m st') as [r' st1']. simpl in *. subst r'.
  by destruct r.
Qed.

Lemma reads_orReturn {E E' A} (h : E → E') (m : Tx E A) :
  reads_only R m → reads_only R (orReturn h m).
Proof.
  intros Hm st st' HR Hfs. unfold orReturn.
  destruct (Hm st st' HR Hfs) as (H1 & H2 & H3).
  destruct (m st) as [r st1], (m st') as [r' st1']. simpl in *. subst r'.
  by destruct r.
Qed.

Lemma reads_engineOp {A} (f : DB → (error + A) * DB) :
  (∀ db db', R db db' → (f db).1 = (f db').1 ∧ R (f db).2 (f db').2) →
  reads_only R (engineOp f).
Proof.
  intros Hf [db fs dn cm] [db' fs' dn' cm'] HR Hfs. simpl in *. subst fs'.
  unfold engineOp. simpl. destruct (Hf db db' HR) as [H1 H2].
  destruct (f db) as [r d1], (f db') as [r' d1']. simpl in *. subst r'.
  by destruct fs as [|[] fs].
Qed.

Lemma reads_GetTxn {K} `{Countable K} `{!KeyOrder K} {T} (t : MDBTable K T)
    index parts :
  (∀ db db', R db db' → tget t db = tget t db') →
  reads_only R (GetTxn t index parts).
Proof.
  intros Ht. apply reads_engineOp. intros db db' HR. rewrite (Ht db db' HR).
  by destruct (getIndex index (Indexes t)).
Qed.

Lemma reads_LastIndexTxn {K} `{Countable K} `{!KeyOrder K} {T} (t : MDBTable K T) :
  (∀ db db', R db db' → tget t db = tget t db') →
  reads_only R (LastIndexTxn t).
Proof.
  intros Ht. apply reads_engineOp. intros db db' HR. by rewrite (Ht db db' HR).
Qed.

Lemma reads_LastIndexTxnAll (tables : list TableHandle) :
  (∀ db db', R db db' → Forall (λ h, hLastIndex h db = hLastIndex h db') tables) →
  reads_only R (LastIndexTxnAll tables).
Proof.
  intros Ht. apply reads_engineOp. intros db db' HR. split; [|done]. simpl.
  f_equal. specialize (Ht db db' HR).
  induction Ht as [|h l Hh _ IH]; simpl; [done|]. by rewrite Hh, IH.
Qed.

Lemma reads_parseServiceNodes_loop {E} res i nodes :
  (∀ db db', R db db' → db_nodes db = db_nodes db') →
  reads_only R (E:=E) (parseServiceNodes_loop nodeTable res i nodes).
Proof.
  intros Hn. revert i nodes. induction res as [|srv res IH]; intros i nodes; simpl.
  - apply reads_ret.
  - apply reads_bind; [by apply reads_capture, reads_GetTxn|].
    intros [[|n [|? ?]] [e|]]; apply IH.
Qed.

Lemma reads_parseCheckServiceNodes_loop {E} res i nodes :
  (∀ db db', R db db' → db_nodes db = db_nodes db') →
  (∀ db db', R db db' → db_checks db = db_checks db') →
  reads_only R (E:=E) (parseCheckServiceNodes_loop res i nodes).
Proof.
  intros Hn Hc. revert i nodes. induction res as [|srv res IH]; intros i nodes; simpl.
  - apply reads_ret.
  - apply reads_bind; [by apply reads_capture, reads_GetTxn|].
    intros [[|n [|? ?]] [e|]]; try apply IH.
    apply reads_bind; [by apply reads_capture, reads_GetTxn|]. intros r1.
    apply reads_bind; [by apply reads_capture, reads_GetTxn|]. intros r2.
    apply IH.
Qed.

Lemma reads_parseNodeInfo_loop {E} res dump :
  (∀ db db', R db db' → db_services db = db_services db') →
  (∀ db db', R db db' → db_checks db = db_checks db') →
  reads_only R (E:=E) (parseNodeInfo_loop res dump).
Proof.
  intros Hs Hc. revert dump. induction res as [|node res IH]; intros dump; simpl.
  - apply reads_ret.
  - apply reads_bind; [by apply reads_capture, reads_GetTxn|]. intros r1.
    apply reads_bind; [by apply reads_capture, reads_GetTxn|]. intros r2.
    apply IH.
Qed.

(** A query on two stores that [R] relates has the same value. *)
Lemma runQuery_reads {A} (body : Tx () A) faults s s' :
  R s s' → reads_only R body →
  match StartTxn faults s with inl _ => None | inr tx => runQuery tx body end =
  match StartTxn faults s' with inl _ => None | inr tx => runQuery tx body end.
Proof.
  intros HR Hb. unfold StartTxn, runQuery.
  destruct faults as [|[] fs]; simpl; [|done|].
  - destruct (Hb (mkTx s [] [] false) (mkTx s' [] [] false) HR eq_refl) as [H1 _].
    by rewrite H1.
  - destruct (Hb (mkTx s fs [] false) (mkTx s' fs [] false) HR eq_refl) as [H1 _].
    by rewrite H1.
Qed.

Lemma Get_reads {K} `{Countable K} `{!KeyOrder K} {T} (t : MDBTable K T)
    faults index parts s s' :
  tget t s = tget t s' → Get faults t index parts s = Get faults t index parts s'.
Proof.
  intros Ht. unfold Get, StartTxn, bind, orReturn, LastIndexTxn, GetTxn, engineOp.
  destruct (getIndex index (Indexes t)) as [ix|];
    (destruct faults as [|[] fs]; simpl; rewrite ?Ht; [done..|]);
    (destruct fs as [|[] fs]; simpl; rewrite ?Ht; [done..|]);
    by destruct fs as [|[] fs].
Qed.
End reads.

Lemma query_agree_table q t s s' :
  query_agree q s s' → table_name t ∈ hName <$> queryTables q → table_same t s s'.
Proof. intros H. apply H. Qed.

Ltac agree_on t :=
  let H := fresh "H" in
  intros ? ? H; apply (H t); compute_done.

Ltac agree_index :=
  let H := fresh "H" in
  let db := fresh "db" in
  let db' := fresh "db'" in
  intros db db' H; repeat constructor; simpl; f_equal;
  first [ exact (H TNodes ltac:(compute_done))
        | exact (H TServices ltac:(compute_done))
        | exact (H TChecks ltac:(compute_done))
        | exact (H TKVS ltac:(compute_done)) ].

(** X25: a query reads the tables of its group only.  For every query name
    of [QueryTables], two stores that hold the same tables of the group give
    the same answer to the query, under the same fault schedule: a write
    that changes none of these tables does not change the answer, which is
    why watching the group is enough. *)
Theorem queries_read_their_tables faults s s' :
  (query_agree "Nodes" s s' → Nodes faults s = Nodes faults s') ∧
  (query_agree "Services" s s' → Services faults s = Services faults s') ∧
  (query_agree "ServiceNodes" s s' →
     ∀ service tag,
       ServiceNodes faults service s = ServiceNodes faults service s' ∧
       ServiceTagNodes faults service tag s = ServiceTagNodes faults service tag s') ∧
  (query_agree "NodeServices" s s' →
     ∀ name, NodeServices faults name s = NodeServices faults name s') ∧
  (query_agree "ChecksInState" s s' →
     ∀ state, ChecksInState faults state s = ChecksInState faults state s') ∧
  (query_agree "NodeChecks" s s' →
     ∀ node, NodeChecks faults node s = NodeChecks faults node s') ∧
  (query_agree "ServiceChecks" s s' →
     ∀ service, ServiceChecks faults service s = ServiceChecks faults service s') ∧
  (query_agree "CheckServiceNodes" s s' →
     ∀ service tag,
       CheckServiceNodes faults service s = CheckServiceNodes faults service s' ∧
       CheckServiceTagNodes faults service tag s =
       CheckServiceTagNodes faults service tag s') ∧
  (query_agree "NodeInfo" s s' →
     ∀ node, NodeInfo faults node s = NodeInfo faults node s') ∧
  (query_agree "NodeDump" s s' → NodeDump faults s = NodeDump faults s') ∧
  (query_agree "KVSGet" s s' → ∀ key, KVSGet faults key s = KVSGet faults key s') ∧
  (query_agree "KVSList" s s' →
     ∀ prefix, KVSList faults prefix s = KVSList faults prefix s') ∧
  (query_agree "KVSListKeys" s s' →
     ∀ prefix seperator,
       KVSListKeys faults prefix seperator s = KVSListKeys faults prefix seperator s').
Proof.
  split.
  { intros H. unfold Nodes.
    by rewrite (Get_reads nodeTable faults "id" [] s s' (H TNodes ltac:(compute_done))). }
  split.
  { intros H. unfold Services.
    by rewrite (Get_reads serviceTable faults "id" [] s s'
                  (H TServices ltac:(compute_done))). }
  split.
  { intros H service tag. split.
    - unfold ServiceNodes. apply (runQuery_reads (query_agree "ServiceNodes")); [done|].
      apply reads_bind; [apply reads_orReturn, reads_LastIndexTxnAll; agree_index|].
      intros idx.
      apply reads_bind; [apply reads_capture, reads_GetTxn; agree_on TServices|].
      intros res. apply reads_bind; [|intros ?; apply reads_ret].
      unfold parseServiceNodes. destruct res.2; [apply reads_ret|].
      apply reads_parseServiceNodes_loop. agree_on TNodes.
    - unfold ServiceTagNodes.
      apply (runQuery_reads (query_agree "ServiceNodes")); [done|].
      apply reads_bind; [apply reads_orReturn, reads_LastIndexTxnAll; agree_index|].
      intros idx.
      apply reads_bind; [apply reads_capture, reads_GetTxn; agree_on TServices|].
      intros res. apply reads_bind; [|intros ?; apply reads_ret].
      unfold parseServiceNodes. destruct res.2; [apply reads_ret|].
      apply reads_parseServiceNodes_loop. agree_on TNodes. }
  split.
  { intros H name. unfold NodeServices.
    apply (runQuery_reads (query_agree "NodeServices")); [done|].
    unfold parseNodeServices.
    apply reads_bind; [apply reads_orReturn, reads_LastIndexTxnAll; agree_index|].
    intros idx. apply reads_bind; [apply reads_capture, reads_GetTxn; agree_on TNodes|].
    intros res. destruct res.1; [apply reads_ret|].
    apply reads_bind; [apply reads_capture, reads_GetTxn; agree_on TServices|].
    intros ?. apply reads_ret. }
  split.
  { intros H state. unfold ChecksInState.
    by rewrite (Get_reads checkTable faults "status" [state] s s'
                  (H TChecks ltac:(compute_done))). }
  split.
  { intros H node. unfold NodeChecks.
    by rewrite (Get_reads checkTable faults "id" [node] s s'
                  (H TChecks ltac:(compute_done))). }
  split.
  { intros H service. unfold ServiceChecks.
    by rewrite (Get_reads checkTable faults "service" [service] s s'
                  (H TChecks ltac:(compute_done))). }
  split.
  { intros H service tag. split.
    - unfold CheckServiceNodes.
      apply (runQuery_reads (query_agree "CheckServiceNodes")); [done|].
      apply reads_bind; [apply reads_orReturn, reads_LastIndexTxnAll; agree_index|].
      intros idx.
      apply reads_bind; [apply reads_capture, reads_GetTxn; agree_on TServices|].
      intros res. apply reads_bind; [|intros ?; apply reads_ret].
      unfold parseCheckServiceNodes. destruct res.2; [apply reads_ret|].
      apply reads_parseCheckServiceNodes_loop; [agree_on TNodes|agree_on TChecks].
    - unfold CheckServiceTagNodes.
      apply (runQuery_reads (query_agree "CheckServiceNodes")); [done|].
      apply reads_bind; [apply reads_orReturn, reads_LastIndexTxnAll; agree_index|].
      intros idx.
      apply reads_bind; [apply reads_capture, reads_GetTxn; agree_on TServices|].
      intros res. apply reads_bind; [|intros ?; apply reads_ret].
      unfold parseCheckServiceNodes. destruct res.2; [apply reads_ret|].
      apply reads_parseCheckServiceNodes_loop; [agree_on TNodes|agree_on TChecks]. }
  split.
  { intros H node. unfold NodeInfo.
    apply (runQuery_reads (query_agree "NodeInfo")); [done|].
    apply reads_bind; [apply reads_orReturn, reads_LastIndexTxnAll; agree_index|].
    intros idx. apply reads_bind; [apply reads_capture, reads_GetTxn; agree_on TNodes|].
    intros res. apply reads_bind; [|intros ?; apply reads_ret].
    unfold parseNodeInfo. destruct res.2; [apply reads_ret|].
    apply reads_parseNodeInfo_loop; [agree_on TServices|agree_on TChecks]. }
  split.
  { intros H. unfold NodeDump.
    apply (runQuery_reads (query_agree "NodeDump")); [done|].
    apply reads_bind; [apply reads_orReturn, reads_LastIndexTxnAll; agree_index|].
    intros idx. apply reads_bind; [apply reads_capture, reads_GetTxn; agree_on TNodes|].
    intros res. apply reads_bind; [|intros ?; apply reads_ret].
    unfold parseNodeInfo. destruct res.2; [apply reads_ret|].
    apply reads_parseNodeInfo_loop; [agree_on TServices|agree_on TChecks]. }
  split.
  { intros H key. pose proof (H TKVS ltac:(compute_done)) as Hk. simpl in Hk.
    unfold KVSGet, StartTxn, bind, LastIndexTxn, GetTxn, engineOp.
    destruct faults as [|[] fs]; simpl; rewrite ?Hk; [done..|].
    destruct fs as [|[] fs]; simpl; rewrite ?Hk; [done..|].
    by destruct fs as [|[] fs]. }
  split.
  { intros H prefix. unfold KVSList.
    by rewrite (Get_reads kvsTable faults "id_prefix" [prefix] s s'
                  (H TKVS ltac:(compute_done))). }
  intros H prefix seperator. pose proof (H TKVS ltac:(compute_done)) as Hk.
  simpl in Hk.
  unfold KVSListKeys, StartTxn, bind, orReturn, capture, LastIndexTxn, StreamTxn,
    GetTxn, engineOp.
  destruct faults as [|[] fs]; simpl; rewrite ?Hk; [done..|].
  destruct fs as [|[] fs]; simpl; rewrite ?Hk; [done..|].
  by destruct fs as [|[] fs].
Qed.

Lemma queries_read_their_tables_witness :
  let s' := store_of example_checks_store
              (KVSSet noFaults 9 (mkDirEntry 0 0 "a" 0 []) example_checks_store) in
  query_agree "NodeChecks" example_checks_store s' ∧
  NodeChecks noFaults "n1" example_checks_store = NodeChecks noFaults "n1" s'.
Proof.
  intros s'.
  assert (query_agree "NodeChecks" example_checks_store s') as Hagree.
  { intros t Ht. destruct t; try reflexivity.
    exfalso. revert Ht. vm_compute. intros Ht.
    apply list_elem_of_singleton in Ht. discriminate. }
  split; [exact Hagree|].
  destruct (queries_read_their_tables noFaults example_checks_store s')
    as (_ & _ & _ & _ & _ & H & _).
  exact (H Hagree "n1").
Defined.

(** ** The tables a write touches *)

Lemma write_effect_frame op s s' t :
  write_effect op s s' → t ∉ op_tables op → table_same t s s'.
Proof.
  destruct op as [ index node | index node ns | index check | index op | index d
                 | d | index d | fuel uuid index session | session ]; simpl.
  - intros -> Ht. destruct t; try done. destruct Ht. repeat constructor.
  - intros [_ ->] Ht. destruct t; try done. destruct Ht. repeat constructor.
  - intros (c & _ & _ & _ & _ & _ & ->) Ht. destruct t; try done.
    destruct Ht. repeat constructor.
  - intros -> Ht. destruct op as [node id|node|node id|key|prefix]; simpl in *;
      try destruct (String.eqb prefix ""); destruct t; try done;
      destruct Ht; repeat constructor.
  - intros -> Ht. destruct t; try done. destruct Ht. repeat constructor.
  - intros -> Ht. destruct t; try done. destruct Ht. repeat constructor.
  - intros -> Ht. destruct t; try done. destruct Ht. repeat constructor.
  - intros [_ ->] Ht. destruct t; try done; destruct Ht; repeat constructor.
  - intros -> Ht. destruct t; try done; destruct Ht; repeat constructor.
Qed.

(** X26: a write method changes its own tables only.  [EnsureNode] writes
    the nodes table, [EnsureService] the services table, [EnsureCheck] the
    checks table; [DeleteNodeService] writes services and checks,
    [DeleteNode] nodes, services and checks (and leaves the sessions of the
    node and their mappings where they are); the KV methods write the kvs
    table, the session methods sessions and sessionChecks.  Every other
    table has the same rows and the same watermark after the call, whatever
    the table layer does. *)
Theorem write_frame faults op s o t :
  runWrite faults op s = Some o → t ∉ op_tables op → table_same t s (store_of s o).
Proof.
  intros Ho Ht. destruct (runWrite_effect faults op s o Ho) as [-> | He].
  - by destruct t.
  - by apply (write_effect_frame op).
Qed.

Lemma write_frame_witness :
  let o := DeleteNode noFaults 9 "n1" example_session_store in
  (runWrite noFaults (OpDelete 9 (OpDeleteNode "n1")) example_session_store = Some o ∧
   (TSessions ∉ op_tables (OpDelete 9 (OpDeleteNode "n1"))) ∧
   db_sessions example_session_store = db_sessions (store_of example_session_store o)).
Proof.
  intros o.
  assert (TSessions ∉ op_tables (OpDelete 9 (OpDeleteNode "n1"))) as Ht.
  { simpl. intros H. repeat (apply elem_of_cons in H as [H|H]; [discriminate|]).
    by apply elem_of_nil in H. }
  split; [reflexivity|]. split; [exact Ht|].
  exact (write_frame noFaults (OpDelete 9 (OpDeleteNode "n1")) example_session_store
           o TSessions eq_refl Ht).
Defined.

(** ** Notifications *)

Section deleted_cases.
Context {K : Type} `{Countable K} `{!KeyOrder K} {R : Type}.

Lemma tbl_delete_cases (ix : MDBIndex K R) parts (t : TableState K R) :
  ((tbl_delete ix parts t).1 = 0 ∧ (tbl_delete ix parts t).2 = t) ∨
  (0 <? (tbl_delete ix parts t).1)%nat = true.
Proof.
  pose proof (delete_outcome ix parts t) as Hd. cbv zeta in Hd.
  destruct (tbl_delete ix parts t) as [n t'] eqn:E.
  simpl in *. destruct Hd as [(-> & Hr & Hl)|[Hpos _]]; [left|by right].
  split; [done|]. destruct t, t'. simpl in *. by subst.
Qed.
End deleted_cases.

Local Opaque tbl_delete.

Ltac notified_case t :=
  match goal with
  | |- context [tbl_delete ?ix ?p t] =>
      let Hc := fresh "Hc" in
      let Hz := fresh "Hz" in
      let Hd := fresh "Hd" in
      destruct (tbl_delete_cases ix p t) as [[Hz Hd]|Hc];
      destruct (tbl_delete ix p t) as [? ?]; simpl in *;
      [subst|rewrite Hc]; simpl
  end.

Ltac notified_done s :=
  let t := fresh "t" in
  intros [= <- <- <-] t; destruct s; destruct t; simpl;
  first [by left | right; repeat constructor].

(** A delete method notifies the watchers of every table it changes. *)
Lemma runDelete_notified index op s err s' n :
  runDelete noFaults index op s = Returned err s' n →
  ∀ t, table_same t s s' ∨ table_name t ∈ n.
Proof.
  destruct op as [node id|node|node id|key|prefix]; simpl.
  - unfold DeleteNodeService. unfold_delete.
    notified_case (db_services s); notified_case (db_checks s); notified_done s.
  - unfold DeleteNode. unfold_delete.
    notified_case (db_services s); notified_case (db_checks s);
      notified_case (db_nodes s); notified_done s.
  - unfold DeleteNodeCheck. unfold_delete.
    notified_case (db_checks s); notified_done s.
  - unfold KVSDelete, kvsDeleteWithIndex. unfold_delete.
    notified_case (db_kvs s); notified_done s.
  - unfold KVSDeleteTree, kvsDeleteWithIndex.
    destruct (String.eqb prefix ""); unfold_delete;
      notified_case (db_kvs s); notified_done s.
Qed.

Local Transparent tbl_delete.

Lemma runWrite_noFaults_notified op s err s' n :
  (∀ d, op ≠ OpKVSRestore d) →
  runWrite noFaults op s = Some (Returned err s' n) →
  ∀ t, table_same t s s' ∨ table_name t ∈ n.
Proof.
  intros Hop.
  destruct op as [ index node | index node ns | index check | index op | index d
                 | d | index d | fuel uuid index session | session ]; simpl.
  - intros [= <- <- <-] t. destruct t; simpl; first [by left|right; repeat constructor].
  - rewrite EnsureService_noFaults.
    destruct (rows (db_nodes s) !! node); intros [= <- <- <-] t;
      destruct t; simpl; first [by left|right; repeat constructor].
  - rewrite EnsureCheck_noFaults. cbv zeta.
    destruct (rows (db_nodes s) !! _); [|by intros [= <- <- <-] []; left].
    destruct (String.eqb _ ""); [|destruct (rows (db_services s) !! _)];
      intros [= <- <- <-] t;
      destruct t; simpl; first [by left|right; repeat constructor].
  - intros [= Ho]. by apply (runDelete_notified index op s err).
  - rewrite KVSSet_noFaults. intros [= <- <- <-] t.
    destruct t; simpl; first [by left|right; repeat constructor].
  - by destruct (Hop d).
  - destruct (cas_condition_cases s d) as [Hc|Hc].
    + rewrite KVSCheckAndSet_noFaults_ok by done. intros [= <- <- <-] t.
      destruct t; simpl; first [by left|right; repeat constructor].
    + rewrite KVSCheckAndSet_noFaults_fail by done. intros [= <- <- <-] t.
      by destruct t; left.
  - intros Ho.
    destruct (SessionCreate_noFaults_cases fuel uuid index session s)
      as [Hn|[[e He]|(_ & _ & He)]]; rewrite Ho in *; try discriminate.
    + injection He as -> -> ->. intros t. by destruct t; left.
    + injection He as -> -> ->. intros t.
      destruct t; simpl; first [by left|right; repeat constructor].
  - rewrite SessionRestore_noFaults. intros [= <- <- <-] t.
    destruct t; simpl; first [by left|right; repeat constructor].
Qed.

(** X27: no silent change.  Whatever the table layer does, when a write
    method other than [KVSRestore] has changed a table (a row or the
    watermark), it has notified the watchers of that table.  ([KVSRestore]
    inserts its entry and notifies nobody.) *)
Theorem writes_notify faults op s err s' n :
  (∀ d, op ≠ OpKVSRestore d) →
  runWrite faults op s = Some (Returned err s' n) →
  ∀ t, table_same t s s' ∨ table_name t ∈ n.
Proof.
  intros Hop Ho t.
  destruct (runWrite_faults faults op s _ Ho) as [Hs|H0].
  - simpl in Hs. subst s'. left. by destruct t.
  - by apply (runWrite_noFaults_notified op s err s' n).
Qed.

Lemma writes_notify_witness :
  let op := OpDelete 9 (OpDeleteNodeService "n1" "web") in
  let s' := delete_store 9 (OpDeleteNodeService "n1" "web") example_service_store in
  (∀ d, op ≠ OpKVSRestore d) ∧
  runWrite noFaults op example_service_store = Some (Returned None s' [dbServices]) ∧
  ∀ t, table_same t example_service_store s' ∨ table_name t ∈ [dbServices].
Proof.
  intros op s'.
  assert (∀ d, op ≠ OpKVSRestore d) as Hop by done.
  assert (runWrite noFaults op example_service_store =
          Some (Returned None s' [dbServices])) as Ho by (vm_compute; reflexivity).
  split; [exact Hop|]. split; [exact Ho|].
  exact (writes_notify noFaults op example_service_store None s' [dbServices] Hop Ho).
Defined.
